(** * The announcements relay (server.js): a shallow embedding

    The server relays the recent messages of one Discord channel as an
    "announcements" feed and mirrors uploaded attachments under
    [/downloads].  This file embeds the functions of [src/server.js] and
    states the properties of the specification about them.

    Conventions of the embedding.
    - A JavaScript string is a list of code units.  The code units are
      the 256 values of [ascii], read as the Latin-1 range U+0000..U+00FF;
      [trim] and [toLowerCase] follow ECMAScript on that range.
    - A property that may be [undefined] is an [option]; the empty string
      and [undefined] are the falsy values.
    - The upstream JSON is typed: an array holds message objects whose
      fields, when present, have the types Discord documents.
    - The network, the file system, [JSON.parse] and the order in which
      suspended callbacks are resumed are parameters gathered in the
      record [Platform]; the mutable part of the world
      (files on disk, the fetches performed so far) is the record
      [State], threaded through the effectful functions. *)

From Stdlib Require Import Ascii String ZArith Lia.
From stdpp Require Import gmap strings list.

Local Open Scope Z_scope.
Local Open Scope list_scope.

(** ** Strings *)

Abbreviation str := (list ascii) (only parsing).

(** A string literal as a list of code units. *)
Definition lit (s : string) : str := list_ascii_of_string s.

Definition code (c : ascii) : nat := nat_of_ascii c.

Definition between (lo hi : nat) (c : ascii) : bool :=
  (Nat.leb lo (code c)) && (Nat.leb (code c) hi).

Definition isDigit (c : ascii) : bool := between 48 57 c.
Definition isUpper (c : ascii) : bool := between 65 90 c.
Definition isLower (c : ascii) : bool := between 97 122 c.

Definition ch_eqb (a b : ascii) : bool := Ascii.eqb a b.
Arguments ch_eqb !a !b : simpl nomatch.

(** [s || d] on strings that may be undefined. *)
Definition truthy (s : option str) : bool :=
  match s with
  | Some (_ :: _) => true
  | _ => false
  end.

Definition orElse (s : option str) (d : str) : str :=
  match s with
  | Some (c :: r) => c :: r
  | _ => d
  end.

(** [String(x)] for a string that may be undefined. *)
Definition toString (s : option str) : str :=
  match s with
  | Some v => v
  | None => lit "undefined"
  end.

(** [String.prototype.toLowerCase] on U+0000..U+00FF: the letters A-Z and
    the Latin-1 capitals U+00C0..U+00DE other than the multiplication sign
    U+00D7 move up by 32. *)
Definition lowerChar (c : ascii) : ascii :=
  if isUpper c || (between 192 222 c && negb (Nat.eqb (code c) 215))
  then ascii_of_nat (code c + 32)
  else c.

Definition toLowerCase (s : str) : str := map lowerChar s.

(** White space of [String.prototype.trim] on U+0000..U+00FF:
    TAB, LF, VT, FF, CR, SPACE and NBSP. *)
Definition isSpace (c : ascii) : bool :=
  between 9 13 c || Nat.eqb (code c) 32 || Nat.eqb (code c) 160.

Fixpoint trimStart (s : str) : str :=
  match s with
  | [] => []
  | c :: r => if isSpace c then trimStart r else s
  end.

Fixpoint trimEnd (s : str) : str :=
  match s with
  | [] => []
  | c :: r =>
      match trimEnd r with
      | [] => if isSpace c then [] else [c]
      | r' => c :: r'
      end
  end.

Definition trim (s : str) : str := trimEnd (trimStart s).

(** [s.startsWith(p)]; the rest of [s] after [p] when it does. *)
Fixpoint stripPrefix (p s : str) : option str :=
  match p, s with
  | [], _ => Some s
  | a :: p', b :: s' => if ch_eqb a b then stripPrefix p' s' else None
  | _ :: _, [] => None
  end.

Definition startsWith (s p : str) : bool :=
  match stripPrefix p s with Some _ => true | None => false end.

(** [s.split("/").pop()]: the text after the last ["/"], the whole string
    when it has none. *)
Fixpoint lastSegment (s : str) : str :=
  match s with
  | [] => []
  | c :: r =>
      if existsb (ch_eqb "/") r then lastSegment r
      else if ch_eqb c "/" then r else s
  end.

(** ** Regular expressions

    A regular expression is embedded as a matcher: given the text from
    the current index on, the length of the match that starts there, if
    there is one.  [replaceAll] is [String.prototype.replace] with a
    global regular expression and a constant replacement: the matches
    are found from left to right and do not overlap; after an empty
    match the scan moves on by one code unit. *)

Definition matcher := str -> option nat.

Fixpoint replaceFrom (m : matcher) (rep : str) (skip : nat) (s : str) : str :=
  match s with
  | [] =>
      match skip, m [] with
      | O, Some _ => rep
      | _, _ => []
      end
  | c :: r =>
      match skip with
      | S k => replaceFrom m rep k r
      | O =>
          match m s with
          | Some (S k) => rep ++ replaceFrom m rep k r
          | Some O => rep ++ c :: replaceFrom m rep 0 r
          | None => c :: replaceFrom m rep 0 r
          end
      end
  end.

Definition replaceAll (m : matcher) (rep : str) (s : str) : str :=
  replaceFrom m rep 0 s.

(** [b] can be appended to any text without changing the matches of [m]
    found in the text: none reaches into [b], none is created by [b]. *)
Definition stable_before (m : matcher) (b : str) : Prop :=
  m [] = None /\
  forall c a, m ((c :: a) ++ b) = m (c :: a) /\
              forall n, m (c :: a) = Some n -> (n <= length (c :: a))%nat.

(** Every match of [m] starts with the code unit [h]. *)
Definition starts_only_with (m : matcher) (h : ascii) : Prop :=
  m [] = None /\ forall c r, c <> h -> m (c :: r) = None.

(** The length of the longest prefix whose code units satisfy [f]. *)
Fixpoint spanLength (f : ascii -> bool) (s : str) : nat :=
  match s with
  | c :: r => if f c then S (spanLength f r) else O
  | [] => O
  end.

(** A literal pattern. *)
Definition matchLit (p : str) : matcher :=
  fun s => if startsWith s p then Some (length p) else None.

(** [\d+>] after a prefix of [k] code units already matched. *)
Definition digitsThenGt (k : nat) (s : str) : option nat :=
  match spanLength isDigit s with
  | O => None
  | S n =>
      match drop (S n) s with
      | c :: _ => if ch_eqb c ">" then Some (k + S n + 1)%nat else None
      | [] => None
      end
  end.

(** [/<@!?(\d+)>/]: with a ["!"] after ["<@"] the optional ["!"] is tried
    first and given up when the rest does not match. *)
Definition matchUserMention : matcher :=
  fun s =>
    match stripPrefix (lit "<@") s with
    | Some r =>
        match stripPrefix (lit "!") r with
        | Some r1 =>
            match digitsThenGt 3 r1 with
            | Some n => Some n
            | None => digitsThenGt 2 r
            end
        | None => digitsThenGt 2 r
        end
    | None => None
    end.

(** [/<@&(\d+)>/] *)
Definition matchRoleMention : matcher :=
  fun s =>
    match stripPrefix (lit "<@&") s with
    | Some r => digitsThenGt 3 r
    | None => None
    end.

(** [/<#(\d+)>/] *)
Definition matchChannelRef : matcher :=
  fun s =>
    match stripPrefix (lit "<#") s with
    | Some r => digitsThenGt 2 r
    | None => None
    end.

(** The class [[a-z0-9._-]] under the [i] flag. *)
Definition isSafeChar (c : ascii) : bool :=
  isLower c || isUpper c || isDigit c
  || ch_eqb c "." || ch_eqb c "_" || ch_eqb c "-".

(** [/[^a-z0-9._-]+/gi] *)
Definition matchUnsafeRun : matcher :=
  fun s =>
    match spanLength (fun c => negb (isSafeChar c)) s with
    | O => None
    | n => Some n
    end.

Definition isUnderscore (c : ascii) : bool := ch_eqb c "_".

(** [/_+$/]: a run of underscores that reaches the end of the text. *)
Definition matchTrailingUnderscores : matcher :=
  fun s =>
    match s with
    | [] => None
    | _ :: _ => if forallb isUnderscore s then Some (length s) else None
    end.

(** [.replace(/^_+|_+$/g, "")].  The first alternative can match at
    index 0 only, where it takes the whole leading run; the second one
    cannot match at index 0 unless the text is all underscores, which the
    first has then taken.  From the end of the leading run on, only the
    second alternative can match. *)
Definition trimUnderscores (s : str) : str :=
  replaceAll matchTrailingUnderscores [] (drop (spanLength isUnderscore s) s).

(** Case-insensitive literal prefix, for a pattern of lower-case ASCII
    letters under the [i] flag: an input code unit matches the pattern
    letter when it is that letter in either case. *)
Definition foldCase (c : ascii) : ascii :=
  if isUpper c then ascii_of_nat (code c + 32) else c.

Fixpoint stripPrefixCI (p s : str) : option str :=
  match p, s with
  | [], _ => Some s
  | a :: p', b :: s' =>
      if ch_eqb a (foldCase b) then stripPrefixCI p' s' else None
  | _ :: _, [] => None
  end.

(** [(\?|$)] *)
Definition queryOrEnd (s : str) : bool :=
  match s with
  | [] => true
  | c :: _ => ch_eqb c "?"
  end.

(** [RegExp.prototype.test] without the sticky flag: the pattern matches
    at some index.  [at_ s] tells whether it matches at the start of [s]. *)
Fixpoint test (at_ : str -> bool) (s : str) : bool :=
  at_ s || match s with [] => false | _ :: r => test at_ r end.

(** [/\.(e1|e2|...)(\?|$)/i] at the current index, the alternatives being
    the extensions [exts]. *)
Definition extensionAt (exts : list str) (s : str) : bool :=
  match stripPrefix (lit ".") s with
  | Some r =>
      existsb
        (fun e => match stripPrefixCI e r with
                  | Some rest => queryOrEnd rest
                  | None => false
                  end) exts
  | None => false
  end.

(** [/\.(png|jpe?g|gif|webp)(\?|$)/i] *)
Definition imageExtensionAt : str -> bool :=
  extensionAt [lit "png"; lit "jpg"; lit "jpeg"; lit "gif"; lit "webp"].

(** [/\.gif(\?|$)/i] *)
Definition gifExtensionAt : str -> bool := extensionAt [lit "gif"].

(** [/\.(mp4|webm|mov)(\?|$)/i] *)
Definition videoExtensionAt : str -> bool :=
  extensionAt [lit "mp4"; lit "webm"; lit "mov"].

(** [/\.gif/i] *)
Definition dotGifAt (s : str) : bool :=
  match stripPrefix (lit ".") s with
  | Some r => match stripPrefixCI (lit "gif") r with Some _ => true | None => false end
  | None => false
  end.

(** ** safeFilename and sanitizeContent *)

(** [safeFilename(name)] for a defined [name]. *)
Definition safeFilename (name : str) : str :=
  take 180 (trimUnderscores (replaceAll matchUnsafeRun (lit "_") name)).

(** The first two and the last three calls of the chain in
    [sanitizeContent]. *)
Definition unescape (text : str) : str :=
  replaceAll (matchLit (lit "\u003e")) (lit ">")
    (replaceAll (matchLit (lit "\u003c")) (lit "<") text).

Definition replaceMentions (text : str) : str :=
  replaceAll matchChannelRef (lit "#channel")
    (replaceAll matchRoleMention (lit "@role")
      (replaceAll matchUserMention (lit "@user") text)).

Definition sanitizeContent (text : str) : str :=
  replaceAll matchChannelRef (lit "#channel")
    (replaceAll matchRoleMention (lit "@role")
      (replaceAll matchUserMention (lit "@user")
        (replaceAll (matchLit (lit "\u003e")) (lit ">")
          (replaceAll (matchLit (lit "\u003c")) (lit "<") text)))).

(** ** The upstream data *)

Record Attachment := {
  att_url : option str;
  att_content_type : option str;
  att_filename : option str }.

(** The [video], [image] and [thumbnail] objects of an embed. *)
Record EmbedMedia := { em_url : option str }.

Record Embed := {
  emb_title : option str;
  emb_description : option str;
  emb_video : option EmbedMedia;
  emb_image : option EmbedMedia;
  emb_thumbnail : option EmbedMedia }.

Record Message := {
  msg_id : str;
  msg_type : option Z;
  msg_content : option str;
  msg_timestamp : option str;
  msg_embeds : option (list Embed);
  msg_attachments : option (list Attachment) }.

(** What [JSON.parse] yields on an upstream body: [null], an array of
    messages, or another value (object, number, string, boolean), kept
    as its text. *)
Inductive jsdata :=
| DNull
| DOther (text : str)
| DArray (messages : list Message).

(** ** The feed *)

Inductive MediaType := image | gif | video | file.

Record MediaItem := {
  media_url : str;
  media_type : MediaType;
  media_name : option str;
  media_contentType : option str }.

Record Announcement := {
  ann_id : str;
  ann_content : str;
  ann_timestamp : option str;
  ann_media : list MediaItem }.

(** ** The platform and the state of the world *)

(** The answer to a [fetch]: the status line and the body, [None] when
    reading the body fails. *)
Record HttpReply := { reply_status : Z; reply_body : option str }.

Inductive fetch_outcome :=
| Rejected
| Replied (r : HttpReply).

(** [Response.ok]: a status in 200..299. *)
Definition reply_ok (r : HttpReply) : bool :=
  (200 <=? reply_status r) && (reply_status r <=? 299).

(** What [fs.writeFileSync] does: it writes the whole buffer, or it
    throws.  It opens the file for writing before it writes, so a write
    that throws can leave a file behind, with [leftover] as content
    (empty or partial); [None] when it throws without creating one. *)
Inductive WriteResult :=
| Written
| WriteThrows (leftover : option (list ascii)).

Record Platform := {
  env_DISCORD_BOT_TOKEN : option str;
  env_DISCORD_CHANNEL_ID : option str;
  DOWNLOADS_DIR : str;
  path_join : str -> str -> str;
  (** [path.sep]: ["/"], and ["\"] on Windows *)
  path_sep : ascii;
  (** the outcome of the [n]-th fetch of the process, by URL *)
  network : nat -> str -> fetch_outcome;
  (** what [fs.writeFileSync] does at a path with a buffer *)
  write_result : str -> str -> WriteResult;
  JSON_parse : str -> option jsdata;
  (** the order, by index, in which the suspended callbacks of
      [Promise.all] are resumed during a request, as the answers of
      the network come in *)
  resume_order : list nat }.

Record State := {
  files : gmap (list ascii) (list ascii);
  fetched : list (list ascii) }.

Inductive js_error :=
| MirrorFetchFailed (status : Z)
| FetchRejected
| BodyRejected
| TypeError
| WriteFailed.

Inductive Res (A : Type) :=
| Ok (a : A)
| Throw (e : js_error).
Arguments Ok {A} a.
Arguments Throw {A} e.

(** Effectful code: a state transformer that returns or throws. *)
Definition Eff (A : Type) : Type := State -> Res A * State.

Definition ret {A} (a : A) : Eff A := fun st => (Ok a, st).

Definition throw {A} (e : js_error) : Eff A := fun st => (Throw e, st).

Definition bind {A B} (c : Eff A) (k : A -> Eff B) : Eff B :=
  fun st =>
    match c st with
    | (Ok a, st') => k a st'
    | (Throw e, st') => (Throw e, st')
    end.

Definition try_catch {A} (c : Eff A) (h : js_error -> Eff A) : Eff A :=
  fun st =>
    match c st with
    | (Ok a, st') => (Ok a, st')
    | (Throw e, st') => h e st'
    end.

Notation "'let*' x ':=' c 'in' k" := (bind c (fun x => k))
  (at level 10, x name, c at level 100, k at level 200).

Fixpoint foldM {A B} (f : B -> A -> Eff B) (b : B) (l : list A) : Eff B :=
  match l with
  | [] => ret b
  | a :: l' => let* b' := f b a in foldM f b' l'
  end.

(** [fs.existsSync(path)] *)
Definition existsSync (path : str) : Eff bool :=
  fun st => (Ok (bool_decide (is_Some (files st !! path))), st).

(** [fs.writeFileSync(path, buf)] *)
Definition writeFileSync (P : Platform) (path buf : str) : Eff unit :=
  fun st =>
    match write_result P path buf with
    | Written =>
        (Ok tt, {| files := <[path := buf]> (files st); fetched := fetched st |})
    | WriteThrows None => (Throw WriteFailed, st)
    | WriteThrows (Some part) =>
        (Throw WriteFailed,
         {| files := <[path := part]> (files st); fetched := fetched st |})
    end.

(** [await fetch(url)].  An undefined URL is rejected before any request
    is made; every other call is one fetch of the process. *)
Definition fetch (P : Platform) (url : option str) : Eff HttpReply :=
  fun st =>
    match url with
    | None => (Throw TypeError, st)
    | Some u =>
        let st' := {| files := files st; fetched := fetched st ++ [u] |} in
        match network P (length (fetched st)) u with
        | Rejected => (Throw FetchRejected, st')
        | Replied r => (Ok r, st')
        end
    end.

(** [await r.arrayBuffer()] and [await r.text()] *)
Definition readBody (r : HttpReply) : Eff str :=
  match reply_body r with
  | Some b => ret b
  | None => throw BodyRejected
  end.

(** ** mirrorToLocal *)

(** [filename || url.split("/").pop() || "download"]; a [TypeError] when
    the file name is falsy and the URL undefined. *)
Definition nameSource (url filename : option str) : Res str :=
  if truthy filename then Ok (toString filename)
  else
    match url with
    | None => Throw TypeError
    | Some u => Ok (orElse (Some (lastSegment u)) (lit "download"))
    end.

Definition lift {A} (r : Res A) : Eff A := fun st => (r, st).

(** [`${messageId}-${baseName}`] *)
Definition localNameOf (messageId baseName : str) : str :=
  messageId ++ lit "-" ++ baseName.

(** [`/downloads/${localName}`] *)
Definition localRef (localName : str) : str := lit "/downloads/" ++ localName.

(** [path.join(DOWNLOADS_DIR, localName)] *)
Definition localPathOf (P : Platform) (localName : str) : str :=
  path_join P (DOWNLOADS_DIR P) localName.

(** The code units that separate the segments of a path: ["/"]
    everywhere, and [path.sep]. *)
Definition isPathSeparator (P : Platform) (c : ascii) : bool :=
  ch_eqb c "/" || ch_eqb c (path_sep P).

(** What Node documents of [path.join] and [path.sep], as far as the
    mirror relies on it: the separator is ["/"] or ["\"], and joining
    the mirror directory with a single segment (a name without a
    separator, other than [""], ["."] and [".."]) puts the separator and
    the name after the directory. *)
Definition pathContract (P : Platform) : Prop :=
  (path_sep P = "/"%char \/ path_sep P = "\"%char) /\
  forall name : str,
    Forall (fun c => isPathSeparator P c = false) name ->
    name <> [] -> name <> lit "." -> name <> lit ".." ->
    path_join P (DOWNLOADS_DIR P) name = DOWNLOADS_DIR P ++ path_sep P :: name.

Definition mirrorToLocal (P : Platform)
    (url : option str) (messageId : str) (filename : option str) : Eff str :=
  let* source := lift (nameSource url filename) in
  let baseName := safeFilename source in
  let localName := localNameOf messageId baseName in
  let localPath := localPathOf P localName in
  let* mirrored := existsSync localPath in
  if mirrored then ret (localRef localName)
  else
    let* r := fetch P url in
    if negb (reply_ok r) then throw (MirrorFetchFailed (reply_status r))
    else
      let* buf := readBody r in
      let* _ := writeFileSync P localPath buf in
      ret (localRef localName).

(** ** getMediaFromMessage *)

(** The two locals [out] and [seen] that the closure [add] updates. *)
Record MediaAcc := {
  out : list MediaItem;
  seen : gset (list ascii) }.

(** [add(url, type, extra)]; [extra] is either [{}] or
    [{ name, contentType }]. *)
Definition add (acc : MediaAcc) (url : option str) (type : MediaType)
    (extra : option (str * str)) : MediaAcc :=
  match url with
  | Some (c :: r) =>
      let u := c :: r in
      if bool_decide (u ∈ seen acc) then acc
      else
        {| out := out acc ++
                  [ {| media_url := u; media_type := type;
                       media_name := fst <$> extra;
                       media_contentType := snd <$> extra |} ];
           seen := {[ u ]} ∪ seen acc |}
  | _ => acc
  end.

Definition str_eqb (a b : str) : bool := bool_decide (a = b).

(** The body of the attachment loop after the [try]/[catch]: classify
    the attachment and add it under [localUrl]. *)
Definition addAttachment (acc : MediaAcc) (originalUrl localUrl : option str)
    (ct name : str) : MediaAcc :=
  if startsWith ct (lit "image/") || test imageExtensionAt (toString originalUrl)
  then
    let type :=
      if str_eqb ct (lit "image/gif") || test gifExtensionAt (toString originalUrl)
      then gif else image in
    add acc localUrl type None
  else if startsWith ct (lit "video/") || test videoExtensionAt (toString originalUrl)
  then add acc localUrl video None
  else add acc localUrl file (Some (name, ct)).

(** One round of the attachment loop. *)
Definition attachmentStep (P : Platform) (messageId : str)
    (acc : MediaAcc) (a : Attachment) : Eff MediaAcc :=
  let originalUrl := att_url a in
  let ct := toLowerCase (orElse (att_content_type a) []) in
  let name := orElse (att_filename a) (lit "download") in
  let* localUrl :=
    try_catch
      (let* u := mirrorToLocal P originalUrl messageId (Some name) in ret (Some u))
      (fun _ => ret originalUrl) in
  ret (addAttachment acc originalUrl localUrl ct name).

(** [e?.video?.url] and the like. *)
Definition mediaUrl (o : option EmbedMedia) : option str :=
  match o with
  | Some em => em_url em
  | None => None
  end.

Definition gifOrImage (url : option str) : MediaType :=
  if test dotGifAt (toString url) then gif else image.

(** One round of the embed loop. *)
Definition embedStep (acc : MediaAcc) (e : Embed) : MediaAcc :=
  if truthy (mediaUrl (emb_video e)) then add acc (mediaUrl (emb_video e)) video None
  else if truthy (mediaUrl (emb_image e))
  then add acc (mediaUrl (emb_image e)) (gifOrImage (mediaUrl (emb_image e))) None
  else if truthy (mediaUrl (emb_thumbnail e))
  then add acc (mediaUrl (emb_thumbnail e)) (gifOrImage (mediaUrl (emb_thumbnail e))) None
  else acc.

(** [x || []] on an array that may be undefined. *)
Definition orEmpty {A} (l : option (list A)) : list A :=
  match l with
  | Some v => v
  | None => []
  end.

Definition getMediaFromMessage (P : Platform) (m : Message) : Eff (list MediaItem) :=
  let* acc := foldM (attachmentStep P (msg_id m))
                {| out := []; seen := ∅ |} (orEmpty (msg_attachments m)) in
  ret (out (fold_left embedStep (orEmpty (msg_embeds m)) acc)).

(** ** The routes *)

(** [process.env.X?.trim()] *)
Definition DISCORD_BOT_TOKEN (P : Platform) : option str :=
  trim <$> env_DISCORD_BOT_TOKEN P.

Definition DISCORD_CHANNEL_ID (P : Platform) : option str :=
  trim <$> env_DISCORD_CHANNEL_ID P.

(** The [data] of a [discordFetchJson] result: the parsed body, or the
    object [{ error: "Discord returned non-JSON", raw }]. *)
Inductive FetchData :=
| Parsed (d : jsdata)
| NonJson (raw : str).

Record FetchJson := {
  fj_ok : bool;
  fj_status : Z;
  fj_data : FetchData }.

Definition discordFetchJson (P : Platform) (url : str) : Eff FetchJson :=
  let* r := fetch P (Some url) in
  let* raw := readBody r in
  match (match raw with [] => Some DNull | _ :: _ => JSON_parse P raw end) with
  | None => ret {| fj_ok := false; fj_status := 502; fj_data := NonJson raw |}
  | Some d => ret {| fj_ok := reply_ok r; fj_status := reply_status r; fj_data := Parsed d |}
  end.

(** What a route sends. *)
Inductive Body :=
| ErrorBody (error : str)
| DiscordErrorBody (status : Z) (details : FetchData)
| ServerErrorBody (details : js_error)
| AnnouncementsBody (announcements : list Announcement).

Record Response := {
  res_status : Z;
  res_cache_control : option str;
  res_body : Body }.

(** [requireEnv(res)]: [Some r] when it sends [r] and returns [false],
    [None] when it returns [true]. *)
Definition requireEnv (P : Platform) : option Response :=
  if negb (truthy (DISCORD_BOT_TOKEN P))
  then Some {| res_status := 500; res_cache_control := None;
               res_body := ErrorBody (lit "Missing DISCORD_BOT_TOKEN") |}
  else if negb (truthy (DISCORD_CHANNEL_ID P))
  then Some {| res_status := 500; res_cache_control := None;
               res_body := ErrorBody (lit "Missing DISCORD_CHANNEL_ID") |}
  else None.

(** The first [filter] of the route. *)
Definition keepMessage (m : Message) : bool :=
  match msg_type m with Some 0 => true | _ => false end
  || Nat.ltb 0 (length (orEmpty (msg_embeds m)))
  || Nat.ltb 0 (length (orEmpty (msg_attachments m))).

(** [m.content && m.content.trim().length ? m.content : fallback || ""] *)
Definition contentRaw (m : Message) : str :=
  let embed := head (orEmpty (msg_embeds m)) in
  let fallback :=
    (match embed with
     | Some e => if truthy (emb_title e)
                 then toString (emb_title e) ++ [ascii_of_nat 10]
                 else []
     | None => []
     end)
    ++ (match embed with
        | Some e => orElse (emb_description e) []
        | None => []
        end) in
  if truthy (msg_content m) && Nat.ltb 0 (length (trim (toString (msg_content m))))
  then toString (msg_content m)
  else fallback.

(** The body of the [map] callback, run on its own from start to end. *)
Definition toAnnouncement (P : Platform) (m : Message) : Eff Announcement :=
  let content := trim (sanitizeContent (contentRaw m)) in
  let* media := getMediaFromMessage P m in
  ret {| ann_id := msg_id m; ann_content := content;
         ann_timestamp := msg_timestamp m; ann_media := media |}.

(** The second [filter] of the route. *)
Definition nonEmpty (a : Announcement) : bool :=
  Nat.ltb 0 (length (ann_content a)) || Nat.ltb 0 (length (ann_media a)).

(** [mapped.filter(...).slice(0, 8)] *)
Definition cleaned (mapped : list Announcement) : list Announcement :=
  take 8 (filter (fun a => nonEmpty a = true) mapped).

Definition messagesUrl (P : Platform) : str :=
  lit "https://discord.com/api/v10/channels/"
  ++ toString (DISCORD_CHANNEL_ID P) ++ lit "/messages?limit=20".

(** *** Promise.all over the callbacks

    [messages.filter(...).map(async (m) => ...)] calls the callbacks one
    after the other; each runs until its first [await] and is resumed
    later, in an order that the network decides.  A callback touches the
    world in two places only: when it enters a round of the attachment
    loop ([fs.existsSync] and the start of the fetch, in
    [mirrorToLocal]), and when it writes the file.  Between the two,
    and after each, other callbacks can run. *)

(** [mirrorToLocal] up to its last suspension: the file was there, or
    the body has been read and is about to be written. *)
Inductive Started :=
| AlreadyMirrored (ref : str)
| Downloaded (localName buf : str).

Definition mirrorStart (P : Platform)
    (url : option str) (messageId : str) (filename : option str) : Eff Started :=
  let* source := lift (nameSource url filename) in
  let baseName := safeFilename source in
  let localName := localNameOf messageId baseName in
  let localPath := localPathOf P localName in
  let* mirrored := existsSync localPath in
  if mirrored then ret (AlreadyMirrored (localRef localName))
  else
    let* r := fetch P url in
    if negb (reply_ok r) then throw (MirrorFetchFailed (reply_status r))
    else
      let* buf := readBody r in
      ret (Downloaded localName buf).

(** The rest of [mirrorToLocal]. *)
Definition mirrorFinish (P : Platform) (localName buf : str) : Eff str :=
  let* _ := writeFileSync P (localPathOf P localName) buf in
  ret (localRef localName).

(** [ct] and [name] of the attachment loop. *)
Definition attType (a : Attachment) : str :=
  toLowerCase (orElse (att_content_type a) []).

Definition attName (a : Attachment) : str :=
  orElse (att_filename a) (lit "download").

(** A callback of the [map]: called and not yet run; suspended in
    [getMediaFromMessage] with the mirror of the attachment [cur]
    settled (it returned [localUrl], or it threw and [localUrl] is the
    original URL); suspended in [mirrorToLocal] before the write; or
    resolved, with its media. *)
Inductive Callback :=
| Called (m : Message)
| Settled (m : Message) (acc : MediaAcc) (cur : Attachment)
    (localUrl : option str) (rest : list Attachment)
| Downloading (m : Message) (acc : MediaAcc) (cur : Attachment)
    (localName buf : str) (rest : list Attachment)
| Resolved (m : Message) (media : list MediaItem).

(** [getMediaFromMessage] from the head of the attachment loop, with the
    attachments [rest] to go, up to the next suspension. *)
Definition enterLoop (P : Platform) (m : Message) (acc : MediaAcc)
    (rest : list Attachment) (st : State) : Callback * State :=
  match rest with
  | [] => (Resolved m (out (fold_left embedStep (orEmpty (msg_embeds m)) acc)), st)
  | a :: rest' =>
      match mirrorStart P (att_url a) (msg_id m) (Some (attName a)) st with
      | (Ok (AlreadyMirrored ref), st') => (Settled m acc a (Some ref) rest', st')
      | (Ok (Downloaded localName buf), st') =>
          (Downloading m acc a localName buf rest', st')
      | (Throw _, st') => (Settled m acc a (att_url a) rest', st')
      end
  end.

(** A callback runs from where it is to its next suspension. *)
Definition resumeCallback (P : Platform) (c : Callback) (st : State)
    : Callback * State :=
  match c with
  | Called m =>
      enterLoop P m {| out := []; seen := ∅ |} (orEmpty (msg_attachments m)) st
  | Settled m acc a localUrl rest =>
      enterLoop P m (addAttachment acc (att_url a) localUrl (attType a) (attName a))
        rest st
  | Downloading m acc a localName buf rest =>
      match mirrorFinish P localName buf st with
      | (Ok ref, st') => (Settled m acc a (Some ref) rest, st')
      | (Throw _, st') => (Settled m acc a (att_url a) rest, st')
      end
  | Resolved m media => (c, st)
  end.

(** The callback at index [i] is resumed. *)
Definition resumeAt (P : Platform) (i : nat) (cs : list Callback) (st : State)
    : list Callback * State :=
  match cs !! i with
  | Some c =>
      let '(c', st') := resumeCallback P c st in (<[i := c']> cs, st')
  | None => (cs, st)
  end.

Fixpoint resumeInOrder (P : Platform) (order : list nat) (cs : list Callback)
    (st : State) : list Callback * State :=
  match order with
  | [] => (cs, st)
  | i :: order' =>
      let '(cs', st') := resumeAt P i cs st in resumeInOrder P order' cs' st'
  end.

(** The number of resumptions a callback needs at most to get to its
    end. *)
Definition budget (c : Callback) : nat :=
  match c with
  | Called m => 2 * length (orEmpty (msg_attachments m)) + 1
  | Settled _ _ _ _ rest => 2 * length rest + 1
  | Downloading _ _ _ _ _ rest => 2 * length rest + 2
  | Resolved _ _ => 0
  end.

Fixpoint resumeTimes (P : Platform) (n : nat) (c : Callback) (st : State)
    : Callback * State :=
  match n with
  | O => (c, st)
  | S n' => let '(c', st') := resumeCallback P c st in resumeTimes P n' c' st'
  end.

(** A callback that can go on without an answer of the network. *)
Definition isReady (c : Callback) : bool :=
  match c with
  | Called _ | Settled _ _ _ _ _ => true
  | _ => false
  end.

Definition isDownloading (c : Callback) : bool :=
  match c with
  | Downloading _ _ _ _ _ _ => true
  | _ => false
  end.

(** The indices, from [i] on, of the callbacks that satisfy [f]. *)
Fixpoint indicesFrom (f : Callback -> bool) (i : nat) (cs : list Callback)
    : list nat :=
  match cs with
  | [] => []
  | c :: cs' => (if f c then [i] else []) ++ indicesFrom f (S i) cs'
  end.

(** What the event loop does next when the platform leaves the choice
    to it: the callbacks that can go on do so, in the order of their
    index; when none can, the first download is answered. *)
Definition nextStep (cs : list Callback) : list nat :=
  match indicesFrom isReady 0 cs with
  | [] => take 1 (indicesFrom isDownloading 0 cs)
  | ready => ready
  end.

Fixpoint resumePending (P : Platform) (fuel : nat) (cs : list Callback)
    (st : State) : list Callback * State :=
  match fuel with
  | O => (cs, st)
  | S fuel' =>
      let '(cs', st') := resumeInOrder P (nextStep cs) cs st in
      resumePending P fuel' cs' st'
  end.

Definition callbackMessage (c : Callback) : Message :=
  match c with
  | Called m => m
  | Settled m _ _ _ _ => m
  | Downloading m _ _ _ _ _ => m
  | Resolved m _ => m
  end.

Definition callbackMedia (c : Callback) : list MediaItem :=
  match c with
  | Resolved _ media => media
  | _ => []
  end.

(** The object a callback returns. *)
Definition announcementOf (c : Callback) : Announcement :=
  {| ann_id := msg_id (callbackMessage c);
     ann_content := trim (sanitizeContent (contentRaw (callbackMessage c)));
     ann_timestamp := msg_timestamp (callbackMessage c);
     ann_media := callbackMedia c |}.

(** [await Promise.all(messages.map(async (m) => ...))]: every callback
    is run to its first suspension, in the order of the messages; the
    suspended callbacks are resumed in the order the platform gives,
    which can be any order; those that are still pending after it are
    resumed as the event loop does with a network that answers in
    order, until all are through (the sum of their budgets is enough
    for that); the results come by index. *)
Definition promiseAll (P : Platform) (ms : list Message) : Eff (list Announcement) :=
  fun st =>
    let '(cs, st1) := resumeInOrder P (seq 0 (length ms)) (map Called ms) st in
    let '(cs', st2) := resumeInOrder P (resume_order P) cs st1 in
    let '(cs'', st3) := resumePending P (sum_list (map budget cs')) cs' st2 in
    (Ok (map announcementOf cs''), st3).

(** [GET /api/announcements]. *)
Definition getAnnouncements (P : Platform) (st : State) : Response * State :=
  match requireEnv P with
  | Some r => (r, st)
  | None =>
      let handler :=
        let* result := discordFetchJson P (messagesUrl P) in
        if negb (fj_ok result)
        then ret {| res_status := fj_status result; res_cache_control := None;
                    res_body := DiscordErrorBody (fj_status result) (fj_data result) |}
        else
          let messages :=
            match fj_data result with
            | Parsed (DArray ms) => ms
            | _ => []
            end in
          let* mapped := promiseAll P
                           (filter (fun m => keepMessage m = true) messages) in
          ret {| res_status := 200; res_cache_control := Some (lit "no-store");
                 res_body := AnnouncementsBody (cleaned mapped) |} in
      match handler st with
      | (Ok r, st') => (r, st')
      | (Throw e, st') =>
          ({| res_status := 500; res_cache_control := None;
              res_body := ServerErrorBody e |}, st')
      end
  end.

(** ** Sample platforms and inputs, for the examples below *)

(** [path.join] on a directory and a single segment. *)
Definition joinSegment (dir name : str) : str := dir ++ lit "/" ++ name.

(** A platform whose network is [net]: both settings present, every
    write succeeds, and [JSON.parse] is [parse]. *)
Definition samplePlatform (net : nat -> str -> fetch_outcome)
    (parse : str -> option jsdata) : Platform :=
  {| env_DISCORD_BOT_TOKEN := Some (lit "token");
     env_DISCORD_CHANNEL_ID := Some (lit "42");
     DOWNLOADS_DIR := lit "/srv/downloads";
     path_join := joinSegment;
     path_sep := "/";
     network := net;
     write_result := fun _ _ => Written;
     JSON_parse := parse;
     resume_order := [] |}.

(** The same, with the suspended callbacks resumed in the order
    [order]. *)
Definition scheduledPlatform (net : nat -> str -> fetch_outcome)
    (parse : str -> option jsdata) (order : list nat) : Platform :=
  {| env_DISCORD_BOT_TOKEN := Some (lit "token");
     env_DISCORD_CHANNEL_ID := Some (lit "42");
     DOWNLOADS_DIR := lit "/srv/downloads";
     path_join := joinSegment;
     path_sep := "/";
     network := net;
     write_result := fun _ _ => Written;
     JSON_parse := parse;
     resume_order := order |}.

(** Every fetch is answered with [status] and the body [body]. *)
Definition alwaysReply (status : Z) (body : str) : nat -> str -> fetch_outcome :=
  fun _ _ => Replied {| reply_status := status; reply_body := Some body |}.

Definition noParse : str -> option jsdata := fun _ => None.

Definition emptyState : State := {| files := ∅; fetched := [] |}.

Definition sampleUrl : str := lit "https://cdn.example/a/cat.png".

(** The state after [sampleUrl] was mirrored for message 1001. *)
Definition mirroredState : State :=
  {| files := {[ lit "/srv/downloads/1001-cat.png" := lit "PNG" ]};
     fetched := [sampleUrl] |}.

Definition noMedia : MediaAcc := {| out := []; seen := ∅ |}.

(** An attachment whose URL ends in [.gif], without a content type. *)
Definition gifAttachment : Attachment :=
  {| att_url := Some (lit "https://cdn.example/a/party.gif");
     att_content_type := None;
     att_filename := Some (lit "party.gif") |}.

(** An embed with a video and an image. *)
Definition videoEmbed : Embed :=
  {| emb_title := None; emb_description := None;
     emb_video := Some {| em_url := Some (lit "https://media.example/clip.mp4") |};
     emb_image := Some {| em_url := Some (lit "https://media.example/clip.png") |};
     emb_thumbnail := None |}.

(** An uploaded picture. *)
Definition pngAttachment : Attachment :=
  {| att_url := Some sampleUrl;
     att_content_type := Some (lit "image/png");
     att_filename := Some (lit "cat.png") |}.

(** A message that carries attachments only. *)
Definition attachmentMessage (id : str) (attachments : list Attachment) : Message :=
  {| msg_id := id; msg_type := Some 0; msg_content := None;
     msg_timestamp := None;
     msg_embeds := None; msg_attachments := Some attachments |}.

(** A plain text message. *)
Definition textMessage (id content : str) : Message :=
  {| msg_id := id; msg_type := Some 0; msg_content := Some content;
     msg_timestamp := Some (lit "2024-05-01T12:00:00.000000+00:00");
     msg_embeds := None; msg_attachments := None |}.

(** A message that carries embeds only. *)
Definition embedMessage (id : str) (embeds : list Embed) : Message :=
  {| msg_id := id; msg_type := Some 0; msg_content := None;
     msg_timestamp := None;
     msg_embeds := Some embeds; msg_attachments := None |}.

(** Twenty text messages, with the ids ["7"], ["77"], ... *)
Definition twentyMessages : list Message :=
  map (fun n => textMessage (replicate n "7"%char) (lit "hello")) (seq 1 20).

(** A URL that ends in [.gif], with or without a query string. *)
Definition endsInGif (url : str) : Prop :=
  exists base : str,
    url = base ++ lit ".gif" \/ exists query, url = base ++ lit ".gif?" ++ query.

(** [c] returns from every state: it never throws. *)
Definition total {A} (c : Eff A) : Prop :=
  forall st, exists a st', c st = (Ok a, st').

(** The messages the route works on, given the parsed body. *)
Definition messagesOf (d : jsdata) : list Message :=
  match d with
  | DArray ms => ms
  | _ => []
  end.

(** The state after the upstream call of [GET /api/announcements]. *)
Definition afterUpstream (P : Platform) (st : State) : State :=
  {| files := files st; fetched := fetched st ++ [messagesUrl P] |}.

(** The 200 answer of [GET /api/announcements]. *)
Definition feedResponse (anns : list Announcement) : Response :=
  {| res_status := 200; res_cache_control := Some (lit "no-store");
     res_body := AnnouncementsBody anns |}.

(** The announcements that survive, in the words of the specification:
    those whose content is empty and whose media list is empty are
    dropped. *)
Definition survivors (mapped : list Announcement) : list Announcement :=
  filter (fun a => ~ (ann_content a = [] /\ ann_media a = [])) mapped.

(** ** The CORS middleware *)

Definition allowedOrigins : gset (list ascii) :=
  {[ lit "https://socalalliance.org";
     lit "https://beta.socalalliance.org";
     lit "https://b1.socalalliance.org";
     lit "http://localhost:3000";
     lit "http://127.0.0.1:5500" ]}.

(** What the middleware reads of a request. *)
Record Request := {
  req_origin : option str;
  req_method : str }.

(** The first [app.use]: the headers it sets, and [Some 204] when it
    ends the request with [res.sendStatus(204)], [None] when it calls
    [next()]. *)
Definition corsMiddleware (req : Request)
    : gmap (list ascii) (list ascii) * option Z :=
  let origin := req_origin req in
  let h0 : gmap (list ascii) (list ascii) :=
    if truthy origin && bool_decide (toString origin ∈ allowedOrigins)
    then <[lit "Vary" := lit "Origin"]>
           (<[lit "Access-Control-Allow-Origin" := toString origin]> ∅)
    else ∅ in
  let h :=
    <[lit "Access-Control-Allow-Headers" := lit "Content-Type"]>
      (<[lit "Access-Control-Allow-Methods" := lit "GET,OPTIONS"]> h0) in
  (h, if str_eqb (req_method req) (lit "OPTIONS") then Some 204 else None).

(** ** The diagnostic route *)

Definition channelUrl (P : Platform) : str :=
  lit "https://discord.com/api/v10/channels/" ++ toString (DISCORD_CHANNEL_ID P).

(** What [GET /api/channel] sends: a failure, sent by [requireEnv] or for
    an upstream error, or with status 200 and [Cache-Control: no-store]
    the properties [id], [name], [type], [guild_id] and [last_message_id]
    read off [result.data || {}]; [None] stands for [{}].  Reading the
    five properties off a value that has none of them gives the same
    body as reading them off [{}]. *)
Inductive ChannelReply :=
| ChannelFailure (r : Response)
| ChannelInfo (c : option jsdata).

(** [GET /api/channel].  The handler has no [try]: a rejected fetch is
    a throw of the handler. *)
Definition getChannel (P : Platform) : Eff ChannelReply :=
  match requireEnv P with
  | Some r => ret (ChannelFailure r)
  | None =>
      let* result := discordFetchJson P (channelUrl P) in
      if negb (fj_ok result)
      then ret (ChannelFailure
                  {| res_status := fj_status result; res_cache_control := None;
                     res_body := DiscordErrorBody (fj_status result) (fj_data result) |})
      else
        ret (ChannelInfo
               match fj_data result with
               | Parsed DNull => None
               | Parsed d => Some d
               | NonJson _ => None
               end)
  end.

(** ** Notions used to state the further properties *)

(** An item of type [file] carries [name] and [contentType]; an item of
    another type carries neither. *)
Definition fileFieldsOk (i : MediaItem) : Prop :=
  match media_type i with
  | file => is_Some (media_name i) /\ is_Some (media_contentType i)
  | _ => media_name i = None /\ media_contentType i = None
  end.

(** The list [out] and the set [seen] agree, no URL is listed twice, no
    URL is empty, and the fields of every item fit its type. *)
Definition accOk (acc : MediaAcc) : Prop :=
  (forall u, u ∈ seen acc <-> u ∈ media_url <$> out acc) /\
  NoDup (media_url <$> out acc) /\
  Forall (fun i => media_url i <> [] /\ fileFieldsOk i) (out acc).

(** From [acc] to [acc']: the invariant is kept, the list is extended at
    its end, by one item at most. *)
Definition advances (acc acc' : MediaAcc) : Prop :=
  (accOk acc -> accOk acc') /\
  out acc `prefix_of` out acc' /\
  (length (out acc') <= S (length (out acc)))%nat.

(** A message without its embeds. *)
Definition withoutEmbeds (m : Message) : Message :=
  {| msg_id := msg_id m; msg_type := msg_type m; msg_content := msg_content m;
     msg_timestamp := msg_timestamp m; msg_embeds := None;
     msg_attachments := msg_attachments m |}.

(** Every file of [st] is in [st'] with the same content. *)
Definition filesKept (st st' : State) : Prop :=
  forall p c, files st !! p = Some c -> files st' !! p = Some c.

(** The number of attachments of a list of messages. *)
Definition attachmentCount (ms : list Message) : nat :=
  sum_list (map (fun m => length (orEmpty (msg_attachments m))) ms).

(** [u] is the URL of an attachment of one of the messages. *)
Definition attachmentUrlOf (ms : list Message) (u : str) : Prop :=
  exists m a, m ∈ ms /\ a ∈ orEmpty (msg_attachments m) /\ att_url a = Some u.

(** What the route knows of an announcement built from a message. *)
Definition builtFrom (m : Message) (a : Announcement) : Prop :=
  ann_id a = msg_id m /\
  ann_content a = trim (sanitizeContent (contentRaw m)) /\
  ann_timestamp a = msg_timestamp m /\
  NoDup (map media_url (ann_media a)) /\
  (length (ann_media a) <= length (orEmpty (msg_attachments m))
                           + length (orEmpty (msg_embeds m)))%nat.

(** *** The callbacks of the route *)

(** The URL an attachment is listed under once its mirror is settled:
    its original URL, or its local reference. *)
Definition settledUrl (m : Message) (a : Attachment) (localUrl : option str) : Prop :=
  localUrl = att_url a \/
  localUrl = Some (localRef (localNameOf (msg_id m) (safeFilename (attName a)))).

(** The attachment loop, given the URL each attachment is listed under. *)
Definition addAttachments (acc : MediaAcc)
    (settled : list (Attachment * option str)) : MediaAcc :=
  fold_left
    (fun acc s => addAttachment acc (att_url s.1) s.2 (attType s.1) (attName s.1))
    settled acc.

(** The media of a message, given the URL each attachment is listed
    under: the attachments, then the embeds. *)
Definition mediaWith (m : Message) (localUrls : list (option str)) : list MediaItem :=
  out (fold_left embedStep (orEmpty (msg_embeds m))
         (addAttachments {| out := []; seen := ∅ |}
            (zip (orEmpty (msg_attachments m)) localUrls))).

(** The candidate announcement of a message with its attachments listed
    under [localUrls]. *)
Definition announcementWith (m : Message) (localUrls : list (option str))
    : Announcement :=
  {| ann_id := msg_id m;
     ann_content := trim (sanitizeContent (contentRaw m));
     ann_timestamp := msg_timestamp m;
     ann_media := mediaWith m localUrls |}.

(** [a] is a candidate announcement of [m]: the id and the time stamp
    are copied, the content is sanitized and trimmed, and the media are
    gathered with every attachment under its local reference or under
    its original URL. *)
Definition candidate (m : Message) (a : Announcement) : Prop :=
  exists localUrls : list (option str),
    Forall2 (settledUrl m) (orEmpty (msg_attachments m)) localUrls /\
    a = announcementWith m localUrls.

(** The announcement of a message with every attachment under its
    original URL. *)
Definition remoteAnnouncement (m : Message) : Announcement :=
  announcementWith m (map att_url (orEmpty (msg_attachments m))).

(** A fetch of index [base] or later is answered with a success status. *)
Definition fetchOkFrom (P : Platform) (base : nat) : Prop :=
  exists (n : nat) (u : str) (r : HttpReply),
    (base <= n)%nat /\ network P n u = Replied r /\ reply_ok r = true.

(** [settledUrl], with the reason for a local reference: the file was on
    disk when the request came in, or a fetch of the request was
    answered with a success status. *)
Definition settledBy (P : Platform) (F0 : gmap (list ascii) (list ascii))
    (base : nat) (m : Message) (a : Attachment) (localUrl : option str) : Prop :=
  localUrl = att_url a \/
  (localUrl = Some (localRef (localNameOf (msg_id m) (safeFilename (attName a)))) /\
   (is_Some (F0 !! localPathOf P (localNameOf (msg_id m) (safeFilename (attName a))))
    \/ fetchOkFrom P base)).

(** The attachments [done] of [m] are through the loop, listed under the
    URLs that made [acc]. *)
Definition loopedOver (P : Platform) (F0 : gmap (list ascii) (list ascii))
    (base : nat) (m : Message) (done : list Attachment) (acc : MediaAcc) : Prop :=
  exists localUrls : list (option str),
    Forall2 (settledBy P F0 base m) done localUrls /\
    acc = addAttachments {| out := []; seen := ∅ |} (zip done localUrls).

(** What holds of the callback of the message [m] wherever it stands,
    in a request that found the files [F0] and had made [base] fetches
    when the callbacks were called. *)
Definition callbackInv (P : Platform) (F0 : gmap (list ascii) (list ascii))
    (base : nat) (m : Message) (c : Callback) : Prop :=
  match c with
  | Called m' => m' = m
  | Settled m' acc a localUrl rest =>
      m' = m /\ settledBy P F0 base m a localUrl /\
      exists done, orEmpty (msg_attachments m) = done ++ a :: rest /\
                   loopedOver P F0 base m done acc
  | Downloading m' acc a localName buf rest =>
      m' = m /\
      localName = localNameOf (msg_id m) (safeFilename (attName a)) /\
      F0 !! localPathOf P localName = None /\
      fetchOkFrom P base /\
      exists done, orEmpty (msg_attachments m) = done ++ a :: rest /\
                   loopedOver P F0 base m done acc
  | Resolved m' media =>
      m' = m /\
      exists localUrls : list (option str),
        Forall2 (settledBy P F0 base m) (orEmpty (msg_attachments m)) localUrls /\
        media = mediaWith m localUrls
  end.

Definition isResolved (c : Callback) : bool :=
  match c with
  | Resolved _ _ => true
  | _ => false
  end.

(** [candidate], with the reasons for the local references. *)
Definition candidateBy (P : Platform) (F0 : gmap (list ascii) (list ascii))
    (base : nat) (m : Message) (a : Announcement) : Prop :=
  exists localUrls : list (option str),
    Forall2 (settledBy P F0 base m) (orEmpty (msg_attachments m)) localUrls /\
    a = announcementWith m localUrls.

(** The rounds of the attachment loop a callback has still to enter. *)
Definition remaining (c : Callback) : nat :=
  match c with
  | Called m => length (orEmpty (msg_attachments m))
  | Settled _ _ _ _ rest => length rest
  | Downloading _ _ _ _ _ rest => length rest
  | Resolved _ _ => O
  end.

(** What holds of the world while the callbacks of the messages [ms]
    run, in a request that started them in the state [st0]: the files
    of [st0] are kept, a file that was not there comes from a fetch
    answered with a success status, and the fetches made since are of
    attachment URLs, one for a round of a loop at most. *)
Definition worldInv (P : Platform) (st0 : State) (ms : list Message)
    (cs : list Callback) (st : State) : Prop :=
  Forall2 (callbackInv P (files st0) (length (fetched st0))) ms cs /\
  filesKept st0 st /\
  (forall p, is_Some (files st !! p) ->
             is_Some (files st0 !! p) \/ fetchOkFrom P (length (fetched st0))) /\
  exists extra : list (list ascii),
    fetched st = fetched st0 ++ extra /\
    Forall (attachmentUrlOf ms) extra /\
    (length extra + sum_list (map remaining cs) <= attachmentCount ms)%nat.


(** * Properties *)

(** A decidable proposition is settled by evaluating its decision. *)
Ltac by_compute :=
  match goal with
  | |- ?G => refine (bool_decide_unpack G _); vm_compute; exact I
  end.

(** ** Code units and lists *)

Lemma ch_eqb_eq (a b : ascii) : ch_eqb a b = true <-> a = b.
Proof. apply Ascii.eqb_eq. Qed.

Lemma ch_eqb_refl (a : ascii) : ch_eqb a a = true.
Proof. apply Ascii.eqb_refl. Qed.

(** A list is split in one way only around the first occurrence of [x]. *)
Lemma app_sep_inj {A} (x : A) (l1 l2 r1 r2 : list A) :
  x ∉ l1 -> x ∉ l2 -> l1 ++ x :: r1 = l2 ++ x :: r2 -> l1 = l2 /\ r1 = r2.
Proof.
  revert l2. induction l1 as [|a l1 IH]; intros [|b l2] H1 H2 E; simpl in E.
  - by inversion E.
  - inversion E; subst. exfalso. apply H2. left.
  - inversion E; subst. exfalso. apply H1. left.
  - inversion E; subst.
    destruct (IH l2) as [-> ->]; auto.
    + intros ?. apply H1. by right.
    + intros ?. apply H2. by right.
Qed.

(** ** Global replacement *)

Section Replace.
Variable m : matcher.
Variable rep : list ascii.

(** Skipping the code units of a match. *)
Lemma replaceFrom_skip (x s : list ascii) :
  m [] = None ->
  replaceFrom m rep (length x) (x ++ s) = replaceFrom m rep 0 s.
Proof.
  intros Hnil. induction x as [|c x IH]; simpl; [|exact IH].
  destruct s; reflexivity.
Qed.

(** What a replacement keeps or inserts satisfies [Q] when the
    replacement text does and the kept code units do. *)
Lemma replaceFrom_Forall (Q : ascii -> Prop) (s : list ascii) :
  Forall Q rep ->
  (forall c r, m (c :: r) = None \/ m (c :: r) = Some O -> Q c) ->
  forall k, Forall Q (replaceFrom m rep k s).
Proof.
  intros Hrep Hkeep. induction s as [|c r IH]; intros k; simpl.
  - destruct k; [destruct (m [])|]; auto.
  - destruct k as [|k]; [|apply IH].
    destruct (m (c :: r)) as [[|n]|] eqn:E.
    + apply Forall_app. split; [done|]. constructor; [|apply IH].
      eapply Hkeep. right. exact E.
    + apply Forall_app. split; [done|apply IH].
    + constructor; [|apply IH]. eapply Hkeep. left. exact E.
Qed.

(** A replacement by the empty text keeps a part of its input. *)
Lemma replaceFrom_Forall_input (Q : ascii -> Prop) (s : list ascii) :
  rep = [] -> Forall Q s -> forall k, Forall Q (replaceFrom m rep k s).
Proof.
  intros ->. induction 1 as [|c r Hc Hr IH]; intros k; simpl.
  - destruct k; [destruct (m [])|]; auto.
  - destruct k as [|k]; [|apply IH].
    destruct (m (c :: r)) as [[|n]|]; simpl; auto.
Qed.

Lemma replaceFrom_app (a b : list ascii) :
  stable_before m b ->
  forall k, (k <= length a)%nat ->
  replaceFrom m rep k (a ++ b) = replaceFrom m rep k a ++ replaceFrom m rep 0 b.
Proof.
  intros [Hnil Hst]. induction a as [|c a IH]; intros k Hk.
  - simpl in Hk. assert (k = 0%nat) as -> by lia. simpl. by rewrite Hnil.
  - destruct k as [|k]; [|simpl; apply IH; simpl in Hk; lia].
    destruct (Hst c a) as [E Hlen].
    change (replaceFrom m rep 0 ((c :: a) ++ b)) with
      (match m ((c :: a) ++ b) with
       | Some (S k) => rep ++ replaceFrom m rep k (a ++ b)
       | Some O => rep ++ c :: replaceFrom m rep 0 (a ++ b)
       | None => c :: replaceFrom m rep 0 (a ++ b)
       end).
    change (replaceFrom m rep 0 (c :: a)) with
      (match m (c :: a) with
       | Some (S k) => rep ++ replaceFrom m rep k a
       | Some O => rep ++ c :: replaceFrom m rep 0 a
       | None => c :: replaceFrom m rep 0 a
       end).
    rewrite E. destruct (m (c :: a)) as [[|n]|] eqn:Em.
    + rewrite IH by lia. by rewrite <- app_assoc.
    + rewrite IH; [by rewrite <- app_assoc|].
      specialize (Hlen _ eq_refl). simpl in Hlen. lia.
    + rewrite IH by lia. reflexivity.
Qed.

Lemma replaceAll_app (a b : list ascii) :
  stable_before m b ->
  replaceAll m rep (a ++ b) = replaceAll m rep a ++ replaceAll m rep b.
Proof. intros H. apply replaceFrom_app; [done|lia]. Qed.
End Replace.

(** ** safeFilename *)

Lemma spanLength_le (f : ascii -> bool) (s : list ascii) :
  (spanLength f s <= length s)%nat.
Proof. induction s as [|c r IH]; simpl; [lia|]. destruct (f c); simpl; lia. Qed.

Lemma matchUnsafeRun_None (c : ascii) (r : list ascii) :
  matchUnsafeRun (c :: r) = None \/ matchUnsafeRun (c :: r) = Some O ->
  isSafeChar c = true.
Proof.
  unfold matchUnsafeRun. simpl. destruct (isSafeChar c); [done|].
  simpl. intros [?|?]; discriminate.
Qed.

Lemma underscore_safe : isSafeChar "_" = true.
Proof. reflexivity. Qed.

Lemma safeFilename_safe (name : list ascii) :
  Forall (fun c => isSafeChar c = true) (safeFilename name).
Proof.
  unfold safeFilename, trimUnderscores, replaceAll.
  apply Forall_take, replaceFrom_Forall_input; [done|].
  apply Forall_drop, replaceFrom_Forall.
  - repeat constructor.
  - apply matchUnsafeRun_None.
Qed.

Lemma safeFilename_length (name : list ascii) :
  (length (safeFilename name) <= 180)%nat.
Proof. unfold safeFilename. rewrite length_take. lia. Qed.

Example safeFilename_spaces :
  safeFilename (lit "__my cat (1)//x??.png__") = lit "my_cat_1_x_.png".
Proof. reflexivity. Qed.

Example safeFilename_nothing_left : safeFilename (lit "???") = [].
Proof. reflexivity. Qed.

Example lastSegment_of_url :
  lastSegment (lit "https://cdn.example/a/cat.png") = lit "cat.png".
Proof. reflexivity. Qed.

Example image_extension_with_query :
  test imageExtensionAt (lit "https://cdn.example/a/cat.JPeG?width=10") = true /\
  test imageExtensionAt (lit "https://cdn.example/a/cat.jpegx") = false.
Proof. split; reflexivity. Qed.

(** ** mirrorToLocal *)

Section Mirror.
Variable P : Platform.

Local Abbreviation pathOf messageId source :=
  (localPathOf P (localNameOf messageId (safeFilename source))).

(** Already mirrored: the reference is returned and nothing happens. *)
Lemma mirrorToLocal_hit url messageId filename source st :
  nameSource url filename = Ok source ->
  is_Some (files st !! pathOf messageId source) ->
  mirrorToLocal P url messageId filename st =
    (Ok (localRef (localNameOf messageId (safeFilename source))), st).
Proof.
  intros Hsrc Hex. unfold mirrorToLocal, bind, lift, existsSync.
  rewrite Hsrc.
  by rewrite bool_decide_eq_true_2.
Qed.

(** Not mirrored yet: one fetch, and on a success status the body is
    written at the local path. *)
Lemma mirrorToLocal_miss (url : list ascii) messageId filename source st r buf :
  nameSource (Some url) filename = Ok source ->
  files st !! pathOf messageId source = None ->
  network P (length (fetched st)) url = Replied r ->
  reply_ok r = true ->
  reply_body r = Some buf ->
  write_result P (pathOf messageId source) buf = Written ->
  mirrorToLocal P (Some url) messageId filename st =
    (Ok (localRef (localNameOf messageId (safeFilename source))),
     {| files := <[pathOf messageId source := buf]> (files st);
        fetched := fetched st ++ [url] |}).
Proof.
  intros Hsrc Hno Hnet Hok Hbody Hw.
  unfold mirrorToLocal, bind, lift, existsSync, fetch, readBody, writeFileSync.
  rewrite Hsrc.
  rewrite bool_decide_eq_false_2 by (rewrite Hno; by intros [? ?]).
  rewrite Hnet, Hok. simpl. rewrite Hbody. unfold ret. simpl.
  by rewrite Hw.
Qed.

(** [mirrorToLocal] is its first part, up to the last suspension,
    followed by the write. *)
Lemma mirrorToLocal_parts url messageId filename st :
  mirrorToLocal P url messageId filename st =
    match mirrorStart P url messageId filename st with
    | (Ok (AlreadyMirrored ref), st') => (Ok ref, st')
    | (Ok (Downloaded localName buf), st') => mirrorFinish P localName buf st'
    | (Throw e, st') => (Throw e, st')
    end.
Proof.
  unfold mirrorToLocal, mirrorStart, mirrorFinish, bind, lift, existsSync, ret, throw.
  destruct (nameSource url filename) as [source|e]; [|done].
  case_bool_decide; [done|].
  destruct (fetch P url st) as [[r|e] st1]; [|done].
  destruct (reply_ok r); simpl; [|done].
  unfold readBody. by destruct (reply_body r).
Qed.

(** The ways the first part can go. *)
Lemma mirrorStart_cases url messageId filename source st :
  nameSource url filename = Ok source ->
  (is_Some (files st !! pathOf messageId source) /\
   mirrorStart P url messageId filename st =
     (Ok (AlreadyMirrored (localRef (localNameOf messageId (safeFilename source)))), st))
  \/ (files st !! pathOf messageId source = None /\
      ((url = None /\ mirrorStart P url messageId filename st = (Throw TypeError, st))
       \/ exists u, url = Some u /\
            ((exists e, mirrorStart P url messageId filename st =
                 (Throw e, {| files := files st; fetched := fetched st ++ [u] |}))
             \/ (exists r buf,
                   network P (length (fetched st)) u = Replied r /\
                   reply_ok r = true /\ reply_body r = Some buf /\
                   mirrorStart P url messageId filename st =
                     (Ok (Downloaded (localNameOf messageId (safeFilename source)) buf),
                      {| files := files st; fetched := fetched st ++ [u] |}))))).
Proof.
  intros Hsrc. unfold mirrorStart, bind, lift, existsSync, fetch, readBody, ret, throw.
  rewrite Hsrc.
  destruct (files st !! pathOf messageId source) as [old|] eqn:Hfile.
  - left. split; [eauto|]. rewrite bool_decide_eq_true_2 by eauto. done.
  - right. split; [done|].
    rewrite bool_decide_eq_false_2 by (by intros [? ?]).
    destruct url as [u|]; [right; exists u; split; [done|]|left; done].
    destruct (network P (length (fetched st)) u) as [|r] eqn:Hnet; [left; eauto|].
    destruct (reply_ok r) eqn:Hok; simpl; [|left; eauto].
    destruct (reply_body r) as [buf|] eqn:Hbody; [|left; eauto].
    right. exists r, buf. auto.
Qed.

(** The ways the write can go. *)
Lemma mirrorFinish_cases localName buf st :
  match write_result P (localPathOf P localName) buf with
  | Written =>
      mirrorFinish P localName buf st =
        (Ok (localRef localName),
         {| files := <[localPathOf P localName := buf]> (files st);
            fetched := fetched st |})
  | WriteThrows None => mirrorFinish P localName buf st = (Throw WriteFailed, st)
  | WriteThrows (Some part) =>
      mirrorFinish P localName buf st =
        (Throw WriteFailed,
         {| files := <[localPathOf P localName := part]> (files st);
            fetched := fetched st |})
  end.
Proof.
  unfold mirrorFinish, bind, writeFileSync, ret.
  by destruct (write_result P (localPathOf P localName) buf) as [|[part|]].
Qed.

(** Whenever a reference is returned it is the local one, and the file
    is on disk afterwards. *)
Lemma mirrorToLocal_Ok_inv url messageId filename st ref st' :
  mirrorToLocal P url messageId filename st = (Ok ref, st') ->
  exists source,
    nameSource url filename = Ok source /\
    ref = localRef (localNameOf messageId (safeFilename source)) /\
    is_Some (files st' !! pathOf messageId source) /\
    ((is_Some (files st !! pathOf messageId source) /\ st' = st) \/
     (files st !! pathOf messageId source = None /\
      exists u buf, url = Some u /\
        st' = {| files := <[pathOf messageId source := buf]> (files st);
                 fetched := fetched st ++ [u] |})).
Proof.
  rewrite mirrorToLocal_parts.
  destruct (nameSource url filename) as [source|e] eqn:Hsrc.
  2:{ unfold mirrorStart, bind, lift. rewrite Hsrc. discriminate. }
  destruct (mirrorStart_cases url messageId filename source st Hsrc)
    as [[Hex ->]|[Hno [[-> ->]|(u & -> & [[e ->]|(r & buf & _ & _ & _ & ->)])]]];
    try discriminate.
  - intros [= <- <-]. exists source.
    split; [done|]. split; [done|]. split; [done|]. left. done.
  - pose proof (mirrorFinish_cases (localNameOf messageId (safeFilename source)) buf
                  {| files := files st; fetched := fetched st ++ [u] |}) as Hw.
    destruct (write_result P _ buf) as [|[part|]]; rewrite Hw; try discriminate.
    intros [= <- <-]. exists source. simpl.
    split; [done|]. split; [done|]. split; [rewrite lookup_insert_eq; eauto|].
    right. eauto.
Qed.
End Mirror.

Lemma not_separator_safe (P : Platform) (c : ascii) :
  path_sep P = "/"%char \/ path_sep P = "\"%char ->
  isSafeChar c = true -> isPathSeparator P c = false.
Proof.
  intros Hsep Hc. unfold isPathSeparator.
  destruct (ch_eqb c "/") eqn:E1.
  { apply ch_eqb_eq in E1. subst c. discriminate. }
  destruct (ch_eqb c (path_sep P)) eqn:E2; [|done].
  apply ch_eqb_eq in E2. subst c. destruct Hsep as [H|H]; rewrite H in Hc; discriminate.
Qed.

(** A local name whose message id holds no separator is a single
    segment: it joins directly under the mirror directory. *)
Lemma localPathOf_inside (P : Platform) (messageId base : list ascii) :
  pathContract P ->
  Forall (fun c => isPathSeparator P c = false) messageId ->
  Forall (fun c => isSafeChar c = true) base ->
  Forall (fun c => isPathSeparator P c = false) (localNameOf messageId base) /\
  localPathOf P (localNameOf messageId base)
  = DOWNLOADS_DIR P ++ path_sep P :: localNameOf messageId base.
Proof.
  intros [Hsep Hjoin] Hid Hbase.
  assert (Forall (fun c => isPathSeparator P c = false) (localNameOf messageId base))
    as Hname.
  { unfold localNameOf. apply Forall_app. split; [done|].
    apply Forall_app. split.
    - repeat constructor. by apply not_separator_safe.
    - eapply Forall_impl; [exact Hbase|]. intros c. by apply not_separator_safe. }
  split; [exact Hname|].
  assert ("-"%char ∈ localNameOf messageId base) as Hdash.
  { unfold localNameOf. apply elem_of_app. right. left. }
  apply Hjoin; [done| | |]; intros E; rewrite E in Hdash.
  - by apply elem_of_nil in Hdash.
  - revert Hdash. by_compute.
  - revert Hdash. by_compute.
Qed.

(** C10. When the message id contains no path separator, every
    reference that [mirrorToLocal] returns, on the short-circuit as on a
    fresh write, is ["/downloads/"], the message id, ["-"] and a name of
    at most 180 code units, all in [[A-Za-z0-9._-]]; what follows
    ["/downloads/"] holds no ["/"] and no other separator; and the file
    that was found, or that the call created, is the one of that name
    directly inside the mirror directory: its path is the directory, one
    separator, and the name.  Nothing else has changed on disk. *)
Theorem mirrorToLocal_reference (P : Platform) (url : option (list ascii))
    (messageId : list ascii) (filename : option (list ascii))
    (st st' : State) (ref : list ascii) :
  pathContract P ->
  Forall (fun c => isPathSeparator P c = false) messageId ->
  mirrorToLocal P url messageId filename st = (Ok ref, st') ->
  exists base : list ascii,
    ref = lit "/downloads/" ++ messageId ++ lit "-" ++ base /\
    Forall (fun c => isSafeChar c = true) base /\
    (length base <= 180)%nat /\
    ("/"%char ∉ messageId ++ lit "-" ++ base) /\
    Forall (fun c => isPathSeparator P c = false) (messageId ++ lit "-" ++ base) /\
    localPathOf P (messageId ++ lit "-" ++ base)
      = DOWNLOADS_DIR P ++ path_sep P :: messageId ++ lit "-" ++ base /\
    is_Some (files st' !! (DOWNLOADS_DIR P ++ path_sep P :: messageId ++ lit "-" ++ base)) /\
    ((is_Some (files st !! (DOWNLOADS_DIR P ++ path_sep P :: messageId ++ lit "-" ++ base))
      /\ st' = st)
     \/ (files st !! (DOWNLOADS_DIR P ++ path_sep P :: messageId ++ lit "-" ++ base) = None /\
         exists u buf, url = Some u /\
           st' = {| files := <[DOWNLOADS_DIR P ++ path_sep P :: messageId ++ lit "-" ++ base
                              := buf]> (files st);
                    fetched := fetched st ++ [u] |})).
Proof.
  intros Hpath Hid Hrun.
  apply mirrorToLocal_Ok_inv in Hrun.
  destruct Hrun as (source & Hsrc & -> & Hfile & Hst).
  destruct (localPathOf_inside P messageId (safeFilename source) Hpath Hid
              (safeFilename_safe source)) as [Hname Hinside].
  exists (safeFilename source). split; [reflexivity|].
  split; [apply safeFilename_safe|]. split; [apply safeFilename_length|].
  fold (localNameOf messageId (safeFilename source)).
  split.
  { intros Hin. rewrite Forall_forall in Hname. specialize (Hname _ Hin).
    unfold isPathSeparator in Hname. discriminate. }
  split; [exact Hname|]. split; [exact Hinside|].
  rewrite <- Hinside. split; [exact Hfile|exact Hst].
Qed.

Lemma mirrorToLocal_reference_witness :
  exists base : list ascii,
    lit "/downloads/1001-cat_1_.png" = lit "/downloads/" ++ lit "1001" ++ lit "-" ++ base /\
    Forall (fun c => isSafeChar c = true) base /\
    (length base <= 180)%nat /\
    is_Some ((<[lit "/srv/downloads/1001-cat_1_.png" := lit "PNG"]> ∅ : gmap _ _)
               !! (lit "/srv/downloads" ++ "/"%char :: lit "1001" ++ lit "-" ++ base)).
Proof.
  destruct (mirrorToLocal_reference
              (samplePlatform (alwaysReply 200 (lit "PNG")) noParse)
              (Some (lit "https://cdn.example/a/cat (1).png")) (lit "1001")
              (Some (lit "cat (1).png")) emptyState
              {| files := <[lit "/srv/downloads/1001-cat_1_.png" := lit "PNG"]> ∅;
                 fetched := [lit "https://cdn.example/a/cat (1).png"] |}
              (lit "/downloads/1001-cat_1_.png"))
    as (base & H1 & H2 & H3 & _ & _ & _ & H4 & _).
  - split; [by left|]. intros name _ _ _ _. reflexivity.
  - by_compute.
  - vm_compute. reflexivity.
  - exists base. auto.
Defined.

(** C1, amended. When a call of [mirrorToLocal] returns a reference, the
    next call with the same URL, message id and file name returns the
    same reference and leaves the world as it is: no fetch is made and no
    file is written, because the file is found at the local path.  The
    two calls together have made one fetch at most. *)
Theorem mirrorToLocal_idempotent (P : Platform) (url : option (list ascii))
    (messageId : list ascii) (filename : option (list ascii))
    (st st1 : State) (ref : list ascii) :
  mirrorToLocal P url messageId filename st = (Ok ref, st1) ->
  is_Some (files st1 !! localPathOf P (drop (length (lit "/downloads/")) ref)) /\
  mirrorToLocal P url messageId filename st1 = (Ok ref, st1) /\
  (fetched st1 = fetched st \/
   exists u, url = Some u /\ fetched st1 = fetched st ++ [u]).
Proof.
  intros Hrun. apply mirrorToLocal_Ok_inv in Hrun.
  destruct Hrun as (source & Hsrc & -> & Hfile & Hst).
  split; [exact Hfile|]. split; [by apply mirrorToLocal_hit|].
  destruct Hst as [[_ ->]|(_ & u & buf & -> & ->)]; [by left|right; eauto].
Qed.

Lemma mirrorToLocal_idempotent_witness :
  mirrorToLocal (samplePlatform (alwaysReply 200 (lit "PNG")) noParse)
    (Some sampleUrl) (lit "1001") (Some (lit "cat.png")) emptyState
    = (Ok (lit "/downloads/1001-cat.png"), mirroredState) /\
  mirrorToLocal (samplePlatform (alwaysReply 200 (lit "PNG")) noParse)
    (Some sampleUrl) (lit "1001") (Some (lit "cat.png")) mirroredState
    = (Ok (lit "/downloads/1001-cat.png"), mirroredState).
Proof.
  assert (mirrorToLocal (samplePlatform (alwaysReply 200 (lit "PNG")) noParse)
            (Some sampleUrl) (lit "1001") (Some (lit "cat.png")) emptyState
          = (Ok (lit "/downloads/1001-cat.png"), mirroredState))
    as Hfirst by (vm_compute; reflexivity).
  split; [exact Hfirst|].
  exact (proj1 (proj2 (mirrorToLocal_idempotent _ _ _ _ _ _ _ Hfirst))).
Defined.

(** C1 as stated fails when the first call fails: with a remote that
    answers 404 both calls throw, no reference is returned, and the
    second call fetches again. *)
Lemma mirrorToLocal_fetches_again_after_failure :
  mirrorToLocal (samplePlatform (alwaysReply 404 (lit "gone")) noParse)
    (Some sampleUrl) (lit "1001") (Some (lit "cat.png")) emptyState
    = (Throw (MirrorFetchFailed 404), {| files := ∅; fetched := [sampleUrl] |}) /\
  mirrorToLocal (samplePlatform (alwaysReply 404 (lit "gone")) noParse)
    (Some sampleUrl) (lit "1001") (Some (lit "cat.png"))
    {| files := ∅; fetched := [sampleUrl] |}
    = (Throw (MirrorFetchFailed 404),
       {| files := ∅; fetched := [sampleUrl; sampleUrl] |}).
Proof. split; vm_compute; reflexivity. Qed.

(** C8, amended. Two attachments of distinct message ids get distinct
    local names when neither id contains ["-"] (Discord's ids are decimal
    numerals), and in any case when their sanitized file names are the
    same. *)
Theorem localName_collision_free (id1 id2 name1 name2 : list ascii) :
  id1 <> id2 ->
  (("-"%char ∉ id1) /\ ("-"%char ∉ id2)) \/ safeFilename name1 = safeFilename name2 ->
  localNameOf id1 (safeFilename name1) <> localNameOf id2 (safeFilename name2).
Proof.
  intros Hne Hcase E. unfold localNameOf in E. apply Hne.
  destruct Hcase as [[H1 H2]|Hsame].
  - by destruct (app_sep_inj "-"%char id1 id2 _ _ H1 H2 E).
  - rewrite Hsame in E. by apply app_inv_tail in E.
Qed.

Lemma localName_collision_free_witness :
  localNameOf (lit "1001") (safeFilename (lit "cat.png"))
  <> localNameOf (lit "1002") (safeFilename (lit "cat.png")).
Proof.
  apply localName_collision_free.
  - discriminate.
  - right. reflexivity.
Defined.

(** C8 as stated fails for ids that contain ["-"]: the id ["1"] with the
    file ["2-a.png"] and the id ["1-2"] with the file ["a.png"] share the
    local name ["1-2-a.png"]. *)
Lemma localName_collision :
  lit "1" <> lit "1-2" /\
  localNameOf (lit "1") (safeFilename (lit "2-a.png"))
  = localNameOf (lit "1-2") (safeFilename (lit "a.png")).
Proof. split; [discriminate|reflexivity]. Qed.

(** ** sanitizeContent *)

Lemma spanLength_app_stop (f : ascii -> bool) (r : list ascii) (x : ascii) (b : list ascii) :
  f x = false -> spanLength f (r ++ x :: b) = spanLength f r.
Proof.
  intros Hx. induction r as [|c r IH]; simpl; [by rewrite Hx|].
  destruct (f c); congruence.
Qed.

Lemma spanLength_all (f : ascii -> bool) (d : list ascii) (x : ascii) (b : list ascii) :
  forallb f d = true -> f x = false -> spanLength f (d ++ x :: b) = length d.
Proof.
  intros Hd Hx. rewrite spanLength_app_stop by done.
  induction d as [|c d IH]; simpl in *; [done|].
  apply andb_prop in Hd as [-> Hd]. by rewrite IH.
Qed.

Lemma drop_cons_lt {A} (i : nat) (l : list A) (c : A) (t : list A) :
  drop i l = c :: t -> (i < length l)%nat.
Proof.
  intros E. assert (length (drop i l) = S (length t)) as H by (by rewrite E).
  rewrite length_drop in H. lia.
Qed.

(** Text after the digits does not matter when it starts with a code unit
    that is neither a digit nor [">"]. *)
Lemma digitsThenGt_app (k : nat) (r : list ascii) (x : ascii) (b : list ascii) :
  isDigit x = false -> x <> ">"%char ->
  digitsThenGt k (r ++ x :: b) = digitsThenGt k r.
Proof.
  intros Hd Hgt. unfold digitsThenGt. rewrite spanLength_app_stop by done.
  destruct (spanLength isDigit r) as [|n] eqn:Hn; [done|].
  pose proof (spanLength_le isDigit r) as Hle. rewrite Hn in Hle.
  rewrite drop_app.
  destruct (drop (S n) r) as [|c t] eqn:Hdrop; simpl; [|done].
  assert (length r <= S n)%nat as Hge.
  { destruct (decide (length r <= S n)%nat) as [|Hlt]; [done|].
    assert (length (drop (S n) r) = 0%nat) as H0 by (by rewrite Hdrop).
    rewrite length_drop in H0. lia. }
  replace (S n - length r)%nat with 0%nat by lia. simpl.
  destruct (ch_eqb x ">") eqn:E; [|done].
  apply ch_eqb_eq in E. contradiction.
Qed.

Lemma digitsThenGt_bound (k : nat) (r : list ascii) (n : nat) :
  digitsThenGt k r = Some n -> (n <= k + length r)%nat.
Proof.
  unfold digitsThenGt. destruct (spanLength isDigit r) as [|j]; [done|].
  destruct (drop (S j) r) as [|c t] eqn:Hdrop; [done|].
  apply drop_cons_lt in Hdrop.
  destruct (ch_eqb c ">"); [|done]. intros [= <-]. lia.
Qed.

(** A run of digits closed by [">"] is matched as a whole. *)
Lemma digitsThenGt_token (k : nat) (d b : list ascii) :
  d <> [] -> forallb isDigit d = true ->
  digitsThenGt k (d ++ ">"%char :: b) = Some (k + length d + 1)%nat.
Proof.
  intros Hne Hd. unfold digitsThenGt.
  rewrite (spanLength_all isDigit d ">" b Hd eq_refl).
  destruct d as [|c d]; [done|]. cbn [length].
  change (drop (S (length d)) ((c :: d) ++ ">"%char :: b))
    with (drop (length d) (d ++ ">"%char :: b)).
  rewrite drop_app_length. reflexivity.
Qed.

(** Matches of a literal: a pattern is not completed by text that starts
    with a code unit foreign to the rest of the pattern. *)
Lemma stripPrefix_app_Some (p a r y : list ascii) :
  stripPrefix p a = Some r ->
  stripPrefix p (a ++ y) = Some (r ++ y) /\ (length p <= length a)%nat.
Proof.
  revert a. induction p as [|q p IH]; intros a; simpl.
  - intros [= <-]. split; [done|lia].
  - destruct a as [|c a]; [done|]. simpl.
    destruct (ch_eqb q c); [|done]. intros H.
    destruct (IH _ H). split; [done|lia].
Qed.

Lemma stripPrefix_app_None (p a : list ascii) (x : ascii) (b : list ascii) :
  x ∉ p -> stripPrefix p a = None -> stripPrefix p (a ++ x :: b) = None.
Proof.
  revert a. induction p as [|q p IH]; intros a Hx; simpl; [done|].
  apply not_elem_of_cons in Hx as [Hq Hp].
  destruct a as [|c a]; simpl.
  - intros _. destruct (ch_eqb q x) eqn:E; [|done].
    apply ch_eqb_eq in E. congruence.
  - destruct (ch_eqb q c); [|done]. by apply IH.
Qed.

Lemma matchLit_stable (q : ascii) (p : list ascii) (x : ascii) (b : list ascii) :
  x ∉ p -> stable_before (matchLit (q :: p)) (x :: b).
Proof.
  intros Hx. split; [reflexivity|]. intros c a. unfold matchLit, startsWith.
  split.
  - simpl. destruct (ch_eqb q c); [|done].
    destruct (stripPrefix p a) as [r|] eqn:E.
    + by destruct (stripPrefix_app_Some p a r (x :: b) E) as [-> _].
    + by rewrite stripPrefix_app_None.
  - intros n. destruct (stripPrefix (q :: p) (c :: a)) as [r|] eqn:E; [|done].
    intros [= <-]. by destruct (stripPrefix_app_Some _ _ _ [] E).
Qed.

(** The mention patterns: case analysis on the first code units of the
    text, then [digitsThenGt_app]. *)
Ltac token_unfold :=
  unfold matchRoleMention, matchUserMention, matchChannelRef, lit;
  cbn [list_ascii_of_string stripPrefix app].

Ltac token_cases :=
  repeat match goal with
  | |- context [ch_eqb ?k ?v] =>
      is_var v; destruct (ch_eqb k v); cbn [app]; try reflexivity
  | |- context [match ?t ++ _ with [] => _ | _ :: _ => _ end] =>
      is_var t; destruct t; cbn [app]; try reflexivity
  end.

Ltac token_bound :=
  let n := fresh "n" in
  intros n;
  repeat match goal with
  | |- context [ch_eqb ?k ?v] =>
      is_var v; destruct (ch_eqb k v); try discriminate
  | |- context [match ?t with [] => _ | _ :: _ => _ end] =>
      is_var t; destruct t; try discriminate
  | |- context [match digitsThenGt ?k ?t with _ => _ end] =>
      let E := fresh "E" in
      destruct (digitsThenGt k t) eqn:E;
      [apply digitsThenGt_bound in E|]
  end;
  try (let H := fresh "H" in intros H%digitsThenGt_bound);
  try (let H := fresh "H" in intros H; injection H as <-);
  simpl in *; lia.

(** The shape shared by the stability proofs of the mention patterns:
    the text that follows starts with a code unit that is neither a
    digit nor [">"] and does not complete the opening of a token. *)
Ltac stable_token :=
  split; [reflexivity|];
  let c := fresh "c" in let a := fresh "a" in
  intros c a; split;
  [ token_unfold; token_cases;
    rewrite ?app_comm_cons;
    rewrite ?digitsThenGt_app by (done || reflexivity); reflexivity
  | token_unfold; token_bound ].

Lemma matchUserMention_stable_lt (b : list ascii) :
  stable_before matchUserMention ("<"%char :: b).
Proof. stable_token. Qed.

Lemma matchRoleMention_stable_lt (b : list ascii) :
  stable_before matchRoleMention ("<"%char :: b).
Proof. stable_token. Qed.

Lemma matchChannelRef_stable_lt (b : list ascii) :
  stable_before matchChannelRef ("<"%char :: b).
Proof. stable_token. Qed.

Lemma matchRoleMention_stable_user (b : list ascii) :
  stable_before matchRoleMention ("@"%char :: "u"%char :: b).
Proof. stable_token. Qed.

Lemma matchChannelRef_stable_at (b : list ascii) :
  stable_before matchChannelRef ("@"%char :: b).
Proof. stable_token. Qed.

Section Keep.
Variable m : matcher.
Variable rep : list ascii.
Variable h : ascii.
Hypothesis Hm : starts_only_with m h.

(** Code units that cannot open a match are copied. *)
Lemma replaceAll_keep (x s : list ascii) :
  h ∉ x -> replaceAll m rep (x ++ s) = x ++ replaceAll m rep s.
Proof.
  destruct Hm as [_ Hh]. unfold replaceAll.
  induction x as [|c x IH]; intros Hx; [done|].
  apply not_elem_of_cons in Hx as [Hc Hx]. simpl.
  rewrite (Hh c (x ++ s)) by congruence. by rewrite IH.
Qed.

End Keep.

Lemma matchLit_starts (q : ascii) (p : list ascii) :
  starts_only_with (matchLit (q :: p)) q.
Proof.
  split; [reflexivity|]. intros c r Hc. unfold matchLit, startsWith. simpl.
  destruct (ch_eqb q c) eqn:E; [|done]. apply ch_eqb_eq in E. congruence.
Qed.

Ltac starts_token :=
  split; [reflexivity|];
  let c := fresh "c" in let r := fresh "r" in let Hc := fresh "Hc" in
  let E := fresh "E" in
  intros c r Hc; token_unfold;
  destruct (ch_eqb "<" c) eqn:E; [apply ch_eqb_eq in E; congruence|reflexivity].

Lemma matchUserMention_starts : starts_only_with matchUserMention "<".
Proof. starts_token. Qed.

Lemma matchRoleMention_starts : starts_only_with matchRoleMention "<".
Proof. starts_token. Qed.

Lemma matchChannelRef_starts : starts_only_with matchChannelRef "<".
Proof. starts_token. Qed.

Lemma digits_no (x : ascii) (d : list ascii) :
  isDigit x = false -> forallb isDigit d = true -> x ∉ d.
Proof.
  intros Hx Hd Hin. rewrite forallb_forall in Hd.
  apply list_elem_of_In in Hin. specialize (Hd x Hin). congruence.
Qed.

(** *** The first stage: unescaping *)

Lemma escapedLt_starts : starts_only_with (matchLit (lit "\u003c")) "\".
Proof. apply matchLit_starts. Qed.

Lemma escapedGt_starts : starts_only_with (matchLit (lit "\u003e")) "\".
Proof. apply matchLit_starts. Qed.

Lemma escapedLt_stable (x : ascii) (b : list ascii) :
  x ∉ lit "u003c" -> stable_before (matchLit (lit "\u003c")) (x :: b).
Proof. apply matchLit_stable. Qed.

Lemma escapedGt_stable (x : ascii) (b : list ascii) :
  x ∉ lit "u003e" -> stable_before (matchLit (lit "\u003e")) (x :: b).
Proof. apply matchLit_stable. Qed.

Lemma unescape_keep (x s : list ascii) :
  "\"%char ∉ x -> unescape (x ++ s) = x ++ unescape s.
Proof.
  intros Hx. unfold unescape.
  rewrite (replaceAll_keep _ _ _ escapedLt_starts) by done.
  by rewrite (replaceAll_keep _ _ _ escapedGt_starts).
Qed.


Lemma unescape_escaped_lt (a b : list ascii) :
  unescape (a ++ lit "\u003c" ++ b) = unescape a ++ "<"%char :: unescape b.
Proof.
  unfold unescape.
  rewrite (replaceAll_app _ _ a) by (apply escapedLt_stable; by_compute).
  change (replaceAll (matchLit (lit "\u003c")) (lit "<") (lit "\u003c" ++ b))
    with ("<"%char :: replaceAll (matchLit (lit "\u003c")) (lit "<") b).
  by rewrite (replaceAll_app _ _ _ ("<"%char :: _))
    by (apply escapedGt_stable; by_compute).
Qed.

Lemma unescape_escaped_gt (a b : list ascii) :
  unescape (a ++ lit "\u003e" ++ b) = unescape a ++ ">"%char :: unescape b.
Proof.
  unfold unescape.
  rewrite (replaceAll_app _ _ a) by (apply escapedLt_stable; by_compute).
  change (replaceAll (matchLit (lit "\u003c")) (lit "<") (lit "\u003e" ++ b))
    with (lit "\u003e" ++ replaceAll (matchLit (lit "\u003c")) (lit "<") b).
  by rewrite (replaceAll_app _ _ _ (lit "\u003e" ++ _))
    by (apply escapedGt_stable; by_compute).
Qed.


(** *** The second stage: mentions *)

Section Pass.
Variable m : matcher.
Variable rep : list ascii.

Lemma replaceAll_match (tok s : list ascii) :
  m [] = None -> tok <> [] ->
  m (tok ++ s) = Some (length tok) ->
  replaceAll m rep (tok ++ s) = rep ++ replaceAll m rep s.
Proof.
  intros Hnil Hne Hm. destruct tok as [|c x]; [done|].
  unfold replaceAll. simpl in *. rewrite Hm. by rewrite replaceFrom_skip.
Qed.

(** A piece of text at which the pattern does not match, inside which
    no match can start, and which shields what precedes it, is copied. *)
Lemma replaceAll_pass (h : ascii) (a tok b : list ascii) :
  starts_only_with m h ->
  stable_before m (tok ++ b) ->
  m (tok ++ b) = None ->
  tok <> [] ->
  h ∉ tail tok ->
  replaceAll m rep (a ++ tok ++ b) =
    replaceAll m rep a ++ tok ++ replaceAll m rep b.
Proof.
  intros Hh Hst Hno Hne Hx. rewrite replaceAll_app by done. f_equal.
  destruct tok as [|c x]; [done|]. simpl in *.
  unfold replaceAll at 1. simpl. rewrite Hno. f_equal.
  by apply (replaceAll_keep m rep h).
Qed.
End Pass.

Lemma digit_not_bang (c : ascii) : isDigit c = true -> ch_eqb "!" c = false.
Proof.
  intros Hc. destruct (ch_eqb "!" c) eqn:E; [|done].
  apply ch_eqb_eq in E. subst. discriminate.
Qed.

Section Tokens.
Variable d : list ascii.
Hypothesis d_nonempty : d <> [].
Hypothesis d_digits : forallb isDigit d = true.

Lemma matchUserMention_token (b : list ascii) :
  matchUserMention ((lit "<@" ++ d ++ lit ">") ++ b)
  = Some (length (lit "<@" ++ d ++ lit ">")).
Proof.
  rewrite <- !app_assoc. token_unfold.
  destruct d as [|c d'] eqn:Hd; [done|]. cbn -[digitsThenGt length].
  assert (isDigit c = true) as Hc by (simpl in d_digits; by apply andb_prop in d_digits as [? _]).
  rewrite (digit_not_bang c Hc).
  change (c :: d' ++ ">"%char :: b) with ((c :: d') ++ ">"%char :: b).
  rewrite digitsThenGt_token; [|done|done].
  f_equal. simpl. rewrite ?length_app. simpl. lia.
Qed.

Lemma matchUserMention_token_bang (b : list ascii) :
  matchUserMention ((lit "<@!" ++ d ++ lit ">") ++ b)
  = Some (length (lit "<@!" ++ d ++ lit ">")).
Proof.
  rewrite <- !app_assoc. token_unfold. cbn -[digitsThenGt length].
  rewrite digitsThenGt_token; [|done|done].
  f_equal. simpl. rewrite ?length_app. simpl. lia.
Qed.

Lemma matchRoleMention_token (b : list ascii) :
  matchRoleMention ((lit "<@&" ++ d ++ lit ">") ++ b)
  = Some (length (lit "<@&" ++ d ++ lit ">")).
Proof.
  rewrite <- !app_assoc. token_unfold. cbn -[digitsThenGt length].
  rewrite digitsThenGt_token; [|done|done].
  f_equal. simpl. rewrite ?length_app. simpl. lia.
Qed.

Lemma matchChannelRef_token (b : list ascii) :
  matchChannelRef ((lit "<#" ++ d ++ lit ">") ++ b)
  = Some (length (lit "<#" ++ d ++ lit ">")).
Proof.
  rewrite <- !app_assoc. token_unfold. cbn -[digitsThenGt length].
  rewrite digitsThenGt_token; [|done|done].
  f_equal. simpl. rewrite ?length_app. simpl. lia.
Qed.

Lemma lt_not_in_digits : "<"%char ∉ d ++ lit ">".
Proof.
  apply not_elem_of_app. split; [by apply digits_no|by_compute].
Qed.


Lemma token_assoc (a p b : list ascii) :
  a ++ p ++ d ++ lit ">" ++ b = a ++ (p ++ d ++ lit ">") ++ b.
Proof. by rewrite <- !app_assoc. Qed.

Lemma replaceMentions_user (a b : list ascii) :
  replaceMentions (a ++ lit "<@" ++ d ++ lit ">" ++ b)
  = replaceMentions a ++ lit "@user" ++ replaceMentions b.
Proof.
  unfold replaceMentions.
  rewrite token_assoc.
  rewrite (replaceAll_app matchUserMention) by apply matchUserMention_stable_lt.
  rewrite (replaceAll_match matchUserMention) by
    (done || (by destruct d) || apply matchUserMention_token).
  rewrite (replaceAll_pass matchRoleMention _ "<" _ (lit "@user"));
    [|apply matchRoleMention_starts|apply matchRoleMention_stable_user
     |done|done|by_compute].
  rewrite (replaceAll_pass matchChannelRef _ "<" _ (lit "@user"));
    [|apply matchChannelRef_starts|apply matchChannelRef_stable_at
     |done|done|by_compute].
  by rewrite <- ?app_assoc.
Qed.

Lemma replaceMentions_user_bang (a b : list ascii) :
  replaceMentions (a ++ lit "<@!" ++ d ++ lit ">" ++ b)
  = replaceMentions a ++ lit "@user" ++ replaceMentions b.
Proof.
  unfold replaceMentions.
  rewrite token_assoc.
  rewrite (replaceAll_app matchUserMention) by apply matchUserMention_stable_lt.
  rewrite (replaceAll_match matchUserMention) by
    (done || (by destruct d) || apply matchUserMention_token_bang).
  rewrite (replaceAll_pass matchRoleMention _ "<" _ (lit "@user"));
    [|apply matchRoleMention_starts|apply matchRoleMention_stable_user
     |done|done|by_compute].
  rewrite (replaceAll_pass matchChannelRef _ "<" _ (lit "@user"));
    [|apply matchChannelRef_starts|apply matchChannelRef_stable_at
     |done|done|by_compute].
  by rewrite <- ?app_assoc.
Qed.

Lemma lt_not_in_token (p : list ascii) :
  "<"%char ∉ p -> "<"%char ∉ p ++ d ++ lit ">".
Proof. intros Hp. apply not_elem_of_app. split; [done|apply lt_not_in_digits]. Qed.

Lemma replaceMentions_role (a b : list ascii) :
  replaceMentions (a ++ lit "<@&" ++ d ++ lit ">" ++ b)
  = replaceMentions a ++ lit "@role" ++ replaceMentions b.
Proof.
  unfold replaceMentions.
  rewrite token_assoc.
  rewrite (replaceAll_pass matchUserMention _ "<");
    [|apply matchUserMention_starts|apply matchUserMention_stable_lt
     |done|done|apply (lt_not_in_token (lit "@&")); by_compute].
  rewrite (replaceAll_app matchRoleMention) by apply matchRoleMention_stable_lt.
  rewrite (replaceAll_match matchRoleMention) by
    (done || (by destruct d) || apply matchRoleMention_token).
  rewrite (replaceAll_pass matchChannelRef _ "<" _ (lit "@role"));
    [|apply matchChannelRef_starts|apply matchChannelRef_stable_at
     |done|done|by_compute].
  by rewrite <- ?app_assoc.
Qed.

Lemma replaceMentions_channel (a b : list ascii) :
  replaceMentions (a ++ lit "<#" ++ d ++ lit ">" ++ b)
  = replaceMentions a ++ lit "#channel" ++ replaceMentions b.
Proof.
  unfold replaceMentions.
  rewrite token_assoc.
  rewrite (replaceAll_pass matchUserMention _ "<");
    [|apply matchUserMention_starts|apply matchUserMention_stable_lt
     |done|done|apply (lt_not_in_token (lit "#")); by_compute].
  rewrite (replaceAll_pass matchRoleMention _ "<");
    [|apply matchRoleMention_starts|apply matchRoleMention_stable_lt
     |done|done|apply (lt_not_in_token (lit "#")); by_compute].
  rewrite (replaceAll_app matchChannelRef) by apply matchChannelRef_stable_lt.
  rewrite (replaceAll_match matchChannelRef) by
    (done || (by destruct d) || apply matchChannelRef_token).
  by rewrite <- ?app_assoc.
Qed.

End Tokens.




Example sanitizeContent_escaped_mention :
  sanitizeContent (lit "ping \u003c@123\u003e now") = lit "ping @user now".
Proof. reflexivity. Qed.

(** ** Effects *)

Lemma total_ret {A} (a : A) : total (ret a).
Proof. intros st. by exists a, st. Qed.

Lemma total_bind {A B} (c : Eff A) (k : A -> Eff B) :
  total c -> (forall a, total (k a)) -> total (bind c k).
Proof.
  intros Hc Hk st. unfold bind.
  destruct (Hc st) as (a & st' & ->). apply Hk.
Qed.

Lemma foldM_total {A B} (f : B -> A -> Eff B) (l : list A) :
  (forall b a, total (f b a)) -> forall b, total (foldM f b l).
Proof.
  intros Hf. induction l as [|a l IH]; intros b; simpl.
  - apply total_ret.
  - apply total_bind; [apply Hf|apply IH].
Qed.

(** ** getMediaFromMessage *)

(** What [add] does to the list. *)
Lemma add_out (acc : MediaAcc) (u : list ascii) (type : MediaType)
    (extra : option (list ascii * list ascii)) :
  u <> [] ->
  (u ∉ seen acc ->
     out (add acc (Some u) type extra) =
       out acc ++ [ {| media_url := u; media_type := type;
                       media_name := fst <$> extra;
                       media_contentType := snd <$> extra |} ]) /\
  (u ∈ seen acc -> add acc (Some u) type extra = acc).
Proof.
  intros Hu. destruct u as [|c r]; [done|]. unfold add.
  split; intros Hin.
  - by rewrite bool_decide_eq_false_2.
  - by rewrite bool_decide_eq_true_2.
Qed.

Section Attachments.
Variable P : Platform.

(** One round of the attachment loop: either the mirror returned a
    reference, which is added, or it threw, and the original URL is
    added in its place.  The round itself never throws. *)
Lemma attachmentStep_cases (messageId : list ascii) (acc : MediaAcc)
    (a : Attachment) (st : State) :
  let ct := toLowerCase (orElse (att_content_type a) []) in
  let name := orElse (att_filename a) (lit "download") in
  (exists ref st',
      mirrorToLocal P (att_url a) messageId (Some name) st = (Ok ref, st') /\
      attachmentStep P messageId acc a st =
        (Ok (addAttachment acc (att_url a) (Some ref) ct name), st'))
  \/ (exists e st',
      mirrorToLocal P (att_url a) messageId (Some name) st = (Throw e, st') /\
      attachmentStep P messageId acc a st =
        (Ok (addAttachment acc (att_url a) (att_url a) ct name), st')).
Proof.
  intros ct name. unfold attachmentStep, bind, try_catch, ret.
  fold ct name.
  destruct (mirrorToLocal P (att_url a) messageId (Some name) st)
    as [[ref|e] st'] eqn:E.
  - left. eauto.
  - right. eauto.
Qed.

Lemma attachmentStep_total (messageId : list ascii) (acc : MediaAcc)
    (a : Attachment) :
  total (attachmentStep P messageId acc a).
Proof.
  intros st.
  destruct (attachmentStep_cases messageId acc a st)
    as [(ref & st' & _ & ->)|(e & st' & _ & ->)]; eauto.
Qed.

Lemma getMediaFromMessage_total (m : Message) : total (getMediaFromMessage P m).
Proof.
  unfold getMediaFromMessage. apply total_bind.
  - apply foldM_total. intros b a. apply attachmentStep_total.
  - intros acc. apply total_ret.
Qed.

End Attachments.

(** ** The callbacks under Promise.all *)

Lemma nameSource_attName (url : option (list ascii)) (a : Attachment) :
  nameSource url (Some (attName a)) = Ok (attName a).
Proof. unfold attName. by destruct (att_filename a) as [[|c r]|]. Qed.

Lemma sum_list_insert (l : list nat) (i x y : nat) :
  l !! i = Some x -> (sum_list (<[i := y]> l) + x = sum_list l + y)%nat.
Proof.
  revert i. induction l as [|z l IH]; intros [|i] Hi; try done; simpl in *.
  - injection Hi as ->. lia.
  - specialize (IH i Hi). lia.
Qed.

Section Callbacks.
Variable P : Platform.
Variable st0 : State.

Local Abbreviation F0 := (files st0).
Local Abbreviation base := (length (fetched st0)).
Local Abbreviation traced st :=
  (forall p, is_Some (files st !! p) -> is_Some (F0 !! p) \/ fetchOkFrom P base).
Local Abbreviation ownUrls m extra :=
  (Forall (fun u => exists a, a ∈ orEmpty (msg_attachments m) /\ att_url a = Some u) extra).

(** A callback enters a round of the attachment loop, or leaves the
    loop. *)
Lemma enterLoop_step (m : Message) (acc : MediaAcc) (done rest : list Attachment)
    (st : State) :
  orEmpty (msg_attachments m) = done ++ rest ->
  loopedOver P F0 base m done acc ->
  filesKept st0 st -> traced st -> (base <= length (fetched st))%nat ->
  callbackInv P F0 base m (enterLoop P m acc rest st).1 /\
  files (enterLoop P m acc rest st).2 = files st /\
  exists extra,
    fetched (enterLoop P m acc rest st).2 = fetched st ++ extra /\
    ownUrls m extra /\
    (length extra + remaining (enterLoop P m acc rest st).1 <= length rest)%nat.
Proof.
  intros Hatts Hdone Hkept Htraced Hbase.
  destruct rest as [|a rest]; simpl.
  { split; [|split; [done|exists []; rewrite app_nil_r; by repeat split]].
    split; [done|]. destruct Hdone as (lus & Hlus & ->).
    exists lus. rewrite app_nil_r in Hatts. unfold mediaWith. rewrite Hatts. by split. }
  assert (a ∈ orEmpty (msg_attachments m)) as Ha.
  { rewrite Hatts. apply elem_of_app. right. left. }
  destruct (mirrorStart_cases P (att_url a) (msg_id m) (Some (attName a)) (attName a) st
              (nameSource_attName _ a))
    as [[Hex ->]|[Hno [[Hu ->]|(u & Hu & [[e ->]|(r & buf & Hnet & Hok & Hbody & ->)])]]];
    simpl.
  - split; [|split; [done|exists []; rewrite app_nil_r; repeat split; [apply Forall_nil_2|simpl; lia]]].
    split; [done|]. split; [|eauto]. right. split; [done|]. by apply Htraced.
  - split; [|split; [done|exists []; rewrite app_nil_r; repeat split; [apply Forall_nil_2|simpl; lia]]].
    split; [done|]. split; [by left|eauto].
  - split; [|split; [done|exists [u]; repeat split; [|simpl; lia]]].
    + split; [done|]. split; [by left|eauto].
    + apply Forall_cons_2; [eauto|apply Forall_nil_2].
  - split; [|split; [done|exists [u]; repeat split; [|simpl; lia]]].
    + split; [done|]. split; [done|]. split.
      { destruct (F0 !! _) as [old|] eqn:Hold; [|done].
        apply Hkept in Hold. congruence. }
      split; [|eauto]. exists (length (fetched st)), u, r. auto.
    + apply Forall_cons_2; [eauto|apply Forall_nil_2].
Qed.

Lemma loopedOver_snoc (m : Message) (done : list Attachment) (acc : MediaAcc)
    (a : Attachment) (localUrl : option (list ascii)) :
  loopedOver P F0 base m done acc ->
  settledBy P F0 base m a localUrl ->
  loopedOver P F0 base m (done ++ [a])
    (addAttachment acc (att_url a) localUrl (attType a) (attName a)).
Proof.
  intros (lus & Hlus & ->) Hlu. exists (lus ++ [localUrl]). split.
  - apply Forall2_app; [done|by constructor].
  - unfold addAttachments.
    rewrite zip_with_app by (by eapply Forall2_length).
    by rewrite fold_left_app.
Qed.

(** A callback is resumed. *)
Lemma resumeCallback_step (m : Message) (c : Callback) (st : State) :
  callbackInv P F0 base m c ->
  filesKept st0 st -> traced st -> (base <= length (fetched st))%nat ->
  callbackInv P F0 base m (resumeCallback P c st).1 /\
  filesKept st0 (resumeCallback P c st).2 /\
  traced (resumeCallback P c st).2 /\
  exists extra,
    fetched (resumeCallback P c st).2 = fetched st ++ extra /\
    ownUrls m extra /\
    (length extra + remaining (resumeCallback P c st).1 <= remaining c)%nat.
Proof.
  intros Hinv Hkept Htraced Hbase.
  destruct c as [m'|m' acc a lu rest|m' acc a ln buf rest|m' media]; simpl in Hinv.
  - subst m'. simpl.
    destruct (enterLoop_step m {| out := []; seen := ∅ |} []
                (orEmpty (msg_attachments m)) st)
      as (Hc & Hfiles & extra & Hfetch & Hown & Hn); try done.
    { exists []. split; [constructor|done]. }
    split; [done|]. split; [intros p x Hp; rewrite Hfiles; by apply Hkept|].
    split; [intros p; rewrite Hfiles; apply Htraced|]. eauto.
  - destruct Hinv as (-> & Hlu & done & Hatts & Hdone). simpl.
    destruct (enterLoop_step m
                (addAttachment acc (att_url a) lu (attType a) (attName a))
                (done ++ [a]) rest st)
      as (Hc & Hfiles & extra & Hfetch & Hown & Hn); try done.
    { by rewrite <- app_assoc. }
    { by apply loopedOver_snoc. }
    split; [done|]. split; [intros p x Hp; rewrite Hfiles; by apply Hkept|].
    split; [intros p; rewrite Hfiles; apply Htraced|]. eauto.
  - destruct Hinv as (-> & -> & Hno & Hfetched & done & Hatts & Hdone). simpl.
    pose proof (mirrorFinish_cases P
                  (localNameOf (msg_id m) (safeFilename (attName a))) buf st) as Hw.
    destruct (write_result P _ buf) as [|[part|]]; rewrite Hw; simpl.
    + split; [split; [done|]; split; [right; auto|eauto]|].
      split; [intros p x Hp; simpl; rewrite lookup_insert_ne; [by apply Hkept|congruence]|].
      split; [|exists []; rewrite app_nil_r; repeat split; [apply Forall_nil_2|simpl; lia]].
      intros p. destruct (decide (localPathOf P
                  (localNameOf (msg_id m) (safeFilename (attName a))) = p)) as [<-|Hne].
      * auto.
      * rewrite lookup_insert_ne by done. apply Htraced.
    + split; [split; [done|]; split; [by left|eauto]|].
      split; [intros p x Hp; simpl; rewrite lookup_insert_ne; [by apply Hkept|congruence]|].
      split; [|exists []; rewrite app_nil_r; repeat split; [apply Forall_nil_2|simpl; lia]].
      intros p. destruct (decide (localPathOf P
                  (localNameOf (msg_id m) (safeFilename (attName a))) = p)) as [<-|Hne].
      * auto.
      * rewrite lookup_insert_ne by done. apply Htraced.
    + split; [split; [done|]; split; [by left|eauto]|].
      split; [done|]. split; [done|].
      exists []. rewrite app_nil_r. repeat split; [apply Forall_nil_2|simpl; lia].
  - simpl. split; [done|]. split; [done|]. split; [done|].
    exists []. rewrite app_nil_r. repeat split; [apply Forall_nil_2|simpl; lia].
Qed.

(** The invariant of the world is kept when a callback is resumed. *)
Lemma resumeAt_inv (ms : list Message) (i : nat) (cs : list Callback) (st : State) :
  worldInv P st0 ms cs st ->
  worldInv P st0 ms (resumeAt P i cs st).1 (resumeAt P i cs st).2.
Proof.
  intros (Hall & Hkept & Htraced & extra & Hfetch & Hurls & Hn).
  unfold resumeAt. destruct (cs !! i) as [c|] eqn:Hc; simpl.
  2:{ split; [done|]. split; [done|]. split; [done|]. eauto. }
  destruct (Forall2_lookup_r _ _ _ _ _ Hall Hc) as (m & Hm & Hinv).
  destruct (resumeCallback_step m c st Hinv Hkept Htraced)
    as (Hinv' & Hkept' & Htraced' & extra1 & Hfetch1 & Hown & Hn1).
  { rewrite Hfetch, length_app. lia. }
  destruct (resumeCallback P c st) as [c' st']. simpl in *.
  split; [rewrite <- (list_insert_id ms i m Hm); by apply Forall2_insert|].
  split; [done|]. split; [done|].
  exists (extra ++ extra1). split; [by rewrite Hfetch1, Hfetch, app_assoc|].
  split.
  - apply Forall_app. split; [done|].
    eapply Forall_impl; [exact Hown|]. intros u (a & Ha & Hu).
    exists m, a. split; [by eapply list_elem_of_lookup_2|done].
  - rewrite list_fmap_insert, length_app.
    pose proof (sum_list_insert (map remaining cs) i (remaining c) (remaining c')) as Hs.
    rewrite list_lookup_fmap, Hc in Hs. specialize (Hs eq_refl).
    change (remaining <$> cs) with (map remaining cs). lia.
Qed.

Lemma resumeInOrder_inv (ms : list Message) (order : list nat) :
  forall (cs : list Callback) (st : State),
    worldInv P st0 ms cs st ->
    worldInv P st0 ms (resumeInOrder P order cs st).1 (resumeInOrder P order cs st).2.
Proof.
  induction order as [|i order IH]; intros cs st Hinv; simpl; [done|].
  pose proof (resumeAt_inv ms i cs st Hinv) as Hstep.
  destruct (resumeAt P i cs st) as [cs1 st1]. by apply IH.
Qed.

Lemma resumePending_inv (ms : list Message) (fuel : nat) :
  forall (cs : list Callback) (st : State),
    worldInv P st0 ms cs st ->
    worldInv P st0 ms (resumePending P fuel cs st).1 (resumePending P fuel cs st).2.
Proof.
  induction fuel as [|fuel IH]; intros cs st Hinv; simpl; [done|].
  pose proof (resumeInOrder_inv ms (nextStep cs) cs st Hinv) as Hstep.
  destruct (resumeInOrder P (nextStep cs) cs st) as [cs1 st1]. by apply IH.
Qed.

Lemma worldInv_called (ms : list Message) :
  worldInv P st0 ms (map Called ms) st0.
Proof.
  split; [|split; [by intros p x|split; [auto|]]].
  - apply Forall2_fmap_r. induction ms; by constructor.
  - exists []. rewrite app_nil_r. split; [done|]. split; [apply Forall_nil_2|].
    simpl. rewrite map_map. unfold attachmentCount. simpl. lia.
Qed.
End Callbacks.

(** *** Every callback gets to its end *)

Lemma enterLoop_budget (P : Platform) (m : Message) (acc : MediaAcc)
    (rest : list Attachment) (st : State) :
  (budget (enterLoop P m acc rest st).1 <= 2 * length rest)%nat /\
  callbackMessage (enterLoop P m acc rest st).1 = m.
Proof.
  destruct rest as [|a rest]; simpl; [split; [lia|done]|].
  destruct (mirrorStart P (att_url a) (msg_id m) (Some (attName a)) st)
    as [[[ref|ln buf]|e] st']; simpl; split; (lia || done).
Qed.

Lemma resumeCallback_budget (P : Platform) (c : Callback) (st : State) :
  (budget (resumeCallback P c st).1 <= pred (budget c))%nat /\
  callbackMessage (resumeCallback P c st).1 = callbackMessage c.
Proof.
  destruct c as [m|m acc a lu rest|m acc a ln buf rest|m media]; simpl.
  - destruct (enterLoop_budget P m {| out := []; seen := ∅ |}
                (orEmpty (msg_attachments m)) st). split; [lia|done].
  - destruct (enterLoop_budget P m
                (addAttachment acc (att_url a) lu (attType a) (attName a)) rest st).
    split; [lia|done].
  - destruct (mirrorFinish P ln buf st) as [[ref|e] st']; simpl; split; (lia || done).
  - split; [lia|done].
Qed.

Lemma budget_resolved (c : Callback) : budget c = O -> isResolved c = true.
Proof. destruct c; simpl; (done || lia). Qed.

(** Resuming a callback brings it nearer to its end and leaves the
    others where they are. *)
Lemma resumeAt_budget (P : Platform) (i : nat) (cs : list Callback) (st : State) :
  length (resumeAt P i cs st).1 = length cs /\
  forall j c, cs !! j = Some c ->
    exists c', (resumeAt P i cs st).1 !! j = Some c' /\
               (budget c' <= budget c)%nat /\
               (j = i -> (budget c' <= pred (budget c))%nat).
Proof.
  unfold resumeAt. destruct (cs !! i) as [ci|] eqn:Hi.
  2:{ simpl. split; [done|]. intros j c Hj. exists c. split; [done|].
      split; [lia|]. intros ->. congruence. }
  pose proof (resumeCallback_budget P ci st) as [Hb _].
  destruct (resumeCallback P ci st) as [ci' st']. simpl in *.
  split; [apply length_insert|]. intros j c Hj.
  destruct (decide (j = i)) as [->|Hne].
  - exists ci'. rewrite list_lookup_insert_eq by (by eapply lookup_lt_Some).
    assert (c = ci) as -> by congruence. split; [done|]. split; [lia|done].
  - exists c. rewrite list_lookup_insert_ne by done. split; [done|]. split; [lia|done].
Qed.

Lemma resumeInOrder_budget (P : Platform) (order : list nat) :
  forall (cs : list Callback) (st : State),
    length (resumeInOrder P order cs st).1 = length cs /\
    forall j c, cs !! j = Some c ->
      exists c', (resumeInOrder P order cs st).1 !! j = Some c' /\
                 (budget c' <= budget c)%nat /\
                 (j ∈ order -> (budget c' <= pred (budget c))%nat).
Proof.
  induction order as [|i order IH]; intros cs st; simpl.
  { split; [done|]. intros j c Hj. exists c. split; [done|]. split; [lia|].
    intros Hin. by apply elem_of_nil in Hin. }
  destruct (resumeAt_budget P i cs st) as [Hlen Hstep].
  destruct (resumeAt P i cs st) as [cs1 st1]. simpl in *.
  destruct (IH cs1 st1) as [Hlen' Hrest].
  split; [congruence|]. intros j c Hj.
  destruct (Hstep j c Hj) as (c1 & Hc1 & Hle1 & Hlt1).
  destruct (Hrest j c1 Hc1) as (c' & Hc' & Hle & Hlt).
  exists c'. split; [done|]. split; [lia|].
  intros Hin. apply elem_of_cons in Hin as [->|Hin].
  - specialize (Hlt1 eq_refl). lia.
  - specialize (Hlt Hin). lia.
Qed.

Lemma indicesFrom_spec (f : Callback -> bool) (cs : list Callback) :
  forall i j : nat,
    j ∈ indicesFrom f i cs <->
    (i <= j)%nat /\ exists c, cs !! (j - i)%nat = Some c /\ f c = true.
Proof.
  induction cs as [|c cs IH]; intros i j; simpl.
  { split; [intros Hin; by apply elem_of_nil in Hin|by intros (_ & c & ? & _)]. }
  rewrite elem_of_app, IH. split.
  - intros [Hin|(Hle & c' & Hc' & Hf)].
    + destruct (f c) eqn:Hfc; [|by apply elem_of_nil in Hin].
      apply list_elem_of_singleton in Hin as ->. split; [lia|].
      exists c. rewrite Nat.sub_diag. by split.
    + split; [lia|]. exists c'. split; [|done].
      replace (j - i)%nat with (S (j - S i)) by lia. done.
  - intros (Hle & c' & Hc' & Hf).
    destruct (decide (j = i)) as [->|Hne].
    + left. rewrite Nat.sub_diag in Hc'. simpl in Hc'. injection Hc' as ->.
      rewrite Hf. by left.
    + right. split; [lia|]. exists c'. split; [|done].
      replace (j - i)%nat with (S (j - S i)) in Hc' by lia. done.
Qed.

(** While a callback is pending, the next step resumes one that is. *)
Lemma nextStep_pending (cs : list Callback) (j : nat) (c : Callback) :
  cs !! j = Some c -> isResolved c = false ->
  exists i ci, i ∈ nextStep cs /\ cs !! i = Some ci /\ (1 <= budget ci)%nat.
Proof.
  intros Hj Hc.
  assert (forall f i, i ∈ indicesFrom f 0 cs ->
            (forall x, f x = true -> (1 <= budget x)%nat) ->
            exists ci, cs !! i = Some ci /\ (1 <= budget ci)%nat) as Hvalid.
  { intros f i Hi Hf. apply indicesFrom_spec in Hi as (_ & ci & Hci & Hfc).
    rewrite Nat.sub_0_r in Hci. eauto. }
  assert (forall x, isReady x = true -> (1 <= budget x)%nat) as Hready
    by (intros []; simpl; (discriminate || lia)).
  assert (forall x, isDownloading x = true -> (1 <= budget x)%nat) as Hdown
    by (intros []; simpl; (discriminate || lia)).
  unfold nextStep. destruct (indicesFrom isReady 0 cs) as [|i ready] eqn:Eready.
  - assert (isDownloading c = true) as Hcd.
    { destruct c; try done.
      + assert (j ∈ indicesFrom isReady 0 cs) as Hin.
        { apply indicesFrom_spec. split; [lia|]. rewrite Nat.sub_0_r. eauto. }
        rewrite Eready in Hin. by apply elem_of_nil in Hin.
      + assert (j ∈ indicesFrom isReady 0 cs) as Hin.
        { apply indicesFrom_spec. split; [lia|]. rewrite Nat.sub_0_r. eauto. }
        rewrite Eready in Hin. by apply elem_of_nil in Hin. }
    assert (j ∈ indicesFrom isDownloading 0 cs) as Hin.
    { apply indicesFrom_spec. split; [lia|]. rewrite Nat.sub_0_r. eauto. }
    destruct (indicesFrom isDownloading 0 cs) as [|i down] eqn:Edown.
    { by apply elem_of_nil in Hin. }
    destruct (Hvalid isDownloading i) as (ci & Hci & Hb); [rewrite Edown; left|done|].
    exists i, ci. split; [simpl; left|done].
  - destruct (Hvalid isReady i) as (ci & Hci & Hb); [rewrite Eready; left|done|].
    exists i, ci. split; [left|done].
Qed.

Lemma sum_list_pointwise (l l' : list nat) :
  length l' = length l ->
  (forall j x, l !! j = Some x -> exists x', l' !! j = Some x' /\ (x' <= x)%nat) ->
  (sum_list l' <= sum_list l)%nat /\
  forall j x x', l !! j = Some x -> l' !! j = Some x' -> (x' < x)%nat ->
                 (sum_list l' < sum_list l)%nat.
Proof.
  revert l'. induction l as [|y l IH]; intros [|y' l'] Hlen Hall; try done; simpl in *.
  destruct (Hall O y eq_refl) as (x' & Hx' & Hle). simpl in Hx'. injection Hx' as <-.
  destruct (IH l') as [Hsum Hstrict]; [lia|intros j x Hj; apply (Hall (S j) x Hj)|].
  split; [lia|]. intros [|j] x x' Hj Hj' Hlt; simpl in *.
  - injection Hj as <-. injection Hj' as <-. lia.
  - specialize (Hstrict j x x' Hj Hj' Hlt). lia.
Qed.

Lemma sum_list_lookup_le (l : list nat) (j x : nat) :
  l !! j = Some x -> (x <= sum_list l)%nat.
Proof.
  revert j. induction l as [|y l IH]; intros [|j] Hj; try done; simpl in *.
  - injection Hj as ->. lia.
  - specialize (IH j Hj). lia.
Qed.

(** A step of the event loop brings the callbacks nearer to their end,
    by one resumption at least while one of them is pending. *)
Lemma nextStep_budget (P : Platform) (cs : list Callback) (st : State) :
  (sum_list (map budget (resumeInOrder P (nextStep cs) cs st).1)
   <= pred (sum_list (map budget cs)))%nat.
Proof.
  destruct (resumeInOrder_budget P (nextStep cs) cs st) as [Hlen Hall].
  destruct (sum_list_pointwise (map budget cs)
              (map budget (resumeInOrder P (nextStep cs) cs st).1))
    as [Hsum Hstrict].
  { by rewrite !length_map. }
  { intros j x Hj. rewrite list_lookup_fmap in Hj.
    destruct (cs !! j) as [c|] eqn:Hc; [|done]. simpl in Hj. injection Hj as <-.
    destruct (Hall j c Hc) as (c' & Hc' & Hle & _).
    exists (budget c'). rewrite list_lookup_fmap, Hc'. by split. }
  destruct (decide (Forall (fun c => isResolved c = true) cs)) as [Hres|Hpending].
  { assert (sum_list (map budget cs) = O) as Hzero; [|lia].
    clear -Hres. induction Hres as [|c cs Hc _ IH]; [done|].
    simpl. rewrite IH. by destruct c. }
  apply not_Forall_Exists in Hpending; [|apply _].
  apply Exists_exists in Hpending as (c & Hin & Hc).
  apply list_elem_of_lookup in Hin as [j Hj].
  destruct (nextStep_pending cs j c Hj) as (i & ci & Hi & Hci & Hb).
  { simpl in Hc. by destruct (isResolved c). }
  destruct (Hall i ci Hci) as (ci' & Hci' & _ & Hlt).
  specialize (Hlt Hi).
  specialize (Hstrict i (budget ci) (budget ci')).
  rewrite !list_lookup_fmap, Hci, Hci' in Hstrict.
  specialize (Hstrict eq_refl eq_refl). lia.
Qed.

(** With fuel for the budgets of all, every callback gets to its end. *)
Lemma resumePending_resolves (P : Platform) (fuel : nat) :
  forall (cs : list Callback) (st : State),
    (sum_list (map budget cs) <= fuel)%nat ->
    Forall (fun c => isResolved c = true) (resumePending P fuel cs st).1.
Proof.
  induction fuel as [|fuel IH]; intros cs st Hfuel; simpl.
  { apply Forall_lookup. intros j c Hj. apply budget_resolved.
    pose proof (sum_list_lookup_le (map budget cs) j (budget c)) as Hle.
    rewrite list_lookup_fmap, Hj in Hle. specialize (Hle eq_refl). lia. }
  pose proof (nextStep_budget P cs st) as Hstep.
  destruct (resumeInOrder P (nextStep cs) cs st) as [cs1 st1]. simpl in Hstep.
  apply IH. lia.
Qed.

(** *** Promise.all *)

Lemma settledBy_settledUrl (P : Platform) (F0 : gmap (list ascii) (list ascii))
    (base : nat) (m : Message) (a : Attachment) (lu : option (list ascii)) :
  settledBy P F0 base m a lu -> settledUrl m a lu.
Proof. intros [?|[? _]]; [by left|by right]. Qed.

Lemma candidateBy_candidate (P : Platform) (F0 : gmap (list ascii) (list ascii))
    (base : nat) (m : Message) (a : Announcement) :
  candidateBy P F0 base m a -> candidate m a.
Proof.
  intros (lus & Hlus & ->). exists lus. split; [|done].
  eapply Forall2_impl; [exact Hlus|]. intros x y. apply settledBy_settledUrl.
Qed.

(** [Promise.all] returns, whatever the order in which the callbacks
    are resumed: one candidate for a message, in the order of the
    messages; the files that were there are kept; and the fetches are
    of attachment URLs, one for an attachment at most. *)
Lemma promiseAll_spec (P : Platform) (ms : list Message) (st : State) :
  exists (mapped : list Announcement) (st' : State),
    promiseAll P ms st = (Ok mapped, st') /\
    Forall2 (candidateBy P (files st) (length (fetched st))) ms mapped /\
    filesKept st st' /\
    (forall p, is_Some (files st' !! p) ->
               is_Some (files st !! p) \/ fetchOkFrom P (length (fetched st))) /\
    exists extra : list (list ascii),
      fetched st' = fetched st ++ extra /\
      Forall (attachmentUrlOf ms) extra /\
      (length extra <= attachmentCount ms)%nat.
Proof.
  unfold promiseAll.
  pose proof (resumeInOrder_inv P st ms (seq 0 (length ms)) _ _ (worldInv_called P st ms))
    as H1.
  destruct (resumeInOrder P (seq 0 (length ms)) (map Called ms) st) as [cs1 st1] eqn:E1.
  pose proof (resumeInOrder_inv P st ms (resume_order P) _ _ H1) as H2.
  simpl in H2.
  destruct (resumeInOrder P (resume_order P) cs1 st1) as [cs2 st2] eqn:E2.
  pose proof (resumePending_inv P st ms (sum_list (map budget cs2)) _ _ H2) as H3.
  pose proof (resumePending_resolves P _ cs2 st2 (le_n _)) as Hres.
  simpl in H3.
  destruct (resumePending P (sum_list (map budget cs2)) cs2 st2) as [cs3 st3] eqn:E3.
  simpl in H3, Hres.
  destruct H3 as (Hall & Hkept & Htraced & extra & Hfetch & Hurls & Hn).
  exists (map announcementOf cs3), st3. split; [done|].
  split; [|split; [done|split; [done|exists extra; split; [done|split; [done|lia]]]]].
  apply Forall2_fmap_r. clear -Hall Hres.
  induction Hall as [|m c ms cs Hc _ IH]; [constructor|].
  apply Forall_cons in Hres as [Hr Hres]. constructor; [|by apply IH].
  destruct c; try discriminate. destruct Hc as (-> & lus & Hlus & ->).
  by exists lus.
Qed.

Lemma resumeInOrder_nil (P : Platform) (order : list nat) (st : State) :
  resumeInOrder P order [] st = ([], st).
Proof. induction order as [|i order IH]; [done|]. simpl. exact IH. Qed.

Lemma promiseAll_nil (P : Platform) (st : State) :
  promiseAll P [] st = (Ok [], st).
Proof. unfold promiseAll. simpl. by rewrite resumeInOrder_nil. Qed.

Lemma candidate_content (m : Message) (a : Announcement) :
  candidate m a ->
  ann_id a = msg_id m /\
  ann_content a = trim (sanitizeContent (contentRaw m)) /\
  ann_timestamp a = msg_timestamp m.
Proof. by intros (lus & _ & ->). Qed.

(** ** The announcements route *)

Section Route.
Variable P : Platform.

(** The route once the settings are there and the upstream call has
    been answered with a success status and a body that parses: the
    answer is 200 with the cleaned list, whatever the mirror did. *)
Lemma getAnnouncements_success (st : State) (r : HttpReply)
    (raw : list ascii) (d : jsdata) :
  requireEnv P = None ->
  network P (length (fetched st)) (messagesUrl P) = Replied r ->
  reply_ok r = true ->
  reply_body r = Some raw ->
  match raw with [] => Some DNull | _ :: _ => JSON_parse P raw end = Some d ->
  exists mapped st',
    promiseAll P
      (filter (fun m => keepMessage m = true) (messagesOf d)) (afterUpstream P st)
      = (Ok mapped, st') /\
    getAnnouncements P st = (feedResponse (cleaned mapped), st').
Proof.
  intros Henv Hnet Hok Hbody Hparse.
  destruct (promiseAll_spec P
              (filter (fun m => keepMessage m = true) (messagesOf d))
              (afterUpstream P st))
    as (mapped & st' & Hmap & _).
  exists mapped, st'. split; [exact Hmap|].
  unfold getAnnouncements. rewrite Henv.
  unfold discordFetchJson, bind at 1 2 3, fetch, readBody.
  rewrite Hnet, Hbody. unfold ret at 1, bind at 1.
  fold (afterUpstream P st).
  rewrite Hparse. unfold ret at 1. cbn [fj_ok fj_status fj_data].
  rewrite Hok. cbn [negb].
  unfold bind.
  replace (match Parsed d with Parsed (DArray ms) => ms | _ => [] end)
    with (messagesOf d) by (by destruct d).
  rewrite Hmap. reflexivity.
Qed.
End Route.

Lemma nonEmpty_iff (a : Announcement) :
  nonEmpty a = true <-> ~ (ann_content a = [] /\ ann_media a = []).
Proof.
  unfold nonEmpty.
  destruct (ann_content a), (ann_media a); simpl; split; intros H;
    try reflexivity; try (intros [? ?]; discriminate).
  exfalso. by apply H.
Qed.

Lemma filter_all {A} (Q : A -> Prop) `{forall x, Decision (Q x)} (l : list A) :
  Forall Q l -> filter Q l = l.
Proof.
  induction 1 as [|x l Hx Hl IH]; [done|].
  rewrite filter_cons_True by done. by rewrite IH.
Qed.

(** C9. When the settings are there and the upstream call is answered
    with a success status and a body that is empty, or parses to [null]
    or to another value that is not an array, the route answers 200 with
    an empty list of announcements. *)
Theorem getAnnouncements_non_array (P : Platform) (st : State) (r : HttpReply)
    (raw : list ascii) :
  requireEnv P = None ->
  network P (length (fetched st)) (messagesUrl P) = Replied r ->
  reply_ok r = true ->
  reply_body r = Some raw ->
  raw = [] \/ JSON_parse P raw = Some DNull
    \/ (exists text, JSON_parse P raw = Some (DOther text)) ->
  getAnnouncements P st = (feedResponse [], afterUpstream P st).
Proof.
  intros Henv Hnet Hok Hbody Hdata.
  assert (exists d, match raw with [] => Some DNull | _ :: _ => JSON_parse P raw end = Some d
                    /\ messagesOf d = []) as (d & Hparse & Hms).
  { destruct raw as [|c raw].
    - by exists DNull.
    - destruct Hdata as [?|[H|[text H]]]; [done| |]; rewrite H; eauto. }
  destruct (getAnnouncements_success P st r raw d Henv Hnet Hok Hbody Hparse)
    as (mapped & st' & Hmap & ->).
  rewrite Hms in Hmap. change (filter _ []) with (@nil Message) in Hmap.
  rewrite promiseAll_nil in Hmap. by inversion Hmap.
Qed.

Lemma getAnnouncements_non_array_witness :
  getAnnouncements
    (samplePlatform (alwaysReply 200 (lit "{}")) (fun raw => Some (DOther raw)))
    emptyState
  = (feedResponse [],
     {| files := ∅;
        fetched := [lit "https://discord.com/api/v10/channels/42/messages?limit=20"] |}).
Proof.
  apply (getAnnouncements_non_array
           (samplePlatform (alwaysReply 200 (lit "{}")) (fun raw => Some (DOther raw)))
           emptyState {| reply_status := 200; reply_body := Some (lit "{}") |} (lit "{}")).
  - reflexivity.
  - reflexivity.
  - reflexivity.
  - reflexivity.
  - right. right. by exists (lit "{}").
Defined.

(** C3. When the bot token or the channel id is missing (not set, or
    blank), [GET /api/announcements] answers 500 with an [error] field
    that names a missing setting, and the world is left as it is: no
    fetch has been made. *)
Theorem getAnnouncements_missing_setting (P : Platform) (st : State) :
  truthy (DISCORD_BOT_TOKEN P) = false \/ truthy (DISCORD_CHANNEL_ID P) = false ->
  exists item : list ascii,
    (item = lit "DISCORD_BOT_TOKEN" /\ truthy (DISCORD_BOT_TOKEN P) = false
     \/ item = lit "DISCORD_CHANNEL_ID" /\ truthy (DISCORD_CHANNEL_ID P) = false) /\
    getAnnouncements P st =
      ({| res_status := 500; res_cache_control := None;
          res_body := ErrorBody (lit "Missing " ++ item) |}, st).
Proof.
  intros Hmissing. unfold getAnnouncements, requireEnv.
  destruct (truthy (DISCORD_BOT_TOKEN P)) eqn:Htoken; simpl.
  - destruct Hmissing as [?|Hchannel]; [done|]. rewrite Hchannel. simpl.
    exists (lit "DISCORD_CHANNEL_ID"). split; [by right|reflexivity].
  - exists (lit "DISCORD_BOT_TOKEN"). split; [by left|reflexivity].
Qed.

Lemma getAnnouncements_missing_setting_witness :
  getAnnouncements
    {| env_DISCORD_BOT_TOKEN := Some (lit "token");
       env_DISCORD_CHANNEL_ID := None;
       DOWNLOADS_DIR := lit "/srv/downloads"; path_join := joinSegment;
       path_sep := "/";
       network := alwaysReply 200 [];
       write_result := fun _ _ => Written; resume_order := [];
       JSON_parse := noParse |}
    emptyState
  = ({| res_status := 500; res_cache_control := None;
        res_body := ErrorBody (lit "Missing DISCORD_CHANNEL_ID") |}, emptyState).
Proof.
  destruct (getAnnouncements_missing_setting
              {| env_DISCORD_BOT_TOKEN := Some (lit "token");
                 env_DISCORD_CHANNEL_ID := None;
                 DOWNLOADS_DIR := lit "/srv/downloads"; path_join := joinSegment;
       path_sep := "/";
                 network := alwaysReply 200 [];
       write_result := fun _ _ => Written; resume_order := [];
                 JSON_parse := noParse |}
              emptyState) as (item & Hitem & Hrun).
  - right. reflexivity.
  - rewrite Hrun. destruct Hitem as [[_ Hfalse]|[-> _]].
    + vm_compute in Hfalse. discriminate.
    + reflexivity.
Defined.

(** C4. Once the upstream call has succeeded, and whatever the order
    in which the callbacks run, the answer of the route is made of one
    candidate announcement for every message kept, in the upstream
    order, from which the announcements with an empty content and an
    empty media list are dropped (the specification's survivors), the
    first eight of the others being returned.  In particular, twenty
    kept messages whose candidates are never empty give exactly eight
    announcements, those of the first eight messages, in order. *)
Theorem cleaned_spec :
  (forall (P : Platform) (st st' : State) (r : HttpReply) (raw : list ascii)
          (d : jsdata) (resp : Response),
     requireEnv P = None ->
     network P (length (fetched st)) (messagesUrl P) = Replied r ->
     reply_ok r = true ->
     reply_body r = Some raw ->
     match raw with [] => Some DNull | _ :: _ => JSON_parse P raw end = Some d ->
     getAnnouncements P st = (resp, st') ->
     exists mapped : list Announcement,
       Forall2 candidate (filter (fun m => keepMessage m = true) (messagesOf d)) mapped /\
       resp = feedResponse (take 8 (survivors mapped))) /\
  (forall (P : Platform) (st st' : State) (r : HttpReply) (raw : list ascii)
          (ms : list Message) (resp : Response),
     requireEnv P = None ->
     network P (length (fetched st)) (messagesUrl P) = Replied r ->
     reply_ok r = true ->
     reply_body r = Some raw ->
     raw <> [] ->
     JSON_parse P raw = Some (DArray ms) ->
     length ms = 20%nat ->
     Forall (fun m => keepMessage m = true) ms ->
     Forall (fun m => forall a, candidate m a ->
                                ~ (ann_content a = [] /\ ann_media a = [])) ms ->
     getAnnouncements P st = (resp, st') ->
     exists anns : list Announcement,
       resp = feedResponse anns /\
       length anns = 8%nat /\
       Forall2 candidate (take 8 ms) anns).
Proof.
  assert (forall mapped, cleaned mapped = take 8 (survivors mapped)) as Hsurv.
  { intros mapped. unfold cleaned, survivors. f_equal.
    apply list_filter_iff. intros a. apply nonEmpty_iff. }
  assert (forall (P : Platform) (st st' : State) (r : HttpReply) (raw : list ascii)
                 (d : jsdata) (resp : Response),
            requireEnv P = None ->
            network P (length (fetched st)) (messagesUrl P) = Replied r ->
            reply_ok r = true ->
            reply_body r = Some raw ->
            match raw with [] => Some DNull | _ :: _ => JSON_parse P raw end = Some d ->
            getAnnouncements P st = (resp, st') ->
            exists mapped : list Announcement,
              Forall2 candidate
                (filter (fun m => keepMessage m = true) (messagesOf d)) mapped /\
              resp = feedResponse (take 8 (survivors mapped))) as Hroute.
  { intros P st st' r raw d resp Henv Hnet Hok Hbody Hparse Hrun.
    destruct (getAnnouncements_success P st r raw d Henv Hnet Hok Hbody Hparse)
      as (mapped & st1 & Hmap & Hrun').
    rewrite Hrun' in Hrun. injection Hrun as <- <-.
    destruct (promiseAll_spec P
                (filter (fun m => keepMessage m = true) (messagesOf d))
                (afterUpstream P st))
      as (mapped' & st2 & Hmap' & Hcand & _).
    rewrite Hmap in Hmap'. injection Hmap' as <- <-.
    exists mapped. split; [|by rewrite Hsurv].
    eapply Forall2_impl; [exact Hcand|]. intros m a. apply candidateBy_candidate. }
  split; [exact Hroute|].
  intros P st st' r raw ms resp Henv Hnet Hok Hbody Hraw Hparse Hlen Hkeep Hfull Hrun.
  destruct (Hroute P st st' r raw (DArray ms) resp Henv Hnet Hok Hbody) as (mapped & Hcand & ->).
  { by destruct raw. }
  { exact Hrun. }
  simpl in Hcand. rewrite filter_all in Hcand by done.
  assert (survivors mapped = mapped) as ->.
  { unfold survivors. apply filter_all. clear -Hcand Hfull.
    induction Hcand as [|m a ms mapped Ha _ IH]; [constructor|].
    apply Forall_cons in Hfull as [Hm Hfull]. constructor; auto. }
  exists (take 8 mapped). split; [done|]. split.
  - rewrite length_take. apply Forall2_length in Hcand. lia.
  - by apply Forall2_take.
Qed.

Lemma cleaned_spec_witness :
  exists anns : list Announcement,
    (getAnnouncements
       (samplePlatform (alwaysReply 200 (lit "[...]")) (fun _ => Some (DArray twentyMessages)))
       emptyState).1 = feedResponse anns /\
    length anns = 8%nat /\
    Forall2 candidate (take 8 twentyMessages) anns.
Proof.
  destruct cleaned_spec as (_ & Htwenty).
  set (P := samplePlatform (alwaysReply 200 (lit "[...]"))
              (fun _ => Some (DArray twentyMessages))).
  destruct (getAnnouncements P emptyState) as [resp st'] eqn:Hrun.
  apply (Htwenty P emptyState st'
           {| reply_status := 200; reply_body := Some (lit "[...]") |}
           (lit "[...]") twentyMessages resp).
  - reflexivity.
  - reflexivity.
  - reflexivity.
  - reflexivity.
  - discriminate.
  - reflexivity.
  - reflexivity.
  - by_compute.
  - unfold twentyMessages. apply Forall_fmap, Forall_forall. intros n _ a Ha [Hc _].
    apply candidate_content in Ha as (_ & Ha & _). rewrite Ha in Hc. discriminate.
  - exact Hrun.
Defined.

(** A run of the route: the blank message is dropped, the attachment of
    the second message is mirrored, and the third message comes with
    its text. *)
Example feed_drops_blank_message :
  getAnnouncements
    (samplePlatform
       (fun n _ => Replied {| reply_status := 200;
                              reply_body := Some (if Nat.eqb n 0 then lit "[...]" else lit "PNG") |})
       (fun _ => Some (DArray
          [ textMessage (lit "1") (lit "   ");
            {| msg_id := lit "1001"; msg_type := Some 19; msg_content := None;
               msg_timestamp := None; msg_embeds := None;
               msg_attachments :=
                 Some [ {| att_url := Some sampleUrl;
                           att_content_type := Some (lit "image/png");
                           att_filename := Some (lit "cat.png") |} ] |};
            textMessage (lit "3") (lit " hello <@42> ") ])))
    emptyState
  = (feedResponse
       [ {| ann_id := lit "1001"; ann_content := []; ann_timestamp := None;
            ann_media := [ {| media_url := lit "/downloads/1001-cat.png";
                              media_type := image;
                              media_name := None; media_contentType := None |} ] |};
         {| ann_id := lit "3"; ann_content := lit "hello @user";
            ann_timestamp := Some (lit "2024-05-01T12:00:00.000000+00:00");
            ann_media := [] |} ],
     {| files := {[ lit "/srv/downloads/1001-cat.png" := lit "PNG" ]};
        fetched := [ lit "https://discord.com/api/v10/channels/42/messages?limit=20";
                     sampleUrl ] |}).
Proof. vm_compute. reflexivity. Qed.

(** ** Classification *)

Lemma test_app (at_ : list ascii -> bool) (a b : list ascii) :
  test at_ b = true -> test at_ (a ++ b) = true.
Proof.
  intros Hb. induction a as [|c a IH]; [done|].
  simpl. rewrite IH. apply orb_true_r.
Qed.

Lemma endsInGif_tests (url : list ascii) :
  endsInGif url ->
  url <> [] /\ test gifExtensionAt url = true /\ test imageExtensionAt url = true.
Proof.
  intros (base & [->|(query & ->)]).
  - split; [by destruct base|]. split; by apply test_app.
  - split; [by destruct base|]. split; by apply test_app.
Qed.

Lemma addAttachment_gif (acc : MediaAcc) (url : list ascii)
    (localUrl ct : option (list ascii)) (name : list ascii) :
  endsInGif url ->
  ct = Some (lit "image/gif") \/ ct = None ->
  addAttachment acc (Some url) localUrl (toLowerCase (orElse ct [])) name
  = add acc localUrl gif None.
Proof.
  intros Hgif Hct. apply endsInGif_tests in Hgif as (_ & Hg & Hi).
  unfold addAttachment. cbn [toString]. rewrite Hg, Hi.
  by rewrite !orb_true_r.
Qed.

(** C6. An attachment whose URL ends in [.gif], with or without a query
    string, and whose content type is [image/gif] or absent, is added
    with the type [gif]: the round of the attachment loop adds nothing
    (the URL was seen) or one item of type [gif]; and a message with this
    attachment alone yields exactly one media item, of type [gif]. *)
Theorem gif_attachment_classified_gif (P : Platform) (a : Attachment)
    (url : list ascii) :
  att_url a = Some url ->
  endsInGif url ->
  att_content_type a = Some (lit "image/gif") \/ att_content_type a = None ->
  (forall (messageId : list ascii) (acc : MediaAcc) (st : State),
     exists (acc' : MediaAcc) (st' : State) (u : list ascii),
       attachmentStep P messageId acc a st = (Ok acc', st') /\
       (acc' = acc \/
        out acc' = out acc ++ [ {| media_url := u; media_type := gif;
                                   media_name := None; media_contentType := None |} ])) /\
  (forall (m : Message) (st : State),
     msg_attachments m = Some [a] -> orEmpty (msg_embeds m) = [] ->
     exists (st' : State) (u : list ascii),
       getMediaFromMessage P m st =
         (Ok [ {| media_url := u; media_type := gif;
                  media_name := None; media_contentType := None |} ], st')).
Proof.
  intros Hurl Hgif Hct.
  assert (forall messageId acc st,
            exists st' u, u <> [] /\
              attachmentStep P messageId acc a st = (Ok (add acc (Some u) gif None), st'))
    as Hstep.
  { intros messageId acc st.
    destruct (attachmentStep_cases P messageId acc a st)
      as [(ref & st' & Hm & ->)|(e & st' & _ & ->)]; rewrite Hurl.
    - apply mirrorToLocal_Ok_inv in Hm as (source & _ & -> & _).
      exists st', (localRef (localNameOf messageId (safeFilename source))).
      split; [done|]. by rewrite addAttachment_gif.
    - exists st', url. split; [by apply endsInGif_tests in Hgif as [? _]|].
      by rewrite addAttachment_gif. }
  split.
  - intros messageId acc st.
    destruct (Hstep messageId acc st) as (st' & u & Hu & ->).
    exists (add acc (Some u) gif None), st', u. split; [done|].
    destruct (add_out acc u gif None Hu) as [Hnew Hold].
    destruct (decide (u ∈ seen acc)) as [Hin|Hin]; [left; auto|right; auto].
  - intros m st Hatt Hemb. unfold getMediaFromMessage.
    rewrite Hatt, Hemb. simpl. unfold bind at 1 2.
    destruct (Hstep (msg_id m) {| out := []; seen := ∅ |} st) as (st' & u & Hu & ->).
    unfold ret. exists st', u. cbn [fold_left].
    destruct (add_out {| out := []; seen := ∅ |} u gif None Hu) as [Hnew _].
    rewrite Hnew; [reflexivity|]. simpl. apply not_elem_of_empty.
Qed.

Lemma gif_attachment_classified_gif_witness :
  getMediaFromMessage (samplePlatform (alwaysReply 404 []) noParse)
    {| msg_id := lit "1001"; msg_type := Some 0; msg_content := None;
       msg_timestamp := None; msg_embeds := None;
       msg_attachments := Some [gifAttachment] |}
    emptyState
  = (Ok [ {| media_url := lit "https://cdn.example/a/party.gif"; media_type := gif;
             media_name := None; media_contentType := None |} ],
     {| files := ∅; fetched := [lit "https://cdn.example/a/party.gif"] |}).
Proof.
  destruct (gif_attachment_classified_gif
              (samplePlatform (alwaysReply 404 []) noParse) gifAttachment
              (lit "https://cdn.example/a/party.gif")) as [_ Hmsg].
  - reflexivity.
  - exists (lit "https://cdn.example/a/party"). by left.
  - by right.
  - destruct (Hmsg {| msg_id := lit "1001"; msg_type := Some 0; msg_content := None;
                      msg_timestamp := None; msg_embeds := None;
                      msg_attachments := Some [gifAttachment] |} emptyState)
      as (st' & u & Hrun); [reflexivity|reflexivity|].
    rewrite Hrun. revert Hrun. vm_compute. intros [= <- <-]. reflexivity.
Defined.

(** ** Embeds *)

(** C7, amended. An embed with a video URL adds at most one media item,
    whatever its image and thumbnail: the video URL with the type
    [video] when that URL has not been added yet for the message, and
    nothing when it has; its image and thumbnail are never added.  A
    message with this embed alone yields exactly that one item. *)
Theorem video_embed_adds_video (e : Embed) (v : list ascii) :
  mediaUrl (emb_video e) = Some v ->
  v <> [] ->
  (forall acc : MediaAcc,
     (v ∉ seen acc ->
        out (embedStep acc e) =
          out acc ++ [ {| media_url := v; media_type := video;
                          media_name := None; media_contentType := None |} ]) /\
     (v ∈ seen acc -> embedStep acc e = acc)) /\
  (forall (P : Platform) (m : Message) (st : State),
     orEmpty (msg_attachments m) = [] ->
     msg_embeds m = Some [e] ->
     getMediaFromMessage P m st =
       (Ok [ {| media_url := v; media_type := video;
                media_name := None; media_contentType := None |} ], st)).
Proof.
  intros Hv Hne.
  assert (forall acc, embedStep acc e = add acc (Some v) video None) as Hstep.
  { intros acc. unfold embedStep. rewrite Hv. by destruct v. }
  split.
  - intros acc. rewrite Hstep. apply (add_out acc v video None Hne).
  - intros P m st Hatt Hemb. unfold getMediaFromMessage.
    rewrite Hatt, Hemb. cbn [foldM orEmpty]. unfold bind, ret.
    cbn [fold_left]. rewrite Hstep.
    destruct (add_out {| out := []; seen := ∅ |} v video None Hne) as [Hnew _].
    rewrite Hnew; [reflexivity|]. simpl. apply not_elem_of_empty.
Qed.

Lemma video_embed_adds_video_witness :
  getMediaFromMessage (samplePlatform (alwaysReply 404 []) noParse)
    (embedMessage (lit "1001") [videoEmbed]) emptyState
  = (Ok [ {| media_url := lit "https://media.example/clip.mp4"; media_type := video;
             media_name := None; media_contentType := None |} ], emptyState).
Proof.
  destruct (video_embed_adds_video videoEmbed (lit "https://media.example/clip.mp4"))
    as [_ Hmsg].
  - reflexivity.
  - discriminate.
  - apply Hmsg; reflexivity.
Defined.

(** C7 as stated fails for an embed whose video URL is already in the
    list: of two embeds with the same video and image, the second adds
    no item at all. *)
Lemma repeated_video_embed_adds_nothing :
  truthy (mediaUrl (emb_video videoEmbed)) = true /\
  truthy (mediaUrl (emb_image videoEmbed)) = true /\
  length (out (embedStep noMedia videoEmbed)) = 1%nat /\
  out (embedStep (embedStep noMedia videoEmbed) videoEmbed)
    = out (embedStep noMedia videoEmbed) /\
  getMediaFromMessage (samplePlatform (alwaysReply 404 []) noParse)
    (embedMessage (lit "1001") [videoEmbed; videoEmbed]) emptyState
  = (Ok [ {| media_url := lit "https://media.example/clip.mp4"; media_type := video;
             media_name := None; media_contentType := None |} ], emptyState).
Proof. repeat split; vm_compute; reflexivity. Qed.

(** * Further properties *)

(** ** trim and lastSegment *)

Lemma trimStart_head (s : list ascii) (c : ascii) :
  head (trimStart s) = Some c -> isSpace c = false.
Proof.
  induction s as [|x s IH]; simpl; [done|].
  destruct (isSpace x) eqn:E; [exact IH|]. simpl. congruence.
Qed.

Lemma trimStart_fixed (s : list ascii) :
  (forall c, head s = Some c -> isSpace c = false) -> trimStart s = s.
Proof.
  destruct s as [|x s]; [done|]. simpl. intros H.
  by rewrite (H x eq_refl).
Qed.

Lemma trimEnd_nil (s : list ascii) :
  trimEnd s = [] -> forallb isSpace s = true.
Proof.
  induction s as [|x s IH]; simpl; [done|].
  destruct (trimEnd s) as [|y t]; [|done].
  destruct (isSpace x); [|done]. intros _. by apply IH.
Qed.

Lemma trimEnd_last (s : list ascii) (c : ascii) :
  last (trimEnd s) = Some c -> isSpace c = false.
Proof.
  induction s as [|x s IH]; simpl; [done|].
  destruct (trimEnd s) as [|y t] eqn:E.
  - destruct (isSpace x) eqn:Ex; simpl; congruence.
  - rewrite last_cons_cons. exact IH.
Qed.

Lemma trimEnd_head (s : list ascii) (c : ascii) :
  head s = Some c -> isSpace c = false -> head (trimEnd s) = Some c.
Proof.
  destruct s as [|x s]; simpl; [done|]. intros [= ->] Hc.
  destruct (trimEnd s); [by rewrite Hc|done].
Qed.

Lemma trimEnd_fixed (s : list ascii) :
  (forall c, last s = Some c -> isSpace c = false) -> trimEnd s = s.
Proof.
  induction s as [|x s IH]; [done|]. intros H. simpl.
  destruct s as [|y s].
  - simpl. by rewrite (H x eq_refl).
  - rewrite IH; [done|]. intros c Hc. apply H. by rewrite last_cons_cons.
Qed.

Lemma trim_head (s : list ascii) (c : ascii) :
  head (trim s) = Some c -> isSpace c = false.
Proof.
  unfold trim. intros H.
  destruct (trimStart s) as [|x t] eqn:E; [done|].
  assert (isSpace x = false) as Hx by (apply (trimStart_head s); by rewrite E).
  rewrite (trimEnd_head (x :: t) x eq_refl Hx) in H. congruence.
Qed.

(** [trim] leaves no white space at either end, and trimming again
    changes nothing. *)
Theorem trim_trimmed (s : list ascii) :
  (forall c, head (trim s) = Some c -> isSpace c = false) /\
  (forall c, last (trim s) = Some c -> isSpace c = false) /\
  trim (trim s) = trim s.
Proof.
  split; [apply trim_head|]. split; [apply trimEnd_last|].
  unfold trim at 1. rewrite trimStart_fixed by apply trim_head.
  apply trimEnd_fixed. apply trimEnd_last.
Qed.

Lemma trim_trimmed_witness : isSpace "h" = false.
Proof.
  apply (proj1 (trim_trimmed (lit "  hello world 	"))). reflexivity.
Defined.

Lemma existsb_slash (s : list ascii) :
  existsb (ch_eqb "/") s = false <-> "/"%char ∉ s.
Proof.
  induction s as [|x s IH]; simpl.
  - split; [intros _; apply not_elem_of_nil|done].
  - rewrite not_elem_of_cons, orb_false_iff, IH.
    by rewrite <- not_true_iff_false, ch_eqb_eq.
Qed.

(** [url.split("/").pop()] is the part of the URL after its last
    ["/"]: it contains no ["/"], and what precedes it is empty or ends
    with ["/"]. *)
Theorem lastSegment_split (s : list ascii) :
  exists pre : list ascii,
    s = pre ++ lastSegment s /\
    ("/"%char ∉ lastSegment s) /\
    (pre = [] \/ last pre = Some "/"%char).
Proof.
  induction s as [|x s (pre & Hs & Hno & Hpre)].
  - exists []. repeat split; [apply not_elem_of_nil|by left].
  - simpl. destruct (existsb (ch_eqb "/") s) eqn:E.
    + exists (x :: pre). split; [simpl; by rewrite <- Hs|]. split; [done|].
      right. destruct Hpre as [->|Hl].
      * simpl in Hs. rewrite <- Hs in Hno. apply existsb_slash in Hno. congruence.
      * destruct pre; [done|]. by rewrite last_cons_cons.
    + apply existsb_slash in E. destruct (ch_eqb x "/") eqn:Ex.
      * apply ch_eqb_eq in Ex. subst. exists ["/"%char]. repeat split; [done|by right].
      * exists []. split; [done|]. split; [|by left].
        apply not_elem_of_cons. split; [|done].
        intros <-. by rewrite ch_eqb_refl in Ex.
Qed.

Lemma lastSegment_split_witness :
  exists pre : list ascii,
    lit "https://cdn.example/a/cat.png" = pre ++ lit "cat.png".
Proof.
  destruct (lastSegment_split (lit "https://cdn.example/a/cat.png"))
    as (pre & Hsplit & _).
  exists pre. exact Hsplit.
Defined.

(** ** safeFilename, further *)

Lemma replaceFrom_length (m : matcher) (rep s : list ascii) :
  m [] = None -> (forall t, m t <> Some O) -> (length rep <= 1)%nat ->
  forall k, (length (replaceFrom m rep k s) <= length s)%nat.
Proof.
  intros Hnil Hpos Hrep. induction s as [|c s IH]; intros k; simpl.
  - rewrite Hnil. destruct k; simpl; lia.
  - destruct k as [|k]; [|specialize (IH k); lia].
    destruct (m (c :: s)) as [[|n]|] eqn:E.
    + by apply Hpos in E.
    + rewrite length_app. specialize (IH n). lia.
    + simpl. specialize (IH 0%nat). lia.
Qed.

Lemma matchUnsafeRun_pos (t : list ascii) : matchUnsafeRun t <> Some O.
Proof. unfold matchUnsafeRun. by destruct (spanLength _ t). Qed.

Lemma matchTrailingUnderscores_pos (t : list ascii) :
  matchTrailingUnderscores t <> Some O.
Proof.
  unfold matchTrailingUnderscores. destruct t; [done|].
  by destruct (forallb isUnderscore _).
Qed.

Lemma spanLength_drop_head (f : ascii -> bool) (s : list ascii) (c : ascii) :
  head (drop (spanLength f s) s) = Some c -> f c = false.
Proof.
  induction s as [|x s IH]; simpl; [done|].
  destruct (f x) eqn:E; simpl; [exact IH|congruence].
Qed.

Lemma trailing_all (x : list ascii) :
  forallb isUnderscore x = true ->
  replaceFrom matchTrailingUnderscores [] 0 x = [].
Proof.
  intros Hall. destruct x as [|c x]; [done|].
  change (replaceFrom matchTrailingUnderscores [] 0 (c :: x))
    with (match matchTrailingUnderscores (c :: x) with
          | Some (S k) => [] ++ replaceFrom matchTrailingUnderscores [] k x
          | Some O => [] ++ c :: replaceFrom matchTrailingUnderscores [] 0 x
          | None => c :: replaceFrom matchTrailingUnderscores [] 0 x
          end).
  unfold matchTrailingUnderscores. rewrite Hall. cbn [length app].
  rewrite <- (app_nil_r x) at 2. by rewrite replaceFrom_skip.
Qed.

Lemma trailing_step (c : ascii) (x : list ascii) :
  forallb isUnderscore (c :: x) = false ->
  replaceFrom matchTrailingUnderscores [] 0 (c :: x)
  = c :: replaceFrom matchTrailingUnderscores [] 0 x.
Proof.
  intros Hall.
  change (replaceFrom matchTrailingUnderscores [] 0 (c :: x))
    with (match matchTrailingUnderscores (c :: x) with
          | Some (S k) => [] ++ replaceFrom matchTrailingUnderscores [] k x
          | Some O => [] ++ c :: replaceFrom matchTrailingUnderscores [] 0 x
          | None => c :: replaceFrom matchTrailingUnderscores [] 0 x
          end).
  unfold matchTrailingUnderscores. by rewrite Hall.
Qed.

Lemma trailing_nil (x : list ascii) :
  replaceFrom matchTrailingUnderscores [] 0 x = [] ->
  forallb isUnderscore x = true.
Proof.
  destruct x as [|c x]; [done|].
  destruct (forallb isUnderscore (c :: x)) eqn:E; [done|].
  by rewrite trailing_step.
Qed.

Lemma trailing_last (x : list ascii) :
  last (replaceFrom matchTrailingUnderscores [] 0 x) <> Some "_"%char.
Proof.
  induction x as [|c x IH]; [done|].
  destruct (forallb isUnderscore (c :: x)) eqn:E.
  - by rewrite trailing_all.
  - rewrite trailing_step by done.
    destruct (replaceFrom matchTrailingUnderscores [] 0 x) as [|y t] eqn:Et.
    + apply trailing_nil in Et. simpl in E. rewrite Et, andb_true_r in E.
      simpl. intros [= ->]. discriminate.
    + by rewrite last_cons_cons.
Qed.

Lemma trailing_fixed (x : list ascii) :
  last x <> Some "_"%char ->
  replaceFrom matchTrailingUnderscores [] 0 x = x.
Proof.
  induction x as [|c x IH]; [done|]. intros Hlast.
  assert (forallb isUnderscore (c :: x) = false) as Hall.
  { destruct (forallb isUnderscore (c :: x)) eqn:E; [|done].
    exfalso. apply Hlast. clear -E.
    revert c E. induction x as [|y x IH]; intros c E.
    - simpl in *. rewrite andb_true_r in E. apply ch_eqb_eq in E. by subst.
    - rewrite last_cons_cons. apply IH. simpl in *. by apply andb_prop in E as [_ ?]. }
  rewrite trailing_step by done. f_equal.
  destruct x as [|y x]; [done|]. apply IH. by rewrite last_cons_cons in Hlast.
Qed.

Lemma unsafe_fixed (rep s : list ascii) :
  Forall (fun c => isSafeChar c = true) s ->
  replaceAll matchUnsafeRun rep s = s.
Proof.
  unfold replaceAll. induction 1 as [|c s Hc Hs IH]; [done|].
  simpl. unfold matchUnsafeRun at 1. simpl. rewrite Hc. simpl. by rewrite IH.
Qed.

Lemma trimUnderscores_head (s : list ascii) :
  head (trimUnderscores s) <> Some "_"%char.
Proof.
  unfold trimUnderscores, replaceAll.
  destruct (drop (spanLength isUnderscore s) s) as [|c x] eqn:E; [done|].
  assert (isUnderscore c = false) as Hc
    by (apply (spanLength_drop_head isUnderscore s); by rewrite E).
  rewrite trailing_step by (simpl; by rewrite Hc).
  simpl. intros [= ->]. discriminate.
Qed.

Lemma trimUnderscores_length (s : list ascii) :
  (length (trimUnderscores s) <= length s)%nat.
Proof.
  unfold trimUnderscores, replaceAll.
  etrans; [apply replaceFrom_length|].
  - done.
  - apply matchTrailingUnderscores_pos.
  - simpl. lia.
  - rewrite length_drop. lia.
Qed.

Lemma underscored_length (s : list ascii) :
  (length (replaceAll matchUnsafeRun (lit "_") s) <= length s)%nat.
Proof.
  apply replaceFrom_length; [done|apply matchUnsafeRun_pos|simpl; lia].
Qed.

Lemma safeFilename_fixed (name : list ascii) :
  Forall (fun c => isSafeChar c = true) name ->
  head name <> Some "_"%char ->
  last name <> Some "_"%char ->
  (length name <= 180)%nat ->
  safeFilename name = name.
Proof.
  intros Hsafe Hhead Hlast Hlen. unfold safeFilename.
  rewrite unsafe_fixed by done. unfold trimUnderscores, replaceAll.
  assert (spanLength isUnderscore name = 0%nat) as ->.
  { destruct name as [|c s]; [done|]. simpl.
    destruct (isUnderscore c) eqn:E; [|done].
    apply ch_eqb_eq in E. by subst. }
  rewrite drop_0, trailing_fixed by done. by apply take_ge.
Qed.

Lemma safeFilename_head (name : list ascii) :
  head (safeFilename name) <> Some "_"%char.
Proof.
  unfold safeFilename.
  pose proof (trimUnderscores_head (replaceAll matchUnsafeRun (lit "_") name)) as H.
  destruct (trimUnderscores _); [done|]. exact H.
Qed.

Lemma safeFilename_shorter (name : list ascii) :
  (length (safeFilename name) <= length name)%nat.
Proof.
  unfold safeFilename. rewrite length_take.
  pose proof (trimUnderscores_length (replaceAll matchUnsafeRun (lit "_") name)).
  pose proof (underscored_length name). lia.
Qed.

Lemma safeFilename_last (name : list ascii) :
  (length name <= 180)%nat -> last (safeFilename name) <> Some "_"%char.
Proof.
  intros Hlen. unfold safeFilename. rewrite take_ge.
  - apply trailing_last.
  - pose proof (trimUnderscores_length (replaceAll matchUnsafeRun (lit "_") name)).
    pose proof (underscored_length name). lia.
Qed.

(** X2. The sanitized name never starts with an underscore and is never
    longer than the given name; when the given name has at most 180
    code units it does not end with an underscore either. *)
Theorem safeFilename_shape (name : list ascii) :
  head (safeFilename name) <> Some "_"%char /\
  (length (safeFilename name) <= length name)%nat /\
  ((length name <= 180)%nat -> last (safeFilename name) <> Some "_"%char).
Proof.
  split; [apply safeFilename_head|]. split; [apply safeFilename_shorter|].
  apply safeFilename_last.
Qed.

Lemma safeFilename_shape_witness :
  last (safeFilename (lit "__my cat__.png??")) <> Some "_"%char.
Proof.
  apply (safeFilename_shape (lit "__my cat__.png??")). simpl. lia.
Defined.

(** X3. A name of at most 180 code units, all in [[A-Za-z0-9._-]], that
    neither starts nor ends with an underscore is returned as it is. *)
Theorem safeFilename_clean_name (name : list ascii) :
  Forall (fun c => isSafeChar c = true) name ->
  head name <> Some "_"%char ->
  last name <> Some "_"%char ->
  (length name <= 180)%nat ->
  safeFilename name = name.
Proof. apply safeFilename_fixed. Qed.

Lemma safeFilename_clean_name_witness :
  safeFilename (lit "cat_1.final-v2.PNG") = lit "cat_1.final-v2.PNG".
Proof.
  apply safeFilename_clean_name.
  - by_compute.
  - discriminate.
  - discriminate.
  - simpl. lia.
Defined.

(** X4. On names of at most 180 code units [safeFilename] is
    idempotent. *)
Theorem safeFilename_idempotent (name : list ascii) :
  (length name <= 180)%nat ->
  safeFilename (safeFilename name) = safeFilename name.
Proof.
  intros Hlen. apply safeFilename_fixed.
  - apply safeFilename_safe.
  - apply safeFilename_head.
  - by apply safeFilename_last.
  - apply safeFilename_length.
Qed.

Lemma safeFilename_idempotent_witness :
  safeFilename (safeFilename (lit "__my cat__.png??"))
  = safeFilename (lit "__my cat__.png??").
Proof. apply safeFilename_idempotent. simpl. lia. Defined.

(** Past 180 code units the cut can leave an underscore at the end,
    which a second pass removes. *)
Example safeFilename_cut_not_idempotent :
  safeFilename (replicate 179 "a"%char ++ lit "_b") = replicate 179 "a"%char ++ lit "_" /\
  safeFilename (replicate 179 "a"%char ++ lit "_") = replicate 179 "a"%char.
Proof. split; vm_compute; reflexivity. Qed.

(** ** mirrorToLocal, further *)

Ltac unchanged_world :=
  simpl; split; [|split; [|split]];
  [ by intros ? ? ? | by intros ? ? | eauto | try done; by intros ? ? ? ? ].

Lemma mirrorToLocal_effects (P : Platform) (url : option (list ascii))
    (messageId : list ascii) (filename : option (list ascii))
    (st st' : State) (r : Res (list ascii)) :
  mirrorToLocal P url messageId filename st = (r, st') ->
  filesKept st st' /\
  (forall e, r = Throw e -> e <> WriteFailed -> files st' = files st) /\
  (fetched st' = fetched st \/
   exists u, url = Some u /\ fetched st' = fetched st ++ [u]) /\
  (forall source, nameSource url filename = Ok source ->
     forall p, p <> localPathOf P (localNameOf messageId (safeFilename source)) ->
               files st' !! p = files st !! p).
Proof.
  unfold mirrorToLocal, bind, lift, existsSync, fetch, readBody, writeFileSync, filesKept.
  destruct (nameSource url filename) as [source|e0] eqn:Hsrc;
    [|intros [= <- <-]; unchanged_world].
  case_bool_decide as Hex; [unfold ret; intros [= <- <-]; unchanged_world|].
  destruct url as [u|]; [|intros [= <- <-]; unchanged_world].
  destruct (network P (length (fetched st)) u) as [|rep];
    [intros [= <- <-]; unchanged_world|].
  destruct (reply_ok rep); simpl;
    [|unfold throw; intros [= <- <-]; unchanged_world].
  destruct (reply_body rep) as [buf|]; simpl;
    [|unfold throw; intros [= <- <-]; unchanged_world].
  unfold ret. simpl.
  destruct (write_result P _ buf) as [|[part|]];
    [| |intros [= <- <-]; unchanged_world].
  - intros [= <- <-]. simpl. split; [|split; [|split]].
    + intros p c Hp. rewrite lookup_insert_ne; [done|].
      intros <-. apply Hex. rewrite Hp. eauto.
    + done.
    + eauto.
    + intros source' [= <-] p Hp. by rewrite lookup_insert_ne.
  - intros [= <- <-]. simpl. split; [|split; [|split]].
    + intros p c Hp. rewrite lookup_insert_ne; [done|].
      intros <-. apply Hex. rewrite Hp. eauto.
    + by intros e [= <-] He.
    + eauto.
    + intros source' [= <-] p Hp. by rewrite lookup_insert_ne.
Qed.

(** X5. [mirrorToLocal] never changes or removes a file that is already
    there, and whatever it returns or throws, the only path at which the
    directory can differ afterwards is the local path it computed. *)
Theorem mirrorToLocal_never_overwrites (P : Platform) (url : option (list ascii))
    (messageId : list ascii) (filename : option (list ascii))
    (st st' : State) (r : Res (list ascii)) :
  mirrorToLocal P url messageId filename st = (r, st') ->
  (forall p c, files st !! p = Some c -> files st' !! p = Some c) /\
  (forall source, nameSource url filename = Ok source ->
     forall p, p <> localPathOf P (localNameOf messageId (safeFilename source)) ->
               files st' !! p = files st !! p).
Proof.
  intros Hrun. apply mirrorToLocal_effects in Hrun as (Hkept & _ & _ & Hframe).
  split; [exact Hkept|exact Hframe].
Qed.

Lemma mirrorToLocal_never_overwrites_witness :
  files mirroredState !! lit "/srv/downloads/1001-cat.png" = Some (lit "PNG").
Proof.
  refine (proj1 (mirrorToLocal_never_overwrites
                   (samplePlatform (alwaysReply 200 (lit "NEW")) noParse)
                   (Some sampleUrl) (lit "1001") (Some (lit "cat.png"))
                   mirroredState mirroredState (Ok (lit "/downloads/1001-cat.png")) _)
                _ _ _).
  - vm_compute. reflexivity.
  - vm_compute. reflexivity.
Defined.

(** X6. A call of [mirrorToLocal] makes at most one fetch, of the URL it
    was given.  A call that throws for another reason than a failed
    write leaves the directory as it was.  A call that throws for a
    failed write had fetched the body with a success status for a file
    that was not there; the directory is as it was, or holds at the
    local path what the failed write left behind. *)
Theorem mirrorToLocal_failure_effects (P : Platform)
    (url : option (list ascii)) (messageId : list ascii)
    (filename : option (list ascii)) (st st' : State) (r : Res (list ascii)) :
  mirrorToLocal P url messageId filename st = (r, st') ->
  (fetched st' = fetched st \/
   exists u, url = Some u /\ fetched st' = fetched st ++ [u]) /\
  (forall e, r = Throw e -> e <> WriteFailed -> files st' = files st) /\
  (r = Throw WriteFailed ->
   exists (source u : list ascii) (rep : HttpReply) (buf : list ascii),
     nameSource url filename = Ok source /\ url = Some u /\
     files st !! localPathOf P (localNameOf messageId (safeFilename source)) = None /\
     network P (length (fetched st)) u = Replied rep /\
     reply_ok rep = true /\ reply_body rep = Some buf /\
     ((write_result P (localPathOf P (localNameOf messageId (safeFilename source))) buf
         = WriteThrows None /\
       files st' = files st)
      \/ exists part : list ascii,
           write_result P (localPathOf P (localNameOf messageId (safeFilename source))) buf
             = WriteThrows (Some part) /\
           files st' =
             <[localPathOf P (localNameOf messageId (safeFilename source)) := part]>
               (files st))).
Proof.
  intros Hrun. pose proof Hrun as Heff.
  apply mirrorToLocal_effects in Heff as (_ & Hthrow & Hfetch & _).
  split; [exact Hfetch|]. split; [exact Hthrow|].
  intros ->. revert Hrun. rewrite mirrorToLocal_parts.
  destruct (nameSource url filename) as [source|e] eqn:Hsrc.
  2:{ unfold mirrorStart, bind, lift. rewrite Hsrc. intros [= -> <-].
      unfold nameSource in Hsrc. destruct (truthy filename), url; discriminate. }
  destruct (mirrorStart_cases P url messageId filename source st Hsrc)
    as [[Hex ->]|[Hno [[-> ->]|(u & -> & [[e Hrun]|(rep & buf & Hnet & Hok & Hbody & ->)])]]];
    try discriminate.
  - rewrite Hrun. intros [= -> <-].
    revert Hrun. unfold mirrorStart, bind, lift, existsSync, fetch, readBody, throw, ret.
    rewrite Hsrc. rewrite bool_decide_eq_false_2 by (rewrite Hno; by intros [? ?]).
    destruct (network P (length (fetched st)) u) as [|rep]; [discriminate|].
    destruct (reply_ok rep); simpl; [|discriminate].
    destruct (reply_body rep); discriminate.
  - pose proof (mirrorFinish_cases P (localNameOf messageId (safeFilename source)) buf
                  {| files := files st; fetched := fetched st ++ [u] |}) as Hw.
    destruct (write_result P _ buf) as [|[part|]] eqn:Hres; rewrite Hw; try discriminate.
    + intros [= <-]. exists source, u, rep, buf.
      repeat (split; [done|]). right. exists part. by split.
    + intros [= <-]. exists source, u, rep, buf.
      repeat (split; [done|]). left. by split.
Qed.

Lemma mirrorToLocal_failure_effects_witness :
  files {| files := ∅; fetched := [sampleUrl] |} = files emptyState.
Proof.
  refine (proj1 (proj2 (mirrorToLocal_failure_effects
                   (samplePlatform (alwaysReply 404 (lit "gone")) noParse)
                   (Some sampleUrl) (lit "1001") (Some (lit "cat.png"))
                   emptyState {| files := ∅; fetched := [sampleUrl] |}
                   (Throw (MirrorFetchFailed 404)) _)) (MirrorFetchFailed 404) eq_refl _).
  - vm_compute. reflexivity.
  - discriminate.
Defined.

(** X7. With a file name given, the local name does not depend on the
    URL: once an attachment is mirrored, a call for the same message id
    and file name with any other URL returns the same reference without
    fetching that URL. *)
Theorem mirrorToLocal_key_ignores_url (P : Platform)
    (url1 url2 : option (list ascii)) (messageId filename : list ascii)
    (st st1 : State) (ref : list ascii) :
  filename <> [] ->
  mirrorToLocal P url1 messageId (Some filename) st = (Ok ref, st1) ->
  mirrorToLocal P url2 messageId (Some filename) st1 = (Ok ref, st1).
Proof.
  intros Hname Hrun.
  assert (forall url, nameSource url (Some filename) = Ok filename) as Hsrc
    by (intros url; by destruct filename).
  apply mirrorToLocal_Ok_inv in Hrun as (source & Hs & -> & Hfile & _).
  rewrite Hsrc in Hs. injection Hs as <-.
  apply mirrorToLocal_hit; [apply Hsrc|exact Hfile].
Qed.

Lemma mirrorToLocal_key_ignores_url_witness :
  mirrorToLocal (samplePlatform (alwaysReply 200 (lit "PNG")) noParse)
    (Some (lit "https://elsewhere.example/other.png")) (lit "1001")
    (Some (lit "cat.png")) mirroredState
  = (Ok (lit "/downloads/1001-cat.png"), mirroredState).
Proof.
  apply (mirrorToLocal_key_ignores_url _ (Some sampleUrl) _ _ _ emptyState).
  - discriminate.
  - vm_compute. reflexivity.
Defined.

(** ** getMediaFromMessage, further *)

Lemma advances_refl (acc : MediaAcc) : advances acc acc.
Proof. split; [done|]. split; [done|lia]. Qed.

Lemma add_advances (acc : MediaAcc) (url : option (list ascii))
    (type : MediaType) (extra : option (list ascii * list ascii)) :
  (type = file -> is_Some extra) ->
  (type <> file -> extra = None) ->
  advances acc (add acc url type extra).
Proof.
  intros Hfile Hother. unfold add.
  destruct url as [[|c r]|]; try apply advances_refl.
  case_bool_decide as Hseen; [apply advances_refl|].
  split; [|split]; simpl.
  - intros (Hagree & Hnodup & Hall). split; [|split]; simpl.
    + intros u. rewrite fmap_app, elem_of_union, elem_of_singleton, elem_of_app.
      rewrite Hagree. simpl. rewrite list_elem_of_singleton. tauto.
    + rewrite fmap_app. apply NoDup_app. split; [done|]. split.
      * intros u Hu. simpl. rewrite list_elem_of_singleton. intros ->.
        apply Hseen. by apply Hagree.
      * simpl. apply NoDup_singleton.
    + apply Forall_app. split; [done|]. constructor; [|constructor].
      split; [done|]. unfold fileFieldsOk. simpl.
      destruct type; try (rewrite Hother by done; done).
      destruct (Hfile eq_refl) as [[n ct] ->]. simpl. split; eauto.
  - by apply prefix_app_r.
  - rewrite length_app. simpl. lia.
Qed.

Lemma addAttachment_advances (acc : MediaAcc)
    (originalUrl localUrl : option (list ascii)) (ct name : list ascii) :
  advances acc (addAttachment acc originalUrl localUrl ct name).
Proof.
  unfold addAttachment.
  repeat match goal with |- context [if ?b then _ else _] => destruct b end;
    apply add_advances; (done || eauto).
Qed.

Lemma embedStep_advances (acc : MediaAcc) (e : Embed) :
  advances acc (embedStep acc e).
Proof.
  unfold embedStep, gifOrImage.
  repeat match goal with |- context [if ?b then _ else _] => destruct b end;
    try apply advances_refl; apply add_advances; (done || eauto).
Qed.

Lemma embeds_fold (l : list Embed) (acc : MediaAcc) :
  (accOk acc -> accOk (fold_left embedStep l acc)) /\
  out acc `prefix_of` out (fold_left embedStep l acc) /\
  (length (out (fold_left embedStep l acc)) <= length (out acc) + length l)%nat.
Proof.
  revert acc. induction l as [|e l IH]; intros acc; simpl.
  - split; [done|]. split; [done|lia].
  - destruct (embedStep_advances acc e) as (Hok & Hpre & Hlen).
    destruct (IH (embedStep acc e)) as (Hok' & Hpre' & Hlen').
    split; [auto|]. split; [by etrans|lia].
Qed.

Section MediaEffects.
Variable P : Platform.

Lemma attachmentStep_spec (messageId : list ascii) (acc : MediaAcc)
    (a : Attachment) (st : State) :
  exists acc' st',
    attachmentStep P messageId acc a st = (Ok acc', st') /\
    advances acc acc' /\
    filesKept st st' /\
    (fetched st' = fetched st \/
     exists u, att_url a = Some u /\ fetched st' = fetched st ++ [u]).
Proof.
  destruct (attachmentStep_cases P messageId acc a st)
    as [(ref & st' & Hm & ->)|(e & st' & Hm & ->)];
    apply mirrorToLocal_effects in Hm as (Hkept & _ & Hfetch & _);
    eexists _, st'; (split; [reflexivity|]);
    (split; [apply addAttachment_advances|]); split; done.
Qed.

Lemma attachments_fold (messageId : list ascii) (l : list Attachment) :
  forall (acc : MediaAcc) (st : State),
  exists acc' st' extra,
    foldM (attachmentStep P messageId) acc l st = (Ok acc', st') /\
    (accOk acc -> accOk acc') /\
    out acc `prefix_of` out acc' /\
    (length (out acc') <= length (out acc) + length l)%nat /\
    filesKept st st' /\
    fetched st' = fetched st ++ extra /\
    (length extra <= length l)%nat /\
    Forall (fun u => exists a, a ∈ l /\ att_url a = Some u) extra.
Proof.
  induction l as [|a l IH]; intros acc st; simpl.
  - exists acc, st, []. unfold ret. rewrite app_nil_r.
    split; [reflexivity|]. split; [done|]. split; [done|]. split; [lia|].
    split; [by intros ? ? ?|]. split; [done|]. split; [simpl; lia|constructor].
  - destruct (attachmentStep_spec messageId acc a st)
      as (acc1 & st1 & Hstep & (Hok & Hpre & Hlen) & Hkept & Hfetch).
    destruct (IH acc1 st1)
      as (acc' & st' & extra & Hrun & Hok' & Hpre' & Hlen' & Hkept' & Hfetch' & Hn & Hall).
    unfold bind. rewrite Hstep, Hrun.
    assert (Forall (fun u => exists a0, a0 ∈ a :: l /\ att_url a0 = Some u) extra) as Hall'.
    { eapply Forall_impl; [exact Hall|]. intros u (a0 & Hin & Hu).
      exists a0. split; [by right|done]. }
    assert (filesKept st st') as Hkept''
      by (intros p c Hp; by apply Hkept', Hkept).
    destruct Hfetch as [Hsame|(u & Hu & Hone)].
    + exists acc', st', extra. rewrite Hfetch', Hsame.
      split; [reflexivity|]. split; [auto|]. split; [by etrans|].
      split; [lia|]. split; [done|]. split; [done|]. split; [lia|done].
    + exists acc', st', (u :: extra). rewrite Hfetch', Hone, <- app_assoc.
      split; [reflexivity|]. split; [auto|]. split; [by etrans|].
      split; [lia|]. split; [done|]. split; [done|]. split; [simpl; lia|].
      constructor; [|done]. exists a. split; [left|done].
Qed.

(** What a run of [getMediaFromMessage] does, in one statement. *)
Lemma getMediaFromMessage_spec (m : Message) (st : State) :
  exists (acc : MediaAcc) (st' : State) (extra : list (list ascii)),
    foldM (attachmentStep P (msg_id m)) {| out := []; seen := ∅ |}
      (orEmpty (msg_attachments m)) st = (Ok acc, st') /\
    getMediaFromMessage P m st
      = (Ok (out (fold_left embedStep (orEmpty (msg_embeds m)) acc)), st') /\
    accOk acc /\
    accOk (fold_left embedStep (orEmpty (msg_embeds m)) acc) /\
    (length (out acc) <= length (orEmpty (msg_attachments m)))%nat /\
    filesKept st st' /\
    fetched st' = fetched st ++ extra /\
    (length extra <= length (orEmpty (msg_attachments m)))%nat /\
    Forall (fun u => exists a, a ∈ orEmpty (msg_attachments m) /\ att_url a = Some u)
      extra.
Proof.
  destruct (attachments_fold (msg_id m) (orEmpty (msg_attachments m))
              {| out := []; seen := ∅ |} st)
    as (acc & st' & extra & Hrun & Hok & _ & Hlen & Hkept & Hfetch & Hn & Hall).
  assert (accOk {| out := []; seen := ∅ |}) as Hempty.
  { split; [|split]; simpl.
    - intros u. rewrite elem_of_empty. split; [done|]. apply not_elem_of_nil.
    - constructor.
    - constructor. }
  exists acc, st', extra. split; [exact Hrun|].
  split; [unfold getMediaFromMessage, bind; by rewrite Hrun|].
  split; [auto|]. split; [apply embeds_fold; auto|].
  repeat split; auto.
Qed.
End MediaEffects.

(** X9. The media list of a message never lists a URL twice and never
    holds an empty URL. *)
Theorem getMediaFromMessage_distinct_urls (P : Platform) (m : Message)
    (st st' : State) (media : list MediaItem) :
  getMediaFromMessage P m st = (Ok media, st') ->
  NoDup (map media_url media) /\ Forall (fun i => media_url i <> []) media.
Proof.
  destruct (getMediaFromMessage_spec P m st)
    as (acc & st1 & extra & _ & -> & _ & (_ & Hnodup & Hall) & _).
  intros [= <- <-]. split; [exact Hnodup|].
  eapply Forall_impl; [exact Hall|]. by intros i [? _].
Qed.

Lemma getMediaFromMessage_distinct_urls_witness :
  NoDup (map media_url
           [ {| media_url := lit "https://media.example/clip.mp4"; media_type := video;
                media_name := None; media_contentType := None |} ]).
Proof.
  refine (proj1 (getMediaFromMessage_distinct_urls
                   (samplePlatform (alwaysReply 404 []) noParse)
                   (embedMessage (lit "1001") [videoEmbed; videoEmbed])
                   emptyState emptyState _ _)).
  vm_compute. reflexivity.
Defined.

(** X10. Only an item of type [file] carries [name] and [contentType],
    and every such item carries both. *)
Theorem getMediaFromMessage_file_fields (P : Platform) (m : Message)
    (st st' : State) (media : list MediaItem) :
  getMediaFromMessage P m st = (Ok media, st') ->
  Forall (fun i =>
            match media_type i with
            | file => is_Some (media_name i) /\ is_Some (media_contentType i)
            | _ => media_name i = None /\ media_contentType i = None
            end) media.
Proof.
  destruct (getMediaFromMessage_spec P m st)
    as (acc & st1 & extra & _ & -> & _ & (_ & _ & Hall) & _).
  intros [= <- <-].
  eapply Forall_impl; [exact Hall|]. by intros i [_ ?].
Qed.

(** X11. A message yields at most one media item per attachment and per
    embed; its attachments come first: the media of the message without
    its embeds are the beginning of its media, and the world ends up the
    same with or without the embeds. *)
Theorem getMediaFromMessage_attachments_first (P : Platform) (m : Message)
    (st st' : State) (media : list MediaItem) :
  getMediaFromMessage P m st = (Ok media, st') ->
  (length media <= length (orEmpty (msg_attachments m))
                   + length (orEmpty (msg_embeds m)))%nat /\
  exists fromAttachments : list MediaItem,
    getMediaFromMessage P (withoutEmbeds m) st = (Ok fromAttachments, st') /\
    fromAttachments `prefix_of` media /\
    (length fromAttachments <= length (orEmpty (msg_attachments m)))%nat.
Proof.
  destruct (getMediaFromMessage_spec P m st)
    as (acc & st1 & extra & Hrun & -> & _ & _ & Hlen & _).
  intros [= <- <-].
  destruct (embeds_fold (orEmpty (msg_embeds m)) acc) as (_ & Hpre & Hlen').
  split; [lia|]. exists (out acc).
  split; [|split; [exact Hpre|exact Hlen]].
  unfold getMediaFromMessage, bind. simpl. by rewrite Hrun.
Qed.



Lemma getMediaFromMessage_file_fields_witness :
  Forall (fun i =>
            match media_type i with
            | file => is_Some (media_name i) /\ is_Some (media_contentType i)
            | _ => media_name i = None /\ media_contentType i = None
            end)
    [ {| media_url := lit "https://cdn.example/a/plan.pdf"; media_type := file;
         media_name := Some (lit "plan.pdf");
         media_contentType := Some (lit "application/pdf") |} ].
Proof.
  refine (getMediaFromMessage_file_fields
            (samplePlatform (alwaysReply 404 []) noParse)
            {| msg_id := lit "1001"; msg_type := Some 0; msg_content := None;
               msg_timestamp := None; msg_embeds := None;
               msg_attachments :=
                 Some [ {| att_url := Some (lit "https://cdn.example/a/plan.pdf");
                           att_content_type := Some (lit "Application/PDF");
                           att_filename := Some (lit "plan.pdf") |} ] |}
            emptyState
            {| files := ∅; fetched := [lit "https://cdn.example/a/plan.pdf"] |} _ _).
  vm_compute. reflexivity.
Defined.

Lemma getMediaFromMessage_attachments_first_witness :
  (length [ {| media_url := lit "https://media.example/clip.mp4"; media_type := video;
               media_name := None; media_contentType := None |} ]
   <= 0 + 2)%nat.
Proof.
  refine (proj1 (getMediaFromMessage_attachments_first
                   (samplePlatform (alwaysReply 404 []) noParse)
                   (embedMessage (lit "1001") [videoEmbed; videoEmbed])
                   emptyState emptyState _ _)).
  vm_compute. reflexivity.
Defined.

(** ** The announcements route, further *)




Section RouteEffects.
Variable P : Platform.

Lemma addAttachments_ok (settled : list (Attachment * option (list ascii))) :
  forall acc : MediaAcc,
    (accOk acc -> accOk (addAttachments acc settled)) /\
    (length (out (addAttachments acc settled)) <= length (out acc) + length settled)%nat.
Proof.
  unfold addAttachments.
  induction settled as [|[a lu] settled IH]; intros acc; simpl; [split; [done|lia]|].
  destruct (addAttachment_advances acc (att_url a) lu (attType a) (attName a))
    as (Hok & _ & Hlen).
  destruct (IH (addAttachment acc (att_url a) lu (attType a) (attName a))) as [Hok' Hlen'].
  split; [auto|lia].
Qed.

(** A candidate lists no URL twice, and has no more media than the
    message has attachments and embeds. *)
Lemma candidate_built (m : Message) (a : Announcement) :
  candidate m a -> builtFrom m a.
Proof.
  intros (lus & Hlus & ->). unfold announcementWith, mediaWith.
  split; [done|]. split; [done|]. split; [done|]. simpl.
  assert (accOk {| out := []; seen := ∅ |}) as Hempty.
  { split; [|split]; simpl.
    - intros u. rewrite elem_of_empty. split; [done|]. apply not_elem_of_nil.
    - constructor.
    - constructor. }
  destruct (addAttachments_ok (zip (orEmpty (msg_attachments m)) lus)
              {| out := []; seen := ∅ |}) as [Hok Hlen].
  destruct (embeds_fold (orEmpty (msg_embeds m))
              (addAttachments {| out := []; seen := ∅ |}
                 (zip (orEmpty (msg_attachments m)) lus))) as (Hok' & _ & Hlen').
  split.
  - by destruct (Hok' (Hok Hempty)) as (_ & Hnodup & _).
  - rewrite length_zip in Hlen. simpl in Hlen. lia.
Qed.

(** [Promise.all] over the callbacks, in one statement. *)
Lemma announcements_all (ms : list Message) :
  forall st : State,
  exists (mapped : list Announcement) (st' : State) (extra : list (list ascii)),
    promiseAll P ms st = (Ok mapped, st') /\
    Forall2 builtFrom ms mapped /\
    filesKept st st' /\
    fetched st' = fetched st ++ extra /\
    (length extra <= attachmentCount ms)%nat /\
    Forall (attachmentUrlOf ms) extra.
Proof.
  intros st.
  destruct (promiseAll_spec P ms st)
    as (mapped & st' & Hrun & Hcand & Hkept & _ & extra & Hfetch & Hurls & Hn).
  exists mapped, st', extra. split; [done|]. split; [|done].
  eapply Forall2_impl; [exact Hcand|]. intros m a Ha.
  by eapply candidate_built, candidateBy_candidate.
Qed.

(** Every way [GET /api/announcements] can go. *)
Lemma getAnnouncements_cases (st : State) :
  (exists r, requireEnv P = Some r /\ getAnnouncements P st = (r, st)) \/
  (requireEnv P = None /\
   ((network P (length (fetched st)) (messagesUrl P) = Rejected /\
     getAnnouncements P st =
       ({| res_status := 500; res_cache_control := None;
           res_body := ServerErrorBody FetchRejected |}, afterUpstream P st)) \/
    (exists r, network P (length (fetched st)) (messagesUrl P) = Replied r /\
     ((reply_body r = None /\
       getAnnouncements P st =
         ({| res_status := 500; res_cache_control := None;
             res_body := ServerErrorBody BodyRejected |}, afterUpstream P st)) \/
      (exists raw, reply_body r = Some raw /\
       ((raw <> [] /\ JSON_parse P raw = None /\
         getAnnouncements P st =
           ({| res_status := 502; res_cache_control := None;
               res_body := DiscordErrorBody 502 (NonJson raw) |}, afterUpstream P st)) \/
        (exists d,
           match raw with [] => Some DNull | _ :: _ => JSON_parse P raw end = Some d /\
           ((reply_ok r = false /\
             getAnnouncements P st =
               ({| res_status := reply_status r; res_cache_control := None;
                   res_body := DiscordErrorBody (reply_status r) (Parsed d) |},
                afterUpstream P st)) \/
            (reply_ok r = true /\
             exists mapped st',
               promiseAll P
                 (filter (fun m => keepMessage m = true) (messagesOf d))
                 (afterUpstream P st) = (Ok mapped, st') /\
               getAnnouncements P st = (feedResponse (cleaned mapped), st')))))))))).
Proof.
  destruct (requireEnv P) as [r0|] eqn:Henv.
  { left. exists r0. split; [done|]. unfold getAnnouncements. by rewrite Henv. }
  right. split; [done|].
  destruct (network P (length (fetched st)) (messagesUrl P)) as [|r] eqn:Hnet.
  { left. split; [done|]. unfold getAnnouncements. rewrite Henv.
    unfold discordFetchJson, bind, fetch. by rewrite Hnet. }
  right. exists r. split; [done|].
  destruct (reply_body r) as [raw|] eqn:Hbody.
  2:{ left. split; [done|]. unfold getAnnouncements. rewrite Henv.
      unfold discordFetchJson, bind, fetch, readBody. by rewrite Hnet, Hbody. }
  right. exists raw. split; [done|].
  destruct (match raw with [] => Some DNull | _ :: _ => JSON_parse P raw end)
    as [d|] eqn:Hparse.
  2:{ left. destruct raw as [|c raw]; [done|]. split; [done|]. split; [done|].
      unfold getAnnouncements. rewrite Henv.
      unfold discordFetchJson, bind, fetch, readBody. rewrite Hnet, Hbody.
      unfold ret at 1. by rewrite Hparse. }
  right. exists d. split; [done|].
  destruct (reply_ok r) eqn:Hok.
  - right. split; [done|].
    destruct (getAnnouncements_success P st r raw d Henv Hnet Hok Hbody Hparse)
      as (mapped & st' & Hmap & Hrun). eauto.
  - left. split; [done|]. unfold getAnnouncements. rewrite Henv.
    unfold discordFetchJson, bind, fetch, readBody. rewrite Hnet, Hbody.
    unfold ret at 1. rewrite Hparse. unfold ret. simpl. by rewrite Hok.
Qed.
End RouteEffects.

Lemma Forall_filter_both {A} (Q R : A -> Prop) `{forall x, Decision (R x)}
    (l : list A) :
  Forall Q l -> Forall (fun x => Q x /\ R x) (filter R l).
Proof.
  induction 1 as [|x l Hx Hl IH]; [constructor|].
  destruct (decide (R x)).
  - rewrite filter_cons_True by done. by constructor.
  - by rewrite filter_cons_False.
Qed.

Lemma builtFrom_ids (ms : list Message) (mapped : list Announcement) :
  Forall2 builtFrom ms mapped -> map ann_id mapped = map msg_id ms.
Proof.
  induction 1 as [|m a ms mapped (Hid & _) _ IH]; [done|].
  simpl. by rewrite Hid, IH.
Qed.

(** An announcement with trimmed content and distinct media URLs. *)
Lemma builtFrom_shape (m : Message) (a : Announcement) :
  builtFrom m a ->
  (forall c, head (ann_content a) = Some c -> isSpace c = false) /\
  (forall c, last (ann_content a) = Some c -> isSpace c = false) /\
  NoDup (map media_url (ann_media a)).
Proof.
  intros (_ & -> & _ & Hnodup & _).
  split; [apply trim_head|]. split; [apply trimEnd_last|done].
Qed.

(** X13. Whenever [GET /api/announcements] answers with announcements,
    the status is 200 with [Cache-Control: no-store], there are at most
    eight of them, none has both an empty content and an empty media
    list, every content is free of white space at both ends, and no
    media list names a URL twice. *)
Theorem getAnnouncements_feed_shape (P : Platform) (st st' : State)
    (resp : Response) (anns : list Announcement) :
  getAnnouncements P st = (resp, st') ->
  res_body resp = AnnouncementsBody anns ->
  resp = feedResponse anns /\
  (length anns <= 8)%nat /\
  Forall (fun a =>
            ~ (ann_content a = [] /\ ann_media a = []) /\
            (forall c, head (ann_content a) = Some c -> isSpace c = false) /\
            (forall c, last (ann_content a) = Some c -> isSpace c = false) /\
            NoDup (map media_url (ann_media a))) anns.
Proof.
  intros Hrun Hbody.
  destruct (getAnnouncements_cases P st)
    as [(r & Henv & Hr)|(_ & [(_ & Hr)|(r & _ & [(_ & Hr)|(raw & _ &
         [(_ & _ & Hr)|(d & _ & [(_ & Hr)|(_ & mapped & st1 & Hmap & Hr)])])])])];
    rewrite Hr in Hrun; injection Hrun as <- <-; try discriminate.
  - unfold requireEnv in Henv.
    repeat match type of Henv with
           | (if ?b then _ else _) = _ => destruct b
           end; inversion Henv; subst r; discriminate.
  - simpl in Hbody. injection Hbody as <-. split; [done|].
    unfold cleaned. split; [rewrite length_take; lia|].
    apply Forall_take.
    destruct (announcements_all P
                (filter (fun m => keepMessage m = true) (messagesOf d))
                (afterUpstream P st))
      as (mapped' & st2 & extra & Hmap' & Hbuilt & _).
    rewrite Hmap in Hmap'. injection Hmap' as <- <-.
    assert (Forall (fun a => (forall c, head (ann_content a) = Some c -> isSpace c = false) /\
                             (forall c, last (ann_content a) = Some c -> isSpace c = false) /\
                             NoDup (map media_url (ann_media a))) mapped) as Hshape.
    { clear -Hbuilt. induction Hbuilt as [|m a ms mapped Hb _ IH]; constructor; [|done].
      by apply (builtFrom_shape m). }
    eapply Forall_impl;
      [apply (Forall_filter_both _ (fun a => nonEmpty a = true) mapped Hshape)|].
    intros a [Ha Hne]. split; [by apply nonEmpty_iff|exact Ha].
Qed.

Lemma getAnnouncements_feed_shape_witness :
  exists (mapped : list Announcement),
    (length (take 8 mapped) <= 8)%nat.
Proof.
  set (P := samplePlatform (alwaysReply 200 (lit "[...]"))
              (fun _ => Some (DArray twentyMessages))).
  destruct (getAnnouncements_success P emptyState
              {| reply_status := 200; reply_body := Some (lit "[...]") |}
              (lit "[...]") (DArray twentyMessages))
    as (mapped & st' & _ & Hrun); try reflexivity.
  exists (filter (fun a => nonEmpty a = true) mapped).
  exact (proj1 (proj2 (getAnnouncements_feed_shape P emptyState st' _ _ Hrun eq_refl))).
Defined.

Section Upstream.
Variable P : Platform.
Variable st : State.
Variable r : HttpReply.
Variable raw : list ascii.
Hypothesis Henv : requireEnv P = None.
Hypothesis Hnet : network P (length (fetched st)) (messagesUrl P) = Replied r.
Hypothesis Hbody : reply_body r = Some raw.

Lemma upstream_parsed (d : jsdata) :
  match raw with [] => Some DNull | _ :: _ => JSON_parse P raw end = Some d ->
  discordFetchJson P (messagesUrl P) st =
    (Ok {| fj_ok := reply_ok r; fj_status := reply_status r; fj_data := Parsed d |},
     afterUpstream P st).
Proof.
  intros Hparse. unfold discordFetchJson, bind, fetch, readBody.
  rewrite Hnet, Hbody. unfold ret at 1. by rewrite Hparse.
Qed.

Lemma upstream_not_json :
  raw <> [] -> JSON_parse P raw = None ->
  discordFetchJson P (messagesUrl P) st =
    (Ok {| fj_ok := false; fj_status := 502; fj_data := NonJson raw |},
     afterUpstream P st).
Proof.
  intros Hraw Hparse. unfold discordFetchJson, bind, fetch, readBody.
  rewrite Hnet, Hbody. unfold ret at 1. destruct raw; [done|]. by rewrite Hparse.
Qed.
End Upstream.

(** X14. An upstream answer with a status outside 200..299 and a body
    that is empty or parses is passed on: the route answers with that
    status and the parsed body as details, after the one upstream fetch
    and without touching the mirror. *)
Theorem getAnnouncements_upstream_error (P : Platform) (st : State)
    (r : HttpReply) (raw : list ascii) (d : jsdata) :
  requireEnv P = None ->
  network P (length (fetched st)) (messagesUrl P) = Replied r ->
  reply_body r = Some raw ->
  match raw with [] => Some DNull | _ :: _ => JSON_parse P raw end = Some d ->
  reply_ok r = false ->
  getAnnouncements P st =
    ({| res_status := reply_status r; res_cache_control := None;
        res_body := DiscordErrorBody (reply_status r) (Parsed d) |},
     afterUpstream P st).
Proof.
  intros Henv Hnet Hbody Hparse Hok. unfold getAnnouncements. rewrite Henv.
  unfold bind. rewrite (upstream_parsed P st r raw Hnet Hbody d Hparse).
  simpl. by rewrite Hok.
Qed.

Lemma getAnnouncements_upstream_error_witness :
  getAnnouncements
    (samplePlatform (alwaysReply 403 (lit "{}")) (fun raw => Some (DOther raw)))
    emptyState
  = ({| res_status := 403; res_cache_control := None;
        res_body := DiscordErrorBody 403 (Parsed (DOther (lit "{}"))) |},
     {| files := ∅;
        fetched := [lit "https://discord.com/api/v10/channels/42/messages?limit=20"] |}).
Proof.
  apply (getAnnouncements_upstream_error
           (samplePlatform (alwaysReply 403 (lit "{}")) (fun raw => Some (DOther raw)))
           emptyState {| reply_status := 403; reply_body := Some (lit "{}") |}
           (lit "{}")); reflexivity.
Defined.

(** X15. A non-empty upstream body that is not JSON gives 502 with the
    raw body attached, whatever the upstream status was, a success
    status included. *)
Theorem getAnnouncements_not_json (P : Platform) (st : State)
    (r : HttpReply) (raw : list ascii) :
  requireEnv P = None ->
  network P (length (fetched st)) (messagesUrl P) = Replied r ->
  reply_body r = Some raw ->
  raw <> [] ->
  JSON_parse P raw = None ->
  getAnnouncements P st =
    ({| res_status := 502; res_cache_control := None;
        res_body := DiscordErrorBody 502 (NonJson raw) |},
     afterUpstream P st).
Proof.
  intros Henv Hnet Hbody Hraw Hparse. unfold getAnnouncements. rewrite Henv.
  unfold bind. by rewrite (upstream_not_json P st r raw Hnet Hbody Hraw Hparse).
Qed.

Lemma getAnnouncements_not_json_witness :
  getAnnouncements
    (samplePlatform (alwaysReply 200 (lit "<html>")) noParse) emptyState
  = ({| res_status := 502; res_cache_control := None;
        res_body := DiscordErrorBody 502 (NonJson (lit "<html>")) |},
     {| files := ∅;
        fetched := [lit "https://discord.com/api/v10/channels/42/messages?limit=20"] |}).
Proof.
  apply (getAnnouncements_not_json
           (samplePlatform (alwaysReply 200 (lit "<html>")) noParse)
           emptyState {| reply_status := 200; reply_body := Some (lit "<html>") |}
           (lit "<html>")); (reflexivity || discriminate).
Defined.

(** X16. When the upstream call succeeds, the ids of the announcements
    returned are ids of upstream messages, in the upstream order:
    nothing is reordered, repeated or invented. *)
Theorem getAnnouncements_ids_in_order (P : Platform) (st st' : State)
    (r : HttpReply) (raw : list ascii) (d : jsdata) (resp : Response) :
  requireEnv P = None ->
  network P (length (fetched st)) (messagesUrl P) = Replied r ->
  reply_ok r = true ->
  reply_body r = Some raw ->
  match raw with [] => Some DNull | _ :: _ => JSON_parse P raw end = Some d ->
  getAnnouncements P st = (resp, st') ->
  exists anns : list Announcement,
    resp = feedResponse anns /\
    map ann_id anns `sublist_of` map msg_id (messagesOf d).
Proof.
  intros Henv Hnet Hok Hbody Hparse Hrun.
  destruct (getAnnouncements_success P st r raw d Henv Hnet Hok Hbody Hparse)
    as (mapped & st1 & Hmap & Hrun').
  rewrite Hrun' in Hrun. injection Hrun as <- <-.
  exists (cleaned mapped). split; [done|].
  destruct (announcements_all P
              (filter (fun m => keepMessage m = true) (messagesOf d))
              (afterUpstream P st))
    as (mapped' & st2 & extra & Hmap' & Hbuilt & _).
  rewrite Hmap in Hmap'. injection Hmap' as <- <-.
  apply builtFrom_ids in Hbuilt.
  trans (map ann_id mapped).
  - apply (fmap_sublist ann_id). unfold cleaned.
    etrans; [apply sublist_take|apply sublist_filter].
  - rewrite Hbuilt. apply (fmap_sublist msg_id), sublist_filter.
Qed.

Lemma getAnnouncements_ids_in_order_witness :
  exists (anns : list Announcement),
    map ann_id anns `sublist_of` map msg_id twentyMessages.
Proof.
  set (P := samplePlatform (alwaysReply 200 (lit "[...]"))
              (fun _ => Some (DArray twentyMessages))).
  destruct (getAnnouncements P emptyState) as [resp st'] eqn:Hrun.
  destruct (getAnnouncements_ids_in_order P emptyState st'
              {| reply_status := 200; reply_body := Some (lit "[...]") |}
              (lit "[...]") (DArray twentyMessages) resp)
    as (anns & _ & Hsub); try reflexivity.
  - exact Hrun.
  - exists anns. exact Hsub.
Defined.



(** Two callbacks that mirror the same file both find it missing and
    both fetch it, before either has written it, whereas the callback
    of the third message finds its file on disk and fetches nothing. *)
Example racing_callbacks_fetch_twice :
  getAnnouncements
    (scheduledPlatform (alwaysReply 200 (lit "PNG"))
       (fun _ => Some (DArray
          [ attachmentMessage (lit "1001") [pngAttachment];
            attachmentMessage (lit "1001") [pngAttachment];
            attachmentMessage (lit "1002") [pngAttachment] ]))
       [1; 0; 1]%nat)
    {| files := {[ lit "/srv/downloads/1002-cat.png" := lit "OLD" ]}; fetched := [] |}
  = (feedResponse
       [ {| ann_id := lit "1001"; ann_content := []; ann_timestamp := None;
            ann_media := [ {| media_url := lit "/downloads/1001-cat.png";
                              media_type := image;
                              media_name := None; media_contentType := None |} ] |};
         {| ann_id := lit "1001"; ann_content := []; ann_timestamp := None;
            ann_media := [ {| media_url := lit "/downloads/1001-cat.png";
                              media_type := image;
                              media_name := None; media_contentType := None |} ] |};
         {| ann_id := lit "1002"; ann_content := []; ann_timestamp := None;
            ann_media := [ {| media_url := lit "/downloads/1002-cat.png";
                              media_type := image;
                              media_name := None; media_contentType := None |} ] |} ],
     {| files := {[ lit "/srv/downloads/1001-cat.png" := lit "PNG";
                    lit "/srv/downloads/1002-cat.png" := lit "OLD" ]};
        fetched := [ lit "https://discord.com/api/v10/channels/42/messages?limit=20";
                     sampleUrl; sampleUrl ] |}).
Proof. vm_compute. reflexivity. Qed.

(** With a network that answers in the order it is asked, the callbacks
    advance in turn: the first attachments of both messages are fetched
    before the second attachment of either. *)
Example callbacks_advance_in_turn :
  fetched
    (getAnnouncements
       (samplePlatform (alwaysReply 200 (lit "DATA"))
          (fun _ => Some (DArray
             [ attachmentMessage (lit "1")
                 [ {| att_url := Some (lit "https://cdn.example/a1");
                      att_content_type := None; att_filename := Some (lit "a1") |};
                   {| att_url := Some (lit "https://cdn.example/a2");
                      att_content_type := None; att_filename := Some (lit "a2") |} ];
               attachmentMessage (lit "2")
                 [ {| att_url := Some (lit "https://cdn.example/b1");
                      att_content_type := None; att_filename := Some (lit "b1") |};
                   {| att_url := Some (lit "https://cdn.example/b2");
                      att_content_type := None; att_filename := Some (lit "b2") |} ] ])))
       emptyState).2
  = [ lit "https://discord.com/api/v10/channels/42/messages?limit=20";
      lit "https://cdn.example/a1"; lit "https://cdn.example/b1";
      lit "https://cdn.example/a2"; lit "https://cdn.example/b2" ].
Proof. vm_compute. reflexivity. Qed.

(** A callback whose first attachment is on disk goes on before the
    download of another callback is answered: it finds the file of its
    second attachment missing and fetches it, although the other
    callback is about to write that very file. *)
Example ready_callbacks_go_first :
  fetched
    (getAnnouncements
       (samplePlatform (alwaysReply 200 (lit "PNG"))
          (fun _ => Some (DArray
             [ attachmentMessage (lit "1001") [pngAttachment];
               attachmentMessage (lit "1001")
                 [ {| att_url := Some (lit "https://cdn.example/a/dog.png");
                      att_content_type := Some (lit "image/png");
                      att_filename := Some (lit "dog.png") |};
                   pngAttachment ] ])))
       {| files := {[ lit "/srv/downloads/1001-dog.png" := lit "DOG" ]};
          fetched := [] |}).2
  = [ lit "https://discord.com/api/v10/channels/42/messages?limit=20";
      sampleUrl; sampleUrl ].
Proof. vm_compute. reflexivity. Qed.

(** X18. The route answers 200 exactly when it answers with
    announcements.  Every other answer leaves the directory as it was
    and has cost at most the one upstream fetch; in particular a
    rejected upstream fetch or an unreadable body gives 500, not a
    throw. *)
Theorem getAnnouncements_failures (P : Platform) (st st' : State)
    (resp : Response) :
  getAnnouncements P st = (resp, st') ->
  (res_status resp = 200 <-> exists anns, res_body resp = AnnouncementsBody anns) /\
  (res_status resp <> 200 ->
     files st' = files st /\
     (fetched st' = fetched st \/ fetched st' = fetched st ++ [messagesUrl P])) /\
  (requireEnv P = None ->
   network P (length (fetched st)) (messagesUrl P) = Rejected \/
   (exists r, network P (length (fetched st)) (messagesUrl P) = Replied r /\
              reply_body r = None) ->
   res_status resp = 500 /\ exists e, res_body resp = ServerErrorBody e).
Proof.
  intros Hrun.
  destruct (getAnnouncements_cases P st)
    as [(r & Henv & Hr)|(Henv & [(Hnet & Hr)|(r & Hnet & [(Hbody & Hr)|(raw & Hbody &
         [(_ & _ & Hr)|(d & _ & [(Hok & Hr)|(_ & mapped & st1 & Hmap & Hr)])])])])];
    rewrite Hr in Hrun; injection Hrun as <- <-; simpl.
  - assert (res_status r = 500 /\ exists msg, res_body r = ErrorBody msg) as [Hs [msg Hb]].
    { unfold requireEnv in Henv.
      repeat match type of Henv with
             | (if ?b then _ else _) = _ => destruct b
             end; inversion Henv; subst r; simpl; eauto. }
    rewrite Hs, Hb. split; [split; [done|by intros [? ?]]|].
    split; [auto|]. intros Hnone. congruence.
  - split; [split; [done|by intros [? ?]]|]. split; [auto|]. eauto.
  - split; [split; [done|by intros [? ?]]|]. split; [auto|]. eauto.
  - split; [split; [done|by intros [? ?]]|]. split; [auto|].
    intros _ [Hrej|(r' & Hr' & Hnone)]; congruence.
  - assert (reply_status r <> 200) as Hne.
    { intros H200. unfold reply_ok in Hok. rewrite H200 in Hok. done. }
    split; [split; [done|by intros [? ?]]|]. split; [auto|].
    intros _ [Hrej|(r' & Hr' & Hnone)]; congruence.
  - split; [split; [eauto|done]|]. split; [done|].
    intros _ [Hrej|(r' & Hr' & Hnone)]; congruence.
Qed.

Lemma getAnnouncements_failures_witness :
  res_status
    (fst (getAnnouncements (samplePlatform (fun _ _ => Rejected) noParse) emptyState))
  = 500.
Proof.
  destruct (getAnnouncements (samplePlatform (fun _ _ => Rejected) noParse) emptyState)
    as [resp st'] eqn:Hrun.
  destruct (getAnnouncements_failures _ _ _ _ Hrun) as (_ & _ & Hrej).
  apply Hrej; [reflexivity|]. left. reflexivity.
Defined.

(** X19. [requireEnv] lets a request through exactly when both settings
    hold something other than white space: a setting that is unset,
    empty or blank counts as missing. *)
Theorem requireEnv_passes_iff (P : Platform) :
  requireEnv P = None <->
  (exists token, env_DISCORD_BOT_TOKEN P = Some token /\ trim token <> []) /\
  (exists channel, env_DISCORD_CHANNEL_ID P = Some channel /\ trim channel <> []).
Proof.
  assert (forall o : option (list ascii),
            truthy (trim <$> o) = true <-> exists v, o = Some v /\ trim v <> []) as Htruthy.
  { intros [v|]; simpl.
    - destruct (trim v) eqn:E; split; try done.
      + intros (v' & [= <-] & Hne). congruence.
      + intros _. exists v. split; [done|]. by rewrite E.
    - split; [done|]. by intros (v & ? & _). }
  unfold requireEnv, DISCORD_BOT_TOKEN, DISCORD_CHANNEL_ID.
  rewrite <- !Htruthy.
  destruct (truthy (trim <$> env_DISCORD_BOT_TOKEN P)),
           (truthy (trim <$> env_DISCORD_CHANNEL_ID P)); simpl;
    split; try done; by intros [? ?].
Qed.

Lemma requireEnv_passes_iff_witness :
  requireEnv (samplePlatform (alwaysReply 200 []) noParse) = None.
Proof.
  apply requireEnv_passes_iff. split.
  - exists (lit "token"). split; [reflexivity|discriminate].
  - exists (lit "42"). split; [reflexivity|discriminate].
Defined.

Example requireEnv_blank_token :
  requireEnv {| env_DISCORD_BOT_TOKEN := Some (lit "   ");
                env_DISCORD_CHANNEL_ID := Some (lit "42");
                DOWNLOADS_DIR := lit "/srv/downloads"; path_join := joinSegment;
       path_sep := "/";
                network := alwaysReply 200 [];
       write_result := fun _ _ => Written; resume_order := [];
                JSON_parse := noParse |}
  = Some {| res_status := 500; res_cache_control := None;
            res_body := ErrorBody (lit "Missing DISCORD_BOT_TOKEN") |}.
Proof. reflexivity. Qed.

Lemma sanitizeContent_nil : sanitizeContent [] = [].
Proof. reflexivity. Qed.

(** X20. A message whose content is missing or blank and that has
    neither embeds nor attachments gives an announcement with empty
    content and no media, without any effect on the world; and such a
    candidate is dropped: the answer is the same as without it. *)
Theorem blank_message_dropped (P : Platform) (m : Message) (st : State) :
  orEmpty (msg_embeds m) = [] ->
  orEmpty (msg_attachments m) = [] ->
  msg_content m = None \/ (exists s, msg_content m = Some s /\ trim s = []) ->
  exists a : Announcement,
    toAnnouncement P m st = (Ok a, st) /\
    ann_content a = [] /\ ann_media a = [] /\
    forall before after : list Announcement,
      cleaned (before ++ a :: after) = cleaned (before ++ after).
Proof.
  intros Hemb Hatt Hcontent.
  assert (contentRaw m = []) as Hraw.
  { unfold contentRaw. rewrite Hemb. simpl.
    destruct Hcontent as [->|(s & -> & Hs)]; [done|].
    simpl. rewrite Hs. by destruct s. }
  eexists. split; [|split; [|split]].
  - unfold toAnnouncement, getMediaFromMessage, bind, ret.
    rewrite Hemb, Hatt, Hraw. simpl. reflexivity.
  - reflexivity.
  - reflexivity.
  - intros before after. unfold cleaned.
    by rewrite !filter_app, filter_cons_False.
Qed.

Lemma blank_message_dropped_witness :
  exists a : Announcement,
    toAnnouncement (samplePlatform (alwaysReply 200 []) noParse)
      (textMessage (lit "1001") (lit "  ")) emptyState = (Ok a, emptyState) /\
    ann_content a = [] /\ ann_media a = [].
Proof.
  destruct (blank_message_dropped (samplePlatform (alwaysReply 200 []) noParse)
              (textMessage (lit "1001") (lit "  ")) emptyState)
    as (a & Hrun & Hc & Hm & _).
  - reflexivity.
  - reflexivity.
  - right. exists (lit "  "). split; reflexivity.
  - exists a. auto.
Defined.

(** ** The diagnostic route *)

(** X21. [GET /api/channel] never writes to the mirror directory and
    makes at most one fetch, of the channel URL; with a setting missing
    it answers 500 without any fetch; it sends the channel properties
    only after a success status; and, having no [try], it throws when
    the fetch is rejected. *)
Theorem getChannel_effects (P : Platform) (st st' : State) (r : Res ChannelReply) :
  getChannel P st = (r, st') ->
  files st' = files st /\
  (fetched st' = fetched st \/ fetched st' = fetched st ++ [channelUrl P]) /\
  (requireEnv P <> None ->
     st' = st /\ exists resp, r = Ok (ChannelFailure resp) /\ res_status resp = 500) /\
  (forall c, r = Ok (ChannelInfo c) ->
     exists rep, network P (length (fetched st)) (channelUrl P) = Replied rep /\
                 reply_ok rep = true) /\
  (requireEnv P = None ->
   network P (length (fetched st)) (channelUrl P) = Rejected ->
   r = Throw FetchRejected).
Proof.
  unfold getChannel.
  destruct (requireEnv P) as [resp|] eqn:Henv.
  { unfold ret. intros [= <- <-]. split; [done|]. split; [by left|].
    split; [|split; [done|done]]. intros _. split; [done|]. exists resp. split; [done|].
    unfold requireEnv in Henv.
    repeat match type of Henv with
           | (if ?b then _ else _) = _ => destruct b
           end; by inversion Henv. }
  unfold bind, discordFetchJson, bind, fetch, readBody.
  destruct (network P (length (fetched st)) (channelUrl P)) as [|rep] eqn:Hnet.
  { intros [= <- <-]. simpl. split; [done|]. split; [by right|].
    split; [done|]. split; [done|done]. }
  destruct (reply_body rep) as [raw|]; simpl.
  2:{ unfold throw. intros [= <- <-]. simpl. split; [done|]. split; [by right|].
      split; [done|]. split; [done|done]. }
  unfold ret at 1.
  destruct (match raw with [] => Some DNull | _ :: _ => JSON_parse P raw end) as [d|];
    unfold ret; simpl.
  2:{ intros [= <- <-]. simpl. split; [done|]. split; [by right|].
      split; [done|]. split; [done|done]. }
  destruct (reply_ok rep) eqn:Hok; simpl; intros [= <- <-]; simpl;
    (split; [done|]); (split; [by right|]); (split; [done|]);
    (split; [|done]).
  - intros c _. eauto.
  - done.
Qed.

Lemma getChannel_effects_witness :
  getChannel (samplePlatform (fun _ _ => Rejected) noParse) emptyState
  = (Throw FetchRejected,
     {| files := ∅; fetched := [lit "https://discord.com/api/v10/channels/42"] |}).
Proof.
  destruct (getChannel (samplePlatform (fun _ _ => Rejected) noParse) emptyState)
    as [r st'] eqn:Hrun.
  destruct (getChannel_effects _ _ _ _ Hrun) as (_ & _ & _ & _ & Hthrow).
  rewrite Hthrow; [|reflexivity|reflexivity].
  revert Hrun. vm_compute. by intros [= _ <-].
Defined.

Example getChannel_null_body :
  getChannel (samplePlatform (alwaysReply 200 []) noParse) emptyState
  = (Ok (ChannelInfo None),
     {| files := ∅; fetched := [lit "https://discord.com/api/v10/channels/42"] |}).
Proof. vm_compute. reflexivity. Qed.

(** ** sanitizeContent, further *)

Lemma unescape_nil : unescape [] = [].
Proof. reflexivity. Qed.

Lemma unescape_escaped_token (t a b : list ascii) :
  "\"%char ∉ t ->
  unescape (a ++ lit "\u003c" ++ t ++ lit "\u003e" ++ b)
  = unescape a ++ lit "<" ++ t ++ lit ">" ++ unescape b.
Proof.
  intros Ht. rewrite unescape_escaped_lt, unescape_escaped_gt.
  rewrite <- (app_nil_r t) at 1. rewrite unescape_keep by done.
  by rewrite unescape_nil, app_nil_r.
Qed.

(** X22. A mention whose angle brackets arrive as escape sequences is
    replaced like a plain one, for every id and every kind of token:
    unescaping comes first. *)
Theorem sanitizeContent_escaped_tokens (d a b : list ascii) :
  d <> [] -> forallb isDigit d = true ->
  sanitizeContent (a ++ lit "\u003c" ++ (lit "@" ++ d) ++ lit "\u003e" ++ b)
    = sanitizeContent a ++ lit "@user" ++ sanitizeContent b /\
  sanitizeContent (a ++ lit "\u003c" ++ (lit "@!" ++ d) ++ lit "\u003e" ++ b)
    = sanitizeContent a ++ lit "@user" ++ sanitizeContent b /\
  sanitizeContent (a ++ lit "\u003c" ++ (lit "@&" ++ d) ++ lit "\u003e" ++ b)
    = sanitizeContent a ++ lit "@role" ++ sanitizeContent b /\
  sanitizeContent (a ++ lit "\u003c" ++ (lit "#" ++ d) ++ lit "\u003e" ++ b)
    = sanitizeContent a ++ lit "#channel" ++ sanitizeContent b.
Proof.
  intros Hne Hd.
  assert (forall text, sanitizeContent text = replaceMentions (unescape text))
    as Hstages by reflexivity.
  assert (forall p, "\"%char ∉ p -> "\"%char ∉ p ++ d) as Hbs.
  { intros p Hp. apply not_elem_of_app. split; [done|by apply digits_no]. }
  rewrite !Hstages. repeat split.
  - rewrite unescape_escaped_token by (apply Hbs; by_compute).
    by apply (replaceMentions_user d Hne Hd).
  - rewrite unescape_escaped_token by (apply Hbs; by_compute).
    by apply (replaceMentions_user_bang d Hne Hd).
  - rewrite unescape_escaped_token by (apply Hbs; by_compute).
    by apply (replaceMentions_role d Hne Hd).
  - rewrite unescape_escaped_token by (apply Hbs; by_compute).
    by apply (replaceMentions_channel d Hne Hd).
Qed.

Lemma sanitizeContent_escaped_tokens_witness :
  sanitizeContent (lit "see \u003c#77\u003e!") = lit "see #channel!".
Proof.
  destruct (sanitizeContent_escaped_tokens (lit "77") (lit "see ") (lit "!"))
    as (_ & _ & _ & Hchannel).
  - discriminate.
  - reflexivity.
  - exact Hchannel.
Defined.

(** ** Embeds, further *)

Lemma foldCase_dot (c : ascii) : foldCase c = "."%char -> c = "."%char.
Proof.
  destruct c as [[] [] [] [] [] [] [] []]; vm_compute; congruence.
Qed.

Lemma dotGif_anywhere (pre g post : list ascii) :
  map foldCase g = lit ".gif" -> test dotGifAt (pre ++ g ++ post) = true.
Proof.
  intros Hg. apply test_app.
  destruct g as [|c1 [|c2 [|c3 [|c4 [|c5 g]]]]]; try discriminate.
  injection Hg as H1 H2 H3 H4. apply foldCase_dot in H1 as ->.
  destruct post; simpl; unfold dotGifAt; simpl; by rewrite H2, H3, H4.
Qed.

(** X23. An embed without a video whose image URL contains [.gif]
    anywhere, in any letter case, is added with the type [gif]; unlike
    for attachments, the extension need not end the URL. *)
Theorem embed_image_gif_anywhere (acc : MediaAcc) (e : Embed)
    (pre g post : list ascii) :
  truthy (mediaUrl (emb_video e)) = false ->
  mediaUrl (emb_image e) = Some (pre ++ g ++ post) ->
  map foldCase g = lit ".gif" ->
  embedStep acc e = add acc (Some (pre ++ g ++ post)) gif None.
Proof.
  intros Hvideo Himage Hg. unfold embedStep, gifOrImage.
  rewrite Hvideo, Himage. cbn [toString].
  rewrite (dotGif_anywhere pre g post Hg).
  destruct (truthy (Some (pre ++ g ++ post))) eqn:E; [done|].
  destruct g; [discriminate|]. by destruct pre.
Qed.

Lemma embed_image_gif_anywhere_witness :
  embedStep noMedia
    {| emb_title := None; emb_description := None; emb_video := None;
       emb_image := Some {| em_url := Some (lit "https://media.example/x.GIFv?s=1") |};
       emb_thumbnail := None |}
  = add noMedia (Some (lit "https://media.example/x.GIFv?s=1")) gif None.
Proof.
  apply (embed_image_gif_anywhere noMedia _
           (lit "https://media.example/x") (lit ".GIF") (lit "v?s=1"));
    reflexivity.
Defined.

Example attachment_gif_extension_must_end :
  test gifExtensionAt (lit "https://media.example/x.GIFv?s=1") = false /\
  test gifExtensionAt (lit "https://media.example/x.GIF?s=1") = true.
Proof. split; reflexivity. Qed.

(** ** The CORS middleware *)

Lemma allowedOrigins_elem (v : list ascii) :
  v ∈ allowedOrigins <->
  v = lit "https://socalalliance.org" \/
  v = lit "https://beta.socalalliance.org" \/
  v = lit "https://b1.socalalliance.org" \/
  v = lit "http://localhost:3000" \/
  v = lit "http://127.0.0.1:5500".
Proof.
  unfold allowedOrigins. rewrite !elem_of_union, !elem_of_singleton. tauto.
Qed.

(** X24. The middleware sets [Access-Control-Allow-Origin] exactly for
    a request whose origin is one of the five allowed ones, to that
    origin and together with [Vary: Origin]; it always announces the
    methods and headers; and it ends the request with 204 exactly when
    the method is [OPTIONS]. *)
Theorem corsMiddleware_spec (req : Request) :
  let h := fst (corsMiddleware req) in
  (forall v, h !! lit "Access-Control-Allow-Origin" = Some v <->
             req_origin req = Some v /\ v ∈ allowedOrigins) /\
  (is_Some (h !! lit "Access-Control-Allow-Origin") ->
     h !! lit "Vary" = Some (lit "Origin")) /\
  h !! lit "Access-Control-Allow-Methods" = Some (lit "GET,OPTIONS") /\
  h !! lit "Access-Control-Allow-Headers" = Some (lit "Content-Type") /\
  (snd (corsMiddleware req) = Some 204 <-> req_method req = lit "OPTIONS") /\
  (snd (corsMiddleware req) = None <-> req_method req <> lit "OPTIONS").
Proof.
  unfold corsMiddleware. cbn [fst snd].
  assert (forall v, v ∈ allowedOrigins -> truthy (Some v) = true) as Hnonempty.
  { intros v Hv. apply allowedOrigins_elem in Hv.
    destruct Hv as [-> | [-> | [-> | [-> | ->]]]]; reflexivity. }
  split; [|split; [|split; [|split; [|split]]]].
  - intros v. rewrite !lookup_insert_ne by discriminate.
    destruct (req_origin req) as [o|] eqn:Ho; cbn [toString].
    + destruct (truthy (Some o)) eqn:Ht; cbn [andb].
      * case_bool_decide as Hin.
        -- rewrite lookup_insert_ne by discriminate. rewrite lookup_insert_eq.
           split; [intros [= <-]; auto|by intros [[= <-] _]].
        -- rewrite lookup_empty. split; [done|]. intros [[= <-] Hv]. done.
      * rewrite lookup_empty. split; [done|]. intros [[= <-] Hv].
        apply Hnonempty in Hv. congruence.
    + simpl. rewrite lookup_empty. split; [done|]. by intros [? _].
  - rewrite !lookup_insert_ne by discriminate.
    destruct (truthy (req_origin req) && bool_decide _).
    + intros _. by rewrite lookup_insert_eq.
    + rewrite lookup_empty. by intros [? ?].
  - rewrite lookup_insert_ne by discriminate. by rewrite lookup_insert_eq.
  - by rewrite lookup_insert_eq.
  - unfold str_eqb. case_bool_decide; split; done.
  - unfold str_eqb. case_bool_decide; split; done.
Qed.

Lemma corsMiddleware_spec_witness :
  fst (corsMiddleware {| req_origin := Some (lit "https://beta.socalalliance.org");
                         req_method := lit "GET" |})
    !! lit "Access-Control-Allow-Origin" = Some (lit "https://beta.socalalliance.org").
Proof.
  apply (corsMiddleware_spec
           {| req_origin := Some (lit "https://beta.socalalliance.org");
              req_method := lit "GET" |}).
  split; [reflexivity|]. apply allowedOrigins_elem. right. left. reflexivity.
Defined.

Example corsMiddleware_foreign_origin :
  fst (corsMiddleware {| req_origin := Some (lit "https://evil.example");
                         req_method := lit "GET" |})
    !! lit "Access-Control-Allow-Origin" = None.
Proof. vm_compute. reflexivity. Qed.

(** ** The name and the content of a mirrored file *)

(** X1. The name that [mirrorToLocal] sanitizes is never empty: it is
    the file name when one is given; otherwise the URL must be defined,
    and the name is the part of the URL after its last ["/"], or
    ["download"] when the URL ends with ["/"] or is empty. *)
Theorem nameSource_spec (url filename : option (list ascii)) (source : list ascii) :
  nameSource url filename = Ok source ->
  source <> [] /\
  (truthy filename = true -> filename = Some source) /\
  (truthy filename = false ->
     exists u, url = Some u /\
       ((lastSegment u = [] /\ source = lit "download") \/
        (source = lastSegment u /\ ("/"%char ∉ source) /\
         exists pre, u = pre ++ source /\ (pre = [] \/ last pre = Some "/"%char)))).
Proof.
  unfold nameSource. destruct (truthy filename) eqn:Hname.
  - destruct filename as [[|c f]|]; try discriminate. simpl.
    intros [= <-]. split; [done|]. split; [done|done].
  - destruct url as [u|]; [|discriminate]. intros [= <-].
    destruct (lastSegment_split u) as (pre & Hsplit & Hno & Hpre).
    destruct (lastSegment u) as [|c seg] eqn:Hseg; simpl.
    + split; [done|]. split; [done|]. intros _. exists u. split; [done|]. by left.
    + split; [done|]. split; [done|]. intros _. exists u. split; [done|].
      right. split; [done|]. split; [done|]. exists pre. by rewrite <- Hsplit.
Qed.

Lemma nameSource_spec_witness : lit "cat.png" <> [].
Proof.
  apply (nameSource_spec (Some sampleUrl) None (lit "cat.png")). reflexivity.
Defined.

(** X8. When [mirrorToLocal] returns a reference for a file that was
    not on disk, the remote answered with a success status, and the
    file now on disk at the local path holds exactly the body of that
    answer. *)
Theorem mirrorToLocal_stores_body (P : Platform) (url : option (list ascii))
    (messageId : list ascii) (filename : option (list ascii))
    (st st' : State) (ref : list ascii) (source : list ascii) :
  nameSource url filename = Ok source ->
  files st !! localPathOf P (localNameOf messageId (safeFilename source)) = None ->
  mirrorToLocal P url messageId filename st = (Ok ref, st') ->
  exists u rep body,
    url = Some u /\
    network P (length (fetched st)) u = Replied rep /\
    reply_ok rep = true /\
    reply_body rep = Some body /\
    files st' !! localPathOf P (localNameOf messageId (safeFilename source)) = Some body.
Proof.
  intros Hsrc Hfile.
  unfold mirrorToLocal, bind, lift, existsSync, fetch, readBody, writeFileSync.
  rewrite Hsrc. rewrite bool_decide_eq_false_2 by (rewrite Hfile; by intros [? ?]).
  destruct url as [u|]; [|discriminate].
  destruct (network P (length (fetched st)) u) as [|rep] eqn:Hnet; [discriminate|].
  destruct (reply_ok rep) eqn:Hok; simpl; [|discriminate].
  destruct (reply_body rep) as [body|] eqn:Hbody; simpl; [|discriminate].
  unfold ret. simpl. destruct (write_result P _ body) as [|[part|]]; try discriminate.
  intros [= <- <-]. exists u, rep, body. simpl.
  rewrite lookup_insert_eq. auto.
Qed.

Lemma mirrorToLocal_stores_body_witness :
  files mirroredState !! lit "/srv/downloads/1001-cat.png" = Some (lit "PNG").
Proof.
  destruct (mirrorToLocal_stores_body
              (samplePlatform (alwaysReply 200 (lit "PNG")) noParse)
              (Some sampleUrl) (lit "1001") (Some (lit "cat.png"))
              emptyState mirroredState (lit "/downloads/1001-cat.png") (lit "cat.png"))
    as (u & rep & body & _ & Hnet & _ & Hbody & Hfile).
  - reflexivity.
  - reflexivity.
  - vm_compute. reflexivity.
  - unfold samplePlatform, alwaysReply in Hnet. simpl in Hnet.
    injection Hnet as <-. simpl in Hbody. injection Hbody as <-.
    exact Hfile.
Defined.

(** ** Mirror failures *)

Lemma foldM_app {A B} (f : B -> A -> Eff B) (l1 l2 : list A) :
  forall (b : B) (st : State),
    foldM f b (l1 ++ l2) st =
      match foldM f b l1 st with
      | (Ok b', st') => foldM f b' l2 st'
      | (Throw e, st') => (Throw e, st')
      end.
Proof.
  induction l1 as [|a l1 IH]; intros b st; simpl; [done|].
  unfold bind. destruct (f b a st) as [[b1|e] st1]; [apply IH|done].
Qed.

(** An attachment with a URL that is not empty and not listed yet is
    listed, last and under the URL it is given. *)
Lemma addAttachment_out (acc : MediaAcc) (originalUrl : option (list ascii))
    (u ct name : list ascii) :
  u <> [] -> u ∉ seen acc ->
  exists item,
    out (addAttachment acc originalUrl (Some u) ct name) = out acc ++ [item] /\
    media_url item = u.
Proof.
  intros Hu Hnew. unfold addAttachment.
  repeat match goal with |- context [if ?b then _ else _] => destruct b end;
    match goal with
    | |- context [add acc (Some u) ?t ?x] =>
        destruct (add_out acc u t x Hu) as [Hout _]; rewrite (Hout Hnew)
    end; eauto.
Qed.

Lemma Forall2_eq_fmap {A B} (f : A -> B) (l : list A) (k : list B) :
  Forall2 (fun x y => y = f x) l k -> k = map f l.
Proof. induction 1 as [|x y l k -> _ IH]; [done|]. simpl. by rewrite IH. Qed.

(** Without a file on disk and without a fetch answered with a success
    status, every attachment is listed under its original URL. *)
Lemma settledBy_remote (P : Platform) (F0 : gmap (list ascii) (list ascii))
    (base : nat) (m : Message) (l : list Attachment) (lus : list (option (list ascii))) :
  ~ fetchOkFrom P base ->
  Forall (fun a => F0 !! localPathOf P (localNameOf (msg_id m) (safeFilename (attName a)))
                   = None) l ->
  Forall2 (settledBy P F0 base m) l lus ->
  lus = map att_url l.
Proof.
  intros Hnone Hfresh Hlus. apply Forall2_eq_fmap.
  induction Hlus as [|a lu l lus Ha _ IH]; [constructor|].
  apply Forall_cons in Hfresh as [Hno Hfresh]. constructor; [|by apply IH].
  destruct Ha as [->|[_ [[old Hold]|Hok]]]; [done| |by destruct Hnone].
  rewrite Hno in Hold. discriminate.
Qed.

(** C2. [mirrorToLocal] throws when the fetch is rejected or answered
    with a status that is not a success, and what it returns is always
    the local reference.  When it throws for an attachment, the round of
    the attachment loop does not throw: it classifies the attachment and
    adds it under its original URL, as a new item when that URL is not
    empty and not listed yet; that item is in the list
    [getMediaFromMessage] returns, at the place the round gave it; media
    gathering never throws.  Once the upstream call has succeeded the
    route answers 200 whatever the mirror did and in whatever order the
    callbacks ran; and when no attachment is mirrored yet and no fetch
    that follows the upstream call is answered with a success status,
    the feed is the one with every attachment under its original URL,
    and no file is created. *)
Theorem mirror_failure_falls_back (P : Platform) :
  (forall (url messageId : list ascii) (filename : option (list ascii))
          (source : list ascii) (st : State),
     nameSource (Some url) filename = Ok source ->
     files st !! localPathOf P (localNameOf messageId (safeFilename source)) = None ->
     (network P (length (fetched st)) url = Rejected ->
        mirrorToLocal P (Some url) messageId filename st =
          (Throw FetchRejected,
           {| files := files st; fetched := fetched st ++ [url] |})) /\
     (forall r, network P (length (fetched st)) url = Replied r ->
        reply_ok r = false ->
        mirrorToLocal P (Some url) messageId filename st =
          (Throw (MirrorFetchFailed (reply_status r)),
           {| files := files st; fetched := fetched st ++ [url] |}))) /\
  (forall (url : option (list ascii)) (messageId : list ascii)
          (filename : option (list ascii)) (st st' : State) (ref : list ascii),
     mirrorToLocal P url messageId filename st = (Ok ref, st') ->
     exists source,
       nameSource url filename = Ok source /\
       ref = lit "/downloads/" ++ messageId ++ lit "-" ++ safeFilename source) /\
  (forall (messageId : list ascii) (acc : MediaAcc) (a : Attachment)
          (st st' : State) (e : js_error),
     mirrorToLocal P (att_url a) messageId (Some (attName a)) st = (Throw e, st') ->
     attachmentStep P messageId acc a st =
       (Ok (addAttachment acc (att_url a) (att_url a) (attType a) (attName a)), st') /\
     (forall u, att_url a = Some u -> u <> [] -> u ∉ seen acc ->
        exists item,
          out (addAttachment acc (att_url a) (att_url a) (attType a) (attName a))
            = out acc ++ [item] /\
          media_url item = u)) /\
  (forall (m : Message) (pre : list Attachment) (a : Attachment)
          (post : list Attachment) (st st1 st2 : State) (acc : MediaAcc)
          (e : js_error) (u : list ascii),
     orEmpty (msg_attachments m) = pre ++ a :: post ->
     foldM (attachmentStep P (msg_id m)) {| out := []; seen := ∅ |} pre st
       = (Ok acc, st1) ->
     mirrorToLocal P (att_url a) (msg_id m) (Some (attName a)) st1 = (Throw e, st2) ->
     att_url a = Some u -> u <> [] -> u ∉ seen acc ->
     exists (media : list MediaItem) (st' : State),
       getMediaFromMessage P m st = (Ok media, st') /\
       exists item, media !! length (out acc) = Some item /\ media_url item = u) /\
  (forall m : Message, total (getMediaFromMessage P m)) /\
  (forall (st : State) (r : HttpReply) (raw : list ascii) (d : jsdata),
     requireEnv P = None ->
     network P (length (fetched st)) (messagesUrl P) = Replied r ->
     reply_ok r = true ->
     reply_body r = Some raw ->
     match raw with [] => Some DNull | _ :: _ => JSON_parse P raw end = Some d ->
     (exists anns st', getAnnouncements P st = (feedResponse anns, st')) /\
     ((forall n u rep, (length (fetched st) < n)%nat ->
                       network P n u = Replied rep -> reply_ok rep = false) ->
      (forall m a, m ∈ messagesOf d -> a ∈ orEmpty (msg_attachments m) ->
         files st !! localPathOf P (localNameOf (msg_id m) (safeFilename (attName a)))
           = None) ->
      exists st',
        getAnnouncements P st =
          (feedResponse
             (cleaned (map remoteAnnouncement
                         (filter (fun m => keepMessage m = true) (messagesOf d)))),
           st') /\
        files st' = files st)).
Proof.
  split; [|split; [|split; [|split; [|split]]]].
  - intros url messageId filename source st Hsrc Hfile.
    unfold mirrorToLocal, bind, lift, existsSync, fetch.
    rewrite Hsrc. rewrite bool_decide_eq_false_2 by (rewrite Hfile; by intros [? ?]).
    split.
    + by intros ->.
    + intros r -> Hok. by rewrite Hok.
  - intros url messageId filename st st' ref Hrun.
    apply mirrorToLocal_Ok_inv in Hrun as (source & Hsrc & -> & _). eauto.
  - intros messageId acc a st st' e Hthrow.
    destruct (attachmentStep_cases P messageId acc a st)
      as [(ref & st1 & Hm & _)|(e1 & st1 & Hm & Hstep)].
    { unfold attName in Hthrow. congruence. }
    unfold attName in Hthrow. rewrite Hthrow in Hm. inversion Hm; subst e1 st1.
    split; [exact Hstep|].
    intros u Hu Hne Hnew. rewrite Hu. by apply addAttachment_out.
  - intros m pre a post st st1 st2 acc e u Hatts Hpre Hthrow Hu Hne Hnew.
    destruct (attachmentStep_cases P (msg_id m) acc a st1)
      as [(ref & st3 & Hm & _)|(e1 & st3 & Hm & Hstep)].
    { unfold attName in Hthrow. congruence. }
    unfold attName in Hthrow. rewrite Hthrow in Hm. inversion Hm; subst e1 st3.
    destruct (addAttachment_out acc (att_url a) u (attType a) (attName a) Hne Hnew)
      as (item & Hout & Hitem).
    rewrite <- Hu in Hout.
    destruct (attachments_fold P (msg_id m) post
                (addAttachment acc (att_url a) (att_url a) (attType a) (attName a)) st2)
      as (acc' & st' & extra & Hpost & _ & Hprefix & _).
    destruct (embeds_fold (orEmpty (msg_embeds m)) acc') as (_ & Hprefix' & _).
    exists (out (fold_left embedStep (orEmpty (msg_embeds m)) acc')), st'. split.
    + unfold getMediaFromMessage, bind. rewrite Hatts, foldM_app, Hpre. simpl.
      unfold bind. unfold attType, attName in Hpost. rewrite Hstep, Hpost. done.
    + exists item. split; [|done].
      assert (out acc ++ [item] `prefix_of`
                out (fold_left embedStep (orEmpty (msg_embeds m)) acc')) as [k Hk].
      { rewrite <- Hout. by etrans. }
      rewrite Hk, <- app_assoc. by apply list_lookup_middle.
  - apply getMediaFromMessage_total.
  - intros st r raw d Henv Hnet Hok Hbody Hparse.
    destruct (getAnnouncements_success P st r raw d Henv Hnet Hok Hbody Hparse)
      as (mapped & st' & Hmap & Hrun).
    split; [eauto|]. intros Hfail Hfresh. exists st'.
    destruct (promiseAll_spec P
                (filter (fun m => keepMessage m = true) (messagesOf d))
                (afterUpstream P st))
      as (mapped' & st2 & Hmap' & Hcand & Hkept & Htraced & _).
    rewrite Hmap in Hmap'. injection Hmap' as <- <-.
    assert (~ fetchOkFrom P (length (fetched (afterUpstream P st)))) as Hnone.
    { intros (n & u & rep & Hn & Hrep & Hrok). simpl in Hn.
      rewrite length_app in Hn. simpl in Hn.
      rewrite (Hfail n u rep) in Hrok; [done|lia|done]. }
    split.
    + rewrite Hrun. do 3 f_equal. apply Forall2_eq_fmap.
      assert (Forall (fun m => m ∈ messagesOf d)
                (filter (fun m => keepMessage m = true) (messagesOf d))) as Hin.
      { apply Forall_forall. intros m Hm. by apply list_elem_of_filter in Hm as [_ ?]. }
      clear -Hcand Hin Hfresh Hnone.
      induction Hcand as [|m a ms mapped (lus & Hlus & ->) _ IH]; [constructor|].
      apply Forall_cons in Hin as [Hm Hin]. constructor; [|by apply IH].
      unfold remoteAnnouncement. f_equal.
      eapply settledBy_remote; [exact Hnone| |exact Hlus].
      apply Forall_forall. intros x Hx. simpl. by apply Hfresh.
    + apply map_eq. intros p. destruct (files st !! p) as [c|] eqn:Hp.
      * by apply Hkept.
      * destruct (files st' !! p) as [c|] eqn:Hp'; [|done].
        destruct (Htraced p) as [[old Hold]|Hok']; [by eauto| |by destruct Hnone].
        simpl in Hold. congruence.
Qed.

Lemma mirror_failure_falls_back_witness :
  exists (media : list MediaItem) (st' : State),
    getMediaFromMessage (samplePlatform (alwaysReply 404 (lit "gone")) noParse)
      (attachmentMessage (lit "1001") [pngAttachment]) emptyState = (Ok media, st') /\
    exists item, media !! 0%nat = Some item /\ media_url item = sampleUrl.
Proof.
  destruct (mirror_failure_falls_back
              (samplePlatform (alwaysReply 404 (lit "gone")) noParse))
    as (_ & _ & _ & Hloop & _).
  apply (Hloop (attachmentMessage (lit "1001") [pngAttachment]) [] pngAttachment []
           emptyState emptyState {| files := ∅; fetched := [sampleUrl] |}
           {| out := []; seen := ∅ |} (MirrorFetchFailed 404) sampleUrl).
  - reflexivity.
  - reflexivity.
  - vm_compute. reflexivity.
  - reflexivity.
  - discriminate.
  - apply not_elem_of_empty.
Defined.

Example failed_mirror_keeps_remote_url :
  getMediaFromMessage (samplePlatform (alwaysReply 404 (lit "gone")) noParse)
    (attachmentMessage (lit "1001") [pngAttachment]) emptyState
  = (Ok [ {| media_url := sampleUrl; media_type := image;
             media_name := None; media_contentType := None |} ],
     {| files := ∅; fetched := [sampleUrl] |}).
Proof. vm_compute. reflexivity. Qed.

Example mirrored_attachment_gets_local_url :
  getMediaFromMessage (samplePlatform (alwaysReply 200 (lit "PNG")) noParse)
    (attachmentMessage (lit "1001") [pngAttachment]) emptyState
  = (Ok [ {| media_url := lit "/downloads/1001-cat.png"; media_type := image;
             media_name := None; media_contentType := None |} ],
     mirroredState).
Proof. vm_compute. reflexivity. Qed.

(** ** A callback on its own *)

Section Alone.
Variable P : Platform.

Lemma resumeTimes_Resolved (n : nat) (m : Message) (media : list MediaItem)
    (st : State) :
  resumeTimes P n (Resolved m media) st = (Resolved m media, st).
Proof. induction n as [|n IH]; [done|]. simpl. exact IH. Qed.

Lemma resumeTimes_add (a b : nat) :
  forall (c : Callback) (st : State),
    resumeTimes P (a + b) c st =
      resumeTimes P b (resumeTimes P a c st).1 (resumeTimes P a c st).2.
Proof.
  induction a as [|a IH]; intros c st; simpl; [done|].
  destruct (resumeCallback P c st) as [c1 st1]. apply IH.
Qed.

(** The attachment loop of a callback that is resumed with nothing in
    between is the loop of [getMediaFromMessage]. *)
Lemma enterLoop_alone (m : Message) (rest : list Attachment) :
  forall (acc : MediaAcc) (st : State) (n : nat) (acc' : MediaAcc) (st' : State),
    foldM (attachmentStep P (msg_id m)) acc rest st = (Ok acc', st') ->
    (2 * length rest <= n)%nat ->
    resumeTimes P n (enterLoop P m acc rest st).1 (enterLoop P m acc rest st).2 =
      (Resolved m (out (fold_left embedStep (orEmpty (msg_embeds m)) acc')), st').
Proof.
  induction rest as [|a rest IH]; intros acc st n acc' st' Hfold Hn.
  { simpl in *. unfold ret in Hfold. injection Hfold as <- <-.
    apply resumeTimes_Resolved. }
  simpl in Hfold. unfold bind at 1 in Hfold.
  unfold attachmentStep, try_catch, bind, ret in Hfold.
  rewrite mirrorToLocal_parts in Hfold.
  fold (attName a) (attType a) in Hfold. simpl.
  destruct (mirrorStart P (att_url a) (msg_id m) (Some (attName a)) st)
    as [[[ref|ln buf]|e] st1]; simpl.
  - destruct n as [|n]; [simpl in Hn; lia|]. simpl.
    specialize (IH _ _ n _ _ Hfold).
    destruct (enterLoop P m _ rest st1) as [c1 st2]. apply IH. simpl in Hn. lia.
  - destruct n as [|[|n]]; [simpl in Hn; lia|simpl in Hn; lia|].
    cbn [resumeTimes resumeCallback].
    destruct (mirrorFinish P ln buf st1) as [[ref|e] st2].
    + cbn [resumeTimes resumeCallback].
      specialize (IH _ _ n _ _ Hfold).
      destruct (enterLoop P m _ rest st2) as [c1 st3]. apply IH. simpl in Hn. lia.
    + cbn [resumeTimes resumeCallback].
      specialize (IH _ _ n _ _ Hfold).
      destruct (enterLoop P m _ rest st2) as [c1 st3]. apply IH. simpl in Hn. lia.
  - destruct n as [|n]; [simpl in Hn; lia|]. simpl.
    specialize (IH _ _ n _ _ Hfold).
    destruct (enterLoop P m _ rest st1) as [c1 st2]. apply IH. simpl in Hn. lia.
Qed.

Lemma callback_alone (m : Message) (st : State) (n : nat) :
  (budget (Called m) <= n)%nat ->
  exists (media : list MediaItem) (st' : State),
    getMediaFromMessage P m st = (Ok media, st') /\
    resumeTimes P n (Called m) st = (Resolved m media, st').
Proof.
  intros Hn.
  destruct (getMediaFromMessage_spec P m st) as (acc & st' & extra & Hfold & Hrun & _).
  eexists _, st'. split; [exact Hrun|].
  destruct n as [|n]; [simpl in Hn; lia|]. simpl.
  pose proof (enterLoop_alone m _ _ _ n _ _ Hfold) as Hloop.
  destruct (enterLoop P m _ (orEmpty (msg_attachments m)) st) as [c1 st1].
  apply Hloop. simpl in Hn. lia.
Qed.

(** Resuming the only callback there is, in any order. *)
Lemma resumeInOrder_single (order : list nat) :
  forall (c : Callback) (st : State),
    exists k : nat,
      resumeInOrder P order [c] st =
        ([(resumeTimes P k c st).1], (resumeTimes P k c st).2).
Proof.
  induction order as [|i order IH]; intros c st; simpl.
  - by exists O.
  - destruct i as [|i]; unfold resumeAt; simpl.
    + destruct (resumeCallback P c st) as [c1 st1] eqn:E.
      destruct (IH c1 st1) as [k Hk]. exists (S k). simpl. by rewrite E.
    + apply IH.
Qed.
Lemma resumePending_single (fuel : nat) :
  forall (c : Callback) (st : State),
    exists k : nat,
      resumePending P fuel [c] st =
        ([(resumeTimes P k c st).1], (resumeTimes P k c st).2).
Proof.
  induction fuel as [|fuel IH]; intros c st; simpl.
  - by exists O.
  - destruct (resumeInOrder_single (nextStep [c]) c st) as [k1 H1]. rewrite H1.
    destruct (resumeTimes P k1 c st) as [c1 st1] eqn:E1. simpl.
    destruct (IH c1 st1) as [k2 H2]. exists (k1 + k2)%nat.
    by rewrite H2, resumeTimes_add, E1.
Qed.
End Alone.

(** X25. A callback that is resumed with nothing in between, as often
    as it needs, ends with the media that [getMediaFromMessage] returns
    and leaves the world as [getMediaFromMessage] leaves it.  Further
    resumptions change nothing. *)
Theorem callback_alone_is_getMediaFromMessage (P : Platform) (m : Message)
    (st : State) (n : nat) :
  exists (media : list MediaItem) (st' : State),
    getMediaFromMessage P m st = (Ok media, st') /\
    resumeTimes P (budget (Called m) + n) (Called m) st = (Resolved m media, st').
Proof. apply callback_alone. lia. Qed.

(** X26. For a single message, [Promise.all] over the callbacks is the
    callback run from start to end, whatever the order in which the
    platform resumes it. *)
Theorem promiseAll_single (P : Platform) (m : Message) (st : State) :
  promiseAll P [m] st = (let* a := toAnnouncement P m in ret [a]) st.
Proof.
  unfold promiseAll.
  destruct (resumeInOrder_single P (seq 0 (length [m])) (Called m) st) as [k1 H1].
  change (map Called [m]) with [Called m]. rewrite H1.
  destruct (resumeTimes P k1 (Called m) st) as [c1 st1] eqn:E1. simpl.
  destruct (resumeInOrder_single P (resume_order P) c1 st1) as [k2 H2]. rewrite H2.
  destruct (resumeTimes P k2 c1 st1) as [c2 st2] eqn:E2. simpl.
  pose proof (resumePending_resolves P _ [c2] st2 (le_n _)) as Hres.
  destruct (resumePending_single P (sum_list (map budget [c2])) c2 st2) as [k3 H3].
  simpl in Hres, H3. rewrite H3 in Hres |- *.
  destruct (resumeTimes P k3 c2 st2) as [c3 st3] eqn:E3. simpl in *.
  rewrite Forall_singleton in Hres.
  assert (resumeTimes P (k1 + (k2 + k3)) (Called m) st = (c3, st3)) as Hall.
  { rewrite resumeTimes_add, E1. simpl. by rewrite resumeTimes_add, E2. }
  destruct (callback_alone P m st (budget (Called m) + (k1 + (k2 + k3))))
    as (media & st' & Hrun & Hlong); [lia|].
  assert ((c3, st3) = (Resolved m media, st')) as Hsame.
  { rewrite <- Hlong, (Nat.add_comm (budget (Called m))), resumeTimes_add, Hall. simpl.
    destruct c3; try discriminate. by rewrite resumeTimes_Resolved. }
  injection Hsame as -> ->.
  unfold toAnnouncement, bind, ret. by rewrite Hrun.
Qed.

(** X27. A write that fails midway and leaves a file behind is taken
    for a mirrored attachment from then on: the call throws, and the
    next call returns the reference without fetching, with the file
    holding what the failed write left. *)
Theorem mirrorToLocal_serves_partial_write (P : Platform) (url messageId : list ascii)
    (filename : option (list ascii)) (source : list ascii) (st : State)
    (rep : HttpReply) (buf part : list ascii) :
  nameSource (Some url) filename = Ok source ->
  files st !! localPathOf P (localNameOf messageId (safeFilename source)) = None ->
  network P (length (fetched st)) url = Replied rep ->
  reply_ok rep = true ->
  reply_body rep = Some buf ->
  write_result P (localPathOf P (localNameOf messageId (safeFilename source))) buf
    = WriteThrows (Some part) ->
  exists st1 : State,
    mirrorToLocal P (Some url) messageId filename st = (Throw WriteFailed, st1) /\
    files st1 !! localPathOf P (localNameOf messageId (safeFilename source)) = Some part /\
    fetched st1 = fetched st ++ [url] /\
    mirrorToLocal P (Some url) messageId filename st1 =
      (Ok (localRef (localNameOf messageId (safeFilename source))), st1).
Proof.
  intros Hsrc Hno Hnet Hok Hbody Hw.
  exists {| files := <[localPathOf P (localNameOf messageId (safeFilename source)) := part]>
                       (files st);
            fetched := fetched st ++ [url] |}.
  split; [|split; [|split]].
  - unfold mirrorToLocal, bind, lift, existsSync, fetch, readBody, writeFileSync.
    rewrite Hsrc. rewrite bool_decide_eq_false_2 by (rewrite Hno; by intros [? ?]).
    rewrite Hnet, Hok. simpl. rewrite Hbody. unfold ret. simpl. by rewrite Hw.
  - simpl. by rewrite lookup_insert_eq.
  - done.
  - apply mirrorToLocal_hit; [done|]. simpl. rewrite lookup_insert_eq. eauto.
Qed.

Lemma mirrorToLocal_serves_partial_write_witness :
  exists st1 : State,
    files st1 !! lit "/srv/downloads/1001-cat.png" = Some [] /\
    mirrorToLocal
      {| env_DISCORD_BOT_TOKEN := Some (lit "token");
         env_DISCORD_CHANNEL_ID := Some (lit "42");
         DOWNLOADS_DIR := lit "/srv/downloads"; path_join := joinSegment;
         path_sep := "/";
         network := alwaysReply 200 (lit "PNG");
         write_result := fun _ _ => WriteThrows (Some []);
         JSON_parse := noParse; resume_order := [] |}
      (Some sampleUrl) (lit "1001") (Some (lit "cat.png")) st1
    = (Ok (lit "/downloads/1001-cat.png"), st1).
Proof.
  destruct (mirrorToLocal_serves_partial_write
              {| env_DISCORD_BOT_TOKEN := Some (lit "token");
                 env_DISCORD_CHANNEL_ID := Some (lit "42");
                 DOWNLOADS_DIR := lit "/srv/downloads"; path_join := joinSegment;
                 path_sep := "/";
                 network := alwaysReply 200 (lit "PNG");
                 write_result := fun _ _ => WriteThrows (Some []);
                 JSON_parse := noParse; resume_order := [] |}
              sampleUrl (lit "1001") (Some (lit "cat.png")) (lit "cat.png") emptyState
              {| reply_status := 200; reply_body := Some (lit "PNG") |} (lit "PNG") [])
    as (st1 & _ & Hfile & _ & Hnext); try reflexivity.
  exists st1. split; [exact Hfile|exact Hnext].
Defined.
